(** * Prioritized experience replay of deep_control: segment trees,
      circular transition store and replay buffers ([deep_control/replay.py]).

    Python integers are modelled as [Z], numpy/torch arrays as lists with
    numpy's indexing rules written out, and floating-point priorities as exact
    rationals [Q] (the minimum tree additionally holds [+inf]); the power
    [x ** y] is a parameter [fpow] of the buffer operations.  Exceptions are
    values of [exn]; every function that can raise returns a [result].
    Random draws are arguments of the sampling functions.  Loops and
    recursions carry a bound that no run on valid indices reaches. *)

From Stdlib Require Import ZArith QArith Qminmax Qround Qpower Lia Lqa Sorted.
From stdpp Require Import base option list.

Local Open Scope Z_scope.

(** ** Exceptions and the error monad *)

(** The [assert] statements of the module, named after the asserted condition. *)
Inductive assertion : Type :=
  | capacity_power_of_two      (* SegmentTree.__init__ *)
  | getitem_max_lt_capacity    (* SegmentTree.__getitem__ *)
  | getitem_min_nonneg         (* SegmentTree.__getitem__ *)
  | prefixsum_min_nonneg       (* find_prefixsum_idx *)
  | prefixsum_max_le_sum       (* find_prefixsum_idx *)
  | alpha_nonneg               (* PrioritizedReplayBuffer.__init__ *)
  | len_idxes_eq_len_priorities (* update_priorities *)
  | priorities_positive        (* update_priorities *)
  | idxes_nonneg               (* update_priorities *)
  | idxes_lt_len.              (* update_priorities *)

Inductive exn : Type :=
  | AssertionError (a : assertion)
  | IndexError
  | TypeError
  | ValueError
  | RuntimeError
  | RecursionError
  | ZeroDivisionError
  | NonFinite    (* an IEEE inf/nan would arise; outside the rational model *)
  | LoopBound.   (* a [while] loop did not stop within the model's bound *)

Inductive result (A : Type) : Type :=
  | Ok (a : A)
  | Err (e : exn).
Arguments Ok {A} a.
Arguments Err {A} e.

Definition bind {A B} (m : result A) (k : A -> result B) : result B :=
  match m with
  | Ok a => k a
  | Err e => Err e
  end.

Notation "x <- m ;; k" := (bind m (fun x => k))
  (at level 100, m at next level, right associativity).

Definition assert (b : bool) (a : assertion) : result unit :=
  if b then Ok tt else Err (AssertionError a).

(** ** numpy arrays as lists *)

Section Arrays.
Context {A : Type}.

(** Position addressed by index [i] in an array of length [n]: negative
    indices count from the end, anything else out of range raises. *)
Definition np_index (n : nat) (i : Z) : option nat :=
  if 0 <=? i
  then (if i <? Z.of_nat n then Some (Z.to_nat i) else None)
  else (if - Z.of_nat n <=? i then Some (Z.to_nat (Z.of_nat n + i)) else None).

(** [a[i]] *)
Definition getitem (a : list A) (i : Z) : result A :=
  match np_index (length a) i with
  | Some k => match a !! k with Some x => Ok x | None => Err IndexError end
  | None => Err IndexError
  end.

(** [a[idxs]] for an index array *)
Fixpoint take_idx (a : list A) (idxs : list Z) : result (list A) :=
  match idxs with
  | [] => Ok []
  | i :: idxs' =>
      x <- getitem a i ;;
      xs <- take_idx a idxs' ;;
      Ok (x :: xs)
  end.

(** [a[i] = x] *)
Definition setitem (a : list A) (i : Z) (x : A) : result (list A) :=
  match np_index (length a) i with
  | Some k => Ok (<[k := x]> a)
  | None => Err IndexError
  end.

(** [a[idxs] = vals] for equally long arrays: the writes happen in order,
    so the last value wins at a repeated index. *)
Fixpoint put_idx (a : list A) (idxs : list Z) (vals : list A) : result (list A) :=
  match idxs, vals with
  | [], [] => Ok a
  | i :: idxs', x :: vals' =>
      a' <- setitem a i x ;;
      put_idx a' idxs' vals'
  | _, _ => Err ValueError
  end.

(** The right-hand side of an indexed assignment: a scalar or an array. *)
Inductive rhs : Type :=
  | Scalar (v : A)
  | Array (vs : list A).

(** Broadcasting of the right-hand side to [n] indexed positions. *)
Definition broadcast (n : nat) (r : rhs) : result (list A) :=
  match r with
  | Scalar v => Ok (replicate n v)
  | Array [v] => Ok (replicate n v)
  | Array vs => if Nat.eqb (length vs) n then Ok vs else Err ValueError
  end.
End Arrays.
Arguments rhs A : clear implicits.

(** ** [unique] *)

(** [sorted_array[np.append(right != left, True)]]: an element is kept when
    it differs from its successor, and the last element is always kept. *)
Fixpoint keep_run_ends (l : list Z) : list Z :=
  match l with
  | [] => []
  | x :: l' =>
      match l' with
      | [] => [x]
      | y :: _ => if x =? y then keep_run_ends l' else x :: keep_run_ends l'
      end
  end.

(** On the empty array the boolean mask [[True]] has the wrong length. *)
Definition unique (sorted_array : list Z) : result (list Z) :=
  match sorted_array with
  | [] => Err IndexError
  | [x] => Ok [x]
  | _ => Ok (keep_run_ends sorted_array)
  end.

(** [np.max] and [np.min] raise on an empty array. *)
Definition np_max (l : list Z) : result Z :=
  match l with
  | [] => Err ValueError
  | x :: l' => Ok (foldr Z.max x l')
  end.

Definition np_min (l : list Z) : result Z :=
  match l with
  | [] => Err ValueError
  | x :: l' => Ok (foldr Z.min x l')
  end.

Definition np_maxQ (l : list Q) : result Q :=
  match l with
  | [] => Err ValueError
  | x :: l' => Ok (foldr Qmax x l')
  end.

Definition np_minQ (l : list Q) : result Q :=
  match l with
  | [] => Err ValueError
  | x :: l' => Ok (foldr Qmin x l')
  end.

(** ** SegmentTree *)

Record SegmentTree (A : Type) : Type := mkSegmentTree {
  _capacity : Z;
  _value : list A;
  _operation : A -> A -> A;
  neutral_element : A
}.
Arguments mkSegmentTree {A}.
Arguments _capacity {A}.
Arguments _value {A}.
Arguments _operation {A}.
Arguments neutral_element {A}.

Section SegmentTreeOps.
Context {A : Type}.
Implicit Types self : SegmentTree A.

Definition SegmentTree_init (capacity : Z) (operation : A -> A -> A)
    (neutral : A) : result (SegmentTree A) :=
  _ <- assert ((0 <? capacity) && (Z.land capacity (capacity - 1) =? 0))
         capacity_power_of_two ;;
  Ok (mkSegmentTree capacity (replicate (Z.to_nat (2 * capacity)) neutral)
        operation neutral).

(** The recursion of [_reduce_helper]; [depth] bounds the call depth, and
    reaching it is Python's [RecursionError]. *)
Fixpoint _reduce_helper (depth : nat) self (start end_ node node_start node_end : Z)
    : result A :=
  match depth with
  | O => Err RecursionError
  | S depth' =>
      if (start =? node_start) && (end_ =? node_end)
      then getitem (_value self) node
      else
        let mid := (node_start + node_end) / 2 in
        if end_ <=? mid
        then _reduce_helper depth' self start end_ (2 * node) node_start mid
        else if mid + 1 <=? start
        then _reduce_helper depth' self start end_ (2 * node + 1) (mid + 1) node_end
        else
          l <- _reduce_helper depth' self start mid (2 * node) node_start mid ;;
          r <- _reduce_helper depth' self (mid + 1) end_ (2 * node + 1) (mid + 1) node_end ;;
          Ok (_operation self l r)
  end.

(** A query inside the array descends at most [log2 capacity + 1] levels;
    the bound below is never reached by such a query. *)
Definition recursion_limit self : nat := Z.to_nat (2 * _capacity self).

Definition reduce self (start : Z) (end_ : option Z) : result A :=
  let end_ := match end_ with None => _capacity self | Some e => e end in
  let end_ := if end_ <? 0 then end_ + _capacity self else end_ in
  let end_ := end_ - 1 in
  _reduce_helper (recursion_limit self) self start end_ 1 0 (_capacity self - 1).

(** The [while] loop of [__setitem__]: recompute the nodes in [idxs] from
    their children, then move to the deduplicated parents.  [fuel] bounds
    the iterations; a run that never stops (as on the indices [[-1, 0]])
    ends in [LoopBound]. *)
Fixpoint propagate (fuel : nat) (op : A -> A -> A) (value : list A) (idxs : list Z)
    : result (list A) :=
  match fuel with
  | O => Err LoopBound
  | S fuel' =>
      continue <- (if 1 <? Z.of_nat (length idxs) then Ok true
                   else i0 <- getitem idxs 0 ;; Ok (0 <? i0)) ;;
      if (continue : bool)
      then
        ls <- take_idx value (map (fun i => 2 * i) idxs) ;;
        rs <- take_idx value (map (fun i => 2 * i + 1) idxs) ;;
        value' <- put_idx value idxs (zip_with op ls rs) ;;
        idxs' <- unique (map (fun i => i / 2) idxs) ;;
        propagate fuel' op value' idxs'
      else Ok value
  end.

(** [self[idx] = val]; [idx] is the index array (a single int is the
    one-element array). *)
Definition SegmentTree_setitem self (idx : list Z) (val : rhs A)
    : result (SegmentTree A) :=
  let idxs := map (fun i => i + _capacity self) idx in
  vals <- broadcast (length idxs) val ;;
  value <- put_idx (_value self) idxs vals ;;
  idxs <- unique (map (fun i => i / 2) idxs) ;;
  value <- propagate (length (_value self)) (_operation self) value idxs ;;
  Ok (mkSegmentTree (_capacity self) value (_operation self) (neutral_element self)).

(** [self[idx]] for an index array *)
Definition SegmentTree_getitem self (idx : list Z) : result (list A) :=
  mx <- np_max idx ;;
  _ <- assert (mx <? _capacity self) getitem_max_lt_capacity ;;
  mn <- np_min idx ;;
  _ <- assert (0 <=? mn) getitem_min_nonneg ;;
  take_idx (_value self) (map (fun i => _capacity self + i) idx).
End SegmentTreeOps.

(** ** SumSegmentTree *)

Definition SumSegmentTree : Type := SegmentTree Q.

Definition SumSegmentTree_init (capacity : Z) : result SumSegmentTree :=
  SegmentTree_init capacity Qplus 0%Q.

Definition sum (self : SumSegmentTree) (start : Z) (end_ : option Z) : result Q :=
  reduce self start end_.

(** [x > y] on floats *)
Definition Qgt_bool (x y : Q) : bool := negb (Qle_bool x y).

(** The [while np.any(cont)] loop of [find_prefixsum_idx]; the three arrays
    [idx], [prefixsum] and [cont] have one entry per target.  Every
    iteration doubles the indices that still continue, so the loop stops or
    raises before [fuel] runs out. *)
Fixpoint find_prefixsum_loop (fuel : nat) (self : SumSegmentTree)
    (idx : list Z) (prefixsum : list Q) (cont : list bool) : result (list Z) :=
  match fuel with
  | O => Err LoopBound
  | S fuel' =>
      if existsb id cont
      then
        let idx := zip_with (fun i (c : bool) => if c then 2 * i else i) idx cont in
        vals <- take_idx (_value self) idx ;;
        let prefixsum_new :=
          zip_with (fun v p => if Qle_bool v p then (p - v)%Q else p) vals prefixsum in
        let idx :=
          zip_with (fun '(v, p) '(c, i) =>
                      if Qgt_bool v p || negb c then i else i + 1)
            (zip vals prefixsum) (zip cont idx) in
        let prefixsum := prefixsum_new in
        let cont := map (fun i => i <? _capacity self) idx in
        find_prefixsum_loop fuel' self idx prefixsum cont
      else Ok (map (fun i => i - _capacity self) idx)
  end.

(** [prefixsum] is the array of targets (a single float is the one-element
    array); its entries are floats, which is what the third assertion of the
    source checks. *)
Definition find_prefixsum_idx (self : SumSegmentTree) (prefixsum : list Q)
    : result (list Z) :=
  mn <- np_minQ prefixsum ;;
  _ <- assert (Qle_bool 0 mn) prefixsum_min_nonneg ;;
  mx <- np_maxQ prefixsum ;;
  total <- sum self 0 None ;;
  _ <- assert (Qle_bool mx (total + (1 # 100000))%Q) prefixsum_max_le_sum ;;
  let idx := replicate (length prefixsum) 1 in
  let cont := replicate (length prefixsum) true in
  find_prefixsum_loop (length (_value self)) self idx prefixsum cont.

(** ** MinSegmentTree *)

(** Values of the minimum tree: a finite priority or [float("inf")]. *)
Inductive efloat : Type :=
  | Fin (q : Q)
  | Inf.

(** [np.minimum] *)
Definition np_minimum (x y : efloat) : efloat :=
  match x, y with
  | Fin a, Fin b => Fin (Qmin a b)
  | Fin a, Inf => Fin a
  | Inf, _ => y
  end.

Definition MinSegmentTree : Type := SegmentTree efloat.

Definition MinSegmentTree_init (capacity : Z) : result MinSegmentTree :=
  SegmentTree_init capacity np_minimum Inf.

Definition min (self : MinSegmentTree) (start : Z) (end_ : option Z) : result efloat :=
  reduce self start end_.

(** ** ReplayBufferStorage *)

(** One transition; state and action are float vectors. *)
Record transition : Type := mkTransition {
  t_state : list Q;
  t_action : list Q;
  t_reward : Q;
  t_next_state : list Q;
  t_done : Z
}.

(** What is handed to [push]: one transition (1-d state, [num_samples = 1])
    or a batch of rows ([num_samples = len(s)]), each row with its own
    action, reward, next state and done flag. *)
Inductive experience : Type :=
  | One (t : transition)
  | Batch (rows : list transition).

Definition rows_of (e : experience) : list transition :=
  match e with
  | One t => [t]
  | Batch rows => rows
  end.

Record ReplayBufferStorage : Type := mkStorage {
  s_stack : list (list Q);
  action_stack : list (list Q);
  reward_stack : list Q;
  s1_stack : list (list Q);
  done_stack : list Z;
  size : Z;
  _next_idx : Z;
  _max_filled : Z
}.

(** [np.arange(lo, lo + n)] *)
Definition np_arange (lo : Z) (n : nat) : list Z :=
  map (fun k => lo + Z.of_nat k) (seq 0 n).

(** [%] of numpy on integer arrays yields 0 for a zero divisor. *)
Definition np_mod (x m : Z) : Z := if m =? 0 then 0 else x mod m.

(** [%] of Python on ints raises for a zero divisor. *)
Definition py_mod (x m : Z) : result Z :=
  if m =? 0 then Err ZeroDivisionError else Ok (x mod m).

(** [torch.zeros] stacks of [size] rows; a negative size raises. *)
Definition ReplayBufferStorage_init (size : Z) (obs_shape action_shape : nat)
    : result ReplayBufferStorage :=
  if size <? 0 then Err RuntimeError
  else
    let n := Z.to_nat size in
    Ok (mkStorage (replicate n (replicate obs_shape 0%Q))
          (replicate n (replicate action_shape 0%Q))
          (replicate n 0%Q)
          (replicate n (replicate obs_shape 0%Q))
          (replicate n 0)
          size 0 0).

Definition ReplayBufferStorage_len (self : ReplayBufferStorage) : Z :=
  _max_filled self.

(** [add]: row [k] of the batch goes to slot [R[k]]. *)
Definition add (self : ReplayBufferStorage) (e : experience)
    : result (ReplayBufferStorage * list Z) :=
  let rows := rows_of e in
  let num_samples := match e with One _ => 1 | Batch rows => Z.of_nat (length rows) end in
  let R := map (fun i => np_mod i (size self))
             (np_arange (_next_idx self) (Z.to_nat num_samples)) in
  s_stack' <- put_idx (s_stack self) R (map t_state rows) ;;
  action_stack' <- put_idx (action_stack self) R (map t_action rows) ;;
  reward_stack' <- put_idx (reward_stack self) R (map t_reward rows) ;;
  s1_stack' <- put_idx (s1_stack self) R (map t_next_state rows) ;;
  done_stack' <- put_idx (done_stack self) R (map t_done rows) ;;
  let max_filled' :=
    Z.min (Z.max (_next_idx self + num_samples) (_max_filled self)) (size self) in
  next_idx' <- py_mod (_next_idx self + num_samples) (size self) ;;
  Ok (mkStorage s_stack' action_stack' reward_stack' s1_stack' done_stack'
        (size self) next_idx' max_filled', R).

(** [self[indices]]: the five stacks read at [indices]. *)
Definition ReplayBufferStorage_getitem (self : ReplayBufferStorage) (indices : list Z)
    : result (list transition) :=
  state <- take_idx (s_stack self) indices ;;
  action <- take_idx (action_stack self) indices ;;
  reward <- take_idx (reward_stack self) indices ;;
  next_state <- take_idx (s1_stack self) indices ;;
  done <- take_idx (done_stack self) indices ;;
  Ok (zip_with (fun '(s, a, r) '(s1, d) => mkTransition s a r s1 d)
        (zip (zip state action) reward) (zip next_state done)).

Definition ReplayBufferStorage_get_all_transitions (self : ReplayBufferStorage)
    : list transition :=
  let n := Z.to_nat (_max_filled self) in
  zip_with (fun '(s, a, r) '(s1, d) => mkTransition s a r s1 d)
    (zip (zip (take n (s_stack self)) (take n (action_stack self)))
       (take n (reward_stack self)))
    (zip (take n (s1_stack self)) (take n (done_stack self))).

(** ** ReplayBuffer (uniform) *)

Record ReplayBuffer : Type := mkReplayBuffer {
  rb_storage : option ReplayBufferStorage;
  rb_maxsize : Z
}.

Definition ReplayBuffer_init (size : Z) : ReplayBuffer :=
  mkReplayBuffer None size.

(** [len(self._storage)]; [len(None)] is a [TypeError]. *)
Definition storage_len (st : option ReplayBufferStorage) : result Z :=
  match st with
  | None => Err TypeError
  | Some st => Ok (ReplayBufferStorage_len st)
  end.

Definition ReplayBuffer_len (self : ReplayBuffer) : result Z :=
  storage_len (rb_storage self).

(** [if not self._storage]: true for [None] and for a storage of length 0. *)
Definition storage_falsy (st : option ReplayBufferStorage) : bool :=
  match st with
  | None => true
  | Some st => ReplayBufferStorage_len st =? 0
  end.

(** The storage part of [push], shared by both buffers. *)
Definition storage_push (st : option ReplayBufferStorage) (maxsize : Z)
    (e : experience) : result (ReplayBufferStorage * list Z) :=
  let shape (f : transition -> list Q) :=
    match rows_of e with [] => O | t :: _ => length (f t) end in
  st <- match st with
        | Some st' => if storage_falsy st
                      then ReplayBufferStorage_init maxsize (shape t_state) (shape t_action)
                      else Ok st'
        | None => ReplayBufferStorage_init maxsize (shape t_state) (shape t_action)
        end ;;
  add st e.

Definition ReplayBuffer_push (self : ReplayBuffer) (e : experience)
    : result (ReplayBuffer * list Z) :=
  p <- storage_push (rb_storage self) (rb_maxsize self) e ;;
  Ok (mkReplayBuffer (Some (fst p)) (rb_maxsize self), snd p).



(** ** PrioritizedReplayBuffer *)

Record PrioritizedReplayBuffer : Type := mkPRB {
  _storage : option ReplayBufferStorage;
  _maxsize : Z;
  alpha : Q;
  beta : Q;
  _it_sum : SumSegmentTree;
  _it_min : MinSegmentTree;
  _max_priority : Q
}.

(** [while it_capacity < size: it_capacity *= 2]; the loop runs fewer than
    [size] times. *)
Fixpoint grow_capacity (fuel : nat) (it_capacity size : Z) : Z :=
  match fuel with
  | O => it_capacity
  | S fuel' =>
      if it_capacity <? size then grow_capacity fuel' (it_capacity * 2) size
      else it_capacity
  end.

(** Python's [max(a, b)]: [b] only when it is strictly larger. *)
Definition py_max (a b : Q) : Q := if Qgt_bool b a then b else a.

Section Buffer.
(** [x ** y] on floats, idealised. *)
Variable fpow : Q -> Q -> Q.

Definition PrioritizedReplayBuffer_init (size : Z) (alpha beta : Q)
    : result PrioritizedReplayBuffer :=
  _ <- assert (Qle_bool 0 alpha) alpha_nonneg ;;
  let it_capacity := grow_capacity (Z.to_nat size) 1 size in
  it_sum <- SumSegmentTree_init it_capacity ;;
  it_min <- MinSegmentTree_init it_capacity ;;
  Ok (mkPRB None size alpha beta it_sum it_min 1).

Definition PrioritizedReplayBuffer_len (self : PrioritizedReplayBuffer) : result Z :=
  storage_len (_storage self).

(** [push] ends without a [return] statement, so the call evaluates to
    Python's [None]; a returned index array would be [Some R].
    [priorities] is [None] or one float ([not priorities] holds for [None]
    and for [0.0]). *)
Definition PrioritizedReplayBuffer_push (self : PrioritizedReplayBuffer)
    (e : experience) (priorities : option Q)
    : result (PrioritizedReplayBuffer * option (list Z)) :=
  p <- storage_push (_storage self) (_maxsize self) e ;;
  let R := snd p in
  let priorities :=
    match priorities with
    | None => _max_priority self
    | Some x => if Qeq_bool x 0 then _max_priority self else x
    end in
  it_sum <- SegmentTree_setitem (_it_sum self) R (Scalar (fpow priorities (alpha self))) ;;
  it_min <- SegmentTree_setitem (_it_min self) R
              (Scalar (Fin (fpow priorities (alpha self)))) ;;
  Ok (mkPRB (Some (fst p)) (_maxsize self) (alpha self) (beta self)
        it_sum it_min (_max_priority self), None).

(** [random] is what [np.random.random(size=batch_size)] drew. *)
Definition _sample_proportional (self : PrioritizedReplayBuffer) (random : list Q)
    : result (list Z) :=
  n <- storage_len (_storage self) ;;
  total <- sum (_it_sum self) 0 (Some (n - 1)) ;;
  let mass := map (fun u => (u * total)%Q) random in
  find_prefixsum_idx (_it_sum self) mass.




Definition update_priorities (self : PrioritizedReplayBuffer)
    (idxes : list Z) (priorities : list Q) : result PrioritizedReplayBuffer :=
  _ <- assert (Nat.eqb (length idxes) (length priorities)) len_idxes_eq_len_priorities ;;
  mn <- np_minQ priorities ;;
  _ <- assert (Qgt_bool mn 0) priorities_positive ;;
  mn <- np_min idxes ;;
  _ <- assert (0 <=? mn) idxes_nonneg ;;
  mx <- np_max idxes ;;
  n <- storage_len (_storage self) ;;
  _ <- assert (mx <? n) idxes_lt_len ;;
  let vals := map (fun p => fpow p (alpha self)) priorities in
  it_sum <- SegmentTree_setitem (_it_sum self) idxes (Array vals) ;;
  it_min <- SegmentTree_setitem (_it_min self) idxes (Array (map Fin vals)) ;;
  mx <- np_maxQ priorities ;;
  Ok (mkPRB (_storage self) (_maxsize self) (alpha self) (beta self)
        it_sum it_min (py_max (_max_priority self) mx)).

(** The mutating operations a training loop issues. *)
Inductive operation : Type :=
  | Push (e : experience) (priorities : option Q)
  | UpdatePriorities (idxes : list Z) (priorities : list Q).

Definition apply_operation (self : PrioritizedReplayBuffer) (o : operation)
    : result PrioritizedReplayBuffer :=
  match o with
  | Push e priorities =>
      p <- PrioritizedReplayBuffer_push self e priorities ;; Ok (fst p)
  | UpdatePriorities idxes priorities => update_priorities self idxes priorities
  end.

(** A sequence of operations, each on the buffer left by the previous one. *)
Fixpoint run (self : PrioritizedReplayBuffer) (ops : list operation)
    : result PrioritizedReplayBuffer :=
  match ops with
  | [] => Ok self
  | o :: ops' => self' <- apply_operation self o ;; run self' ops'
  end.
End Buffer.

(** A sequence of pushes on the uniform buffer, with the indices returned by
    each push. *)
Fixpoint push_all (self : ReplayBuffer) (es : list experience)
    : result (ReplayBuffer * list (list Z)) :=
  match es with
  | [] => Ok (self, [])
  | e :: es' =>
      p <- ReplayBuffer_push self e ;;
      q <- push_all (fst p) es' ;;
      Ok (fst q, snd p :: snd q)
  end.

(** The power function at integer exponents, where [x ** y] is rational;
    used to run the model on examples. *)
Definition pow_int (x y : Q) : Q := Qpower x (Qfloor y).

(** * Vocabulary of the statements *)

#[global] Instance Q_inhabited : Inhabited Q := populate 0%Q.
#[global] Instance efloat_inhabited : Inhabited efloat := populate Inf.

(** ** Arrays and trees *)

(** [i] is a valid non-negative index of [a]. *)
Definition in_range {A} (a : list A) (i : Z) : Prop := 0 <= i < Z.of_nat (length a).

(** The value that [a[idxs] = vals] leaves at position [j], if any. *)
Fixpoint last_write {A} (idxs : list Z) (vals : list A) (j : nat) : option A :=
  match idxs, vals with
  | i :: idxs', x :: vals' =>
      match last_write idxs' vals' j with
      | Some y => Some y
      | None => if decide (Z.to_nat i = j) then Some x else None
      end
  | _, _ => None
  end.

(** [value[n]] for a position inside the array *)
Definition nodeval {A} `{Inhabited A} (v : list A) (n : Z) : A := v !!! Z.to_nat n.

(** [value[n] == operation(value[2n], value[2n+1])] *)
Definition node_ok {A} `{Inhabited A} (op : A -> A -> A) (v : list A) (n : Z) : Prop :=
  nodeval v n = op (nodeval v (2 * n)) (nodeval v (2 * n + 1)).

(** The parent of node [i]. *)
Definition half (i : Z) : Z := i / 2.

(** No element of [l] has [n] among its ancestors (itself included). *)
Definition clean (l : list Z) (n : Z) : Prop :=
  forall i d, i ∈ l -> Nat.iter d half i <> n.

(** The shape fixed by [__init__]: a power-of-two capacity and an array of
    twice that length. *)
Definition tree_wf {A} (t : SegmentTree A) : Prop :=
  exists h : nat, _capacity t = 2 ^ Z.of_nat h /\
                  Z.of_nat (length (_value t)) = 2 * _capacity t.

(** Every internal node is the combination of its two children. *)
Definition tree_inv {A} `{Inhabited A} (t : SegmentTree A) : Prop :=
  forall n, 1 <= n < _capacity t -> node_ok (_operation t) (_value t) n.

(** The leaf with logical index [i]. *)
Definition leaf {A} `{Inhabited A} (t : SegmentTree A) (i : Z) : A :=
  nodeval (_value t) (_capacity t + i).

(** The leaves [value[capacity:]] of a tree, in index order. *)
Definition leaves {A} (t : SegmentTree A) : list A :=
  drop (Z.to_nat (_capacity t)) (_value t).

(** The leaf values [update_priorities] leaves in the two trees. *)
Definition updated_leaf {A} `{Inhabited A} (t : SegmentTree A) (idxes : list Z)
    (vals : list A) (j : Z) : A :=
  default (leaf t j)
    (last_write (map (fun i => i + _capacity t) idxes) vals (Z.to_nat (_capacity t + j))).

(** ** Sums and minima *)

(** The sum of a list of floats, from the left end. *)
Definition Qsum (l : list Q) : Q := foldr Qplus 0%Q l.

(** The cumulative sum of the leaves [[0, i)]. *)
Definition cumsum (t : SumSegmentTree) (i : Z) : Q :=
  Qsum (take (Z.to_nat i) (leaves t)).

(** The descent of one target: [j] levels down from node [i] with remaining
    target [p]; left when the left child's value exceeds the remaining
    target, otherwise right with that value subtracted. *)
Fixpoint descend (j : nat) (v : list Q) (i : Z) (p : Q) : Z * Q :=
  match j with
  | O => (i, p)
  | S j' =>
      let l := nodeval v (2 * i) in
      if Qle_bool l p then descend j' v (2 * i + 1) (p - l)%Q
      else descend j' v (2 * i) p
  end.

(** The leaf found for one target: the end of its descent from the root. *)
Definition found_leaf (t : SumSegmentTree) (h : nat) (p : Q) : Z :=
  fst (descend h (_value t) 1 p) - _capacity t.

(** The order on minimum-tree values, with [Inf] on top. *)
Definition efle (x y : efloat) : Prop :=
  match x, y with
  | Fin a, Fin b => (a <= b)%Q
  | _, Inf => True
  | Inf, Fin _ => False
  end.

(** ** The store and the buffers *)

(** What holds of every storage built by [__init__] and changed by [add]. *)
Record storage_inv (st : ReplayBufferStorage) : Prop := mkStorageInv {
  si_size : 0 < size st;
  si_next : 0 <= _next_idx st < size st;
  si_filled : 0 <= _max_filled st <= size st;
  si_filling : _max_filled st < size st -> _next_idx st = _max_filled st;
  si_len_s : Z.of_nat (length (s_stack st)) = size st;
  si_len_a : Z.of_nat (length (action_stack st)) = size st;
  si_len_r : Z.of_nat (length (reward_stack st)) = size st;
  si_len_s1 : Z.of_nat (length (s1_stack st)) = size st;
  si_len_d : Z.of_nat (length (done_stack st)) = size st
}.

(** The slots [[w, w+1, ..., w+N-1] mod capacity]. *)
Definition slots (w : Z) (N : nat) (capacity : Z) : list Z :=
  map (fun k => (w + Z.of_nat k) mod capacity) (seq 0 N).

(** Number of transitions in what is pushed. *)
Definition pushed (e : experience) : nat := length (rows_of e).

(** The optional storage of a buffer built with capacity [maxsize]. *)
Definition opt_storage_inv (st : option ReplayBufferStorage) (maxsize : Z) : Prop :=
  match st with
  | None => True
  | Some st => storage_inv st /\ size st = maxsize
  end.

(** Write cursor and number of filled slots; both are 0 before the storage
    exists. *)
Definition cursor (st : option ReplayBufferStorage) : Z :=
  match st with None => 0 | Some st => _next_idx st end.

(** [filled_count], the value [len()] reports once the storage exists. *)
Definition filled_count (st : option ReplayBufferStorage) : Z :=
  match st with None => 0 | Some st => _max_filled st end.


(** What holds of every prioritized buffer built by [__init__] and changed
    by [push] and [update_priorities]. *)
Record prb_inv (b : PrioritizedReplayBuffer) : Prop := mkPrbInv {
  pi_size : 0 < _maxsize b;
  pi_storage : opt_storage_inv (_storage b) (_maxsize b);
  pi_nonempty : forall st, _storage b = Some st -> 1 <= _max_filled st;
  pi_sum_wf : tree_wf (_it_sum b);
  pi_min_wf : tree_wf (_it_min b);
  pi_cap : _capacity (_it_min b) = _capacity (_it_sum b);
  pi_size_cap : _maxsize b <= _capacity (_it_sum b);
  pi_sum_op : _operation (_it_sum b) = Qplus;
  pi_min_op : _operation (_it_min b) = np_minimum;
  pi_sum_inv : tree_inv (_it_sum b);
  pi_min_inv : tree_inv (_it_min b)
}.

(** The priority [push] uses: the explicit one, or [max_priority] when it
    is omitted or falsy. *)
Definition push_priority (b : PrioritizedReplayBuffer) (priorities : option Q) : Q :=
  match priorities with
  | None => _max_priority b
  | Some x => if Qeq_bool x 0 then _max_priority b else x
  end.

(** The buffers a program can hold: built by [__init__] with a positive
    size and changed by operations that all returned normally. *)
Definition reachable (fpow : Q -> Q -> Q) (b : PrioritizedReplayBuffer) : Prop :=
  exists (n : Z) (a be : Q) (ops : list operation) (b0 : PrioritizedReplayBuffer),
    0 < n /\ PrioritizedReplayBuffer_init n a be = Ok b0 /\ run fpow b0 ops = Ok b.

(** The priorities handed to [update_priorities] in a sequence of operations. *)
Definition supplied_priorities (ops : list operation) : list Q :=
  flat_map (fun o => match o with
                     | UpdatePriorities _ ps => ps
                     | Push _ _ => []
                     end) ops.

(** Every leaf is either untouched (0 in the sum tree, [inf] in the min
    tree) or holds the same positive priority in both trees. *)
Definition leaf_sync (b : PrioritizedReplayBuffer) : Prop :=
  forall i, 0 <= i < _capacity (_it_sum b) ->
    (leaf (_it_sum b) i = 0%Q /\ leaf (_it_min b) i = Inf) \/
    ((0 < leaf (_it_sum b) i)%Q /\ leaf (_it_min b) i = Fin (leaf (_it_sum b) i)).

(** Every filled slot has a positive priority in the sum tree. *)
Definition filled_positive (b : PrioritizedReplayBuffer) : Prop :=
  forall st, _storage b = Some st ->
    forall j, 0 <= j < _max_filled st -> (0 < leaf (_it_sum b) j)%Q.

(** Explicit priorities handed to [push] are not negative. *)
Definition push_priorities_nonneg (ops : list operation) : Prop :=
  Forall (fun o => match o with
                   | Push _ (Some p) => (0 <= p)%Q
                   | _ => True
                   end) ops.

(** ** Ranges, rows and slots *)

(** [m] is the minimum of the leaves [[a, b]] of [t]. *)
Definition min_of_leaves (t : MinSegmentTree) (a b : Z) (m : efloat) : Prop :=
  (forall i, a <= i <= b -> efle m (leaf t i)) /\
  (exists i, a <= i <= b /\ m = leaf t i).

(** The record held at slot [i] of a storage. *)
Definition stored (st : ReplayBufferStorage) (i : nat) : transition :=
  mkTransition (s_stack st !!! i) (action_stack st !!! i) (reward_stack st !!! i)
    (s1_stack st !!! i) (done_stack st !!! i).

(** The rows handed to a sequence of pushes, oldest first. *)
Definition pushed_rows (es : list experience) : list transition :=
  concat (map rows_of es).

(** The storage after the rows [H] were added, oldest first: the [k]-th row
    sits at slot [k mod size] until [size] further rows have come. *)
Record holds (st : ReplayBufferStorage) (H : list transition) : Prop := mkHolds {
  ho_next : _next_idx st = Z.of_nat (length H) mod size st;
  ho_filled : _max_filled st = Z.min (Z.of_nat (length H)) (size st);
  ho_rows : forall (k : nat) (t : transition),
      H !! k = Some t -> (length H <= k + Z.to_nat (size st))%nat ->
      stored st (Z.to_nat (Z.of_nat k mod size st)) = t
}.

Definition opt_holds (st : option ReplayBufferStorage) (H : list transition) : Prop :=
  match st with
  | Some st => holds st H
  | None => H = []
  end.

(** The rows pushed by a sequence of operations, oldest first. *)
Definition pushed_by (ops : list operation) : list transition :=
  concat (map (fun o => match o with
                        | Push e _ => rows_of e
                        | UpdatePriorities _ _ => []
                        end) ops).



(** ** Example data *)


(** A transition with a two-dimensional state and a one-dimensional action. *)
Definition example_transition : transition :=
  mkTransition [1; 2]%Q [1 # 2]%Q 1%Q [2; 3]%Q 0.

(** The explicit tree with leaves [1, 2, 3, 4]. *)
Definition example_tree : SumSegmentTree :=
  mkSegmentTree 4 [0; 10; 3; 7; 1; 2; 3; 4]%Q Qplus 0%Q.

(** A single push, a batch push that wraps around a buffer of size 3, and
    an update at unsorted indices. *)
Definition example_operations : list operation :=
  [Push (One example_transition) None;
   Push (Batch [example_transition; example_transition; example_transition]) (Some 2%Q);
   UpdatePriorities [2; 0] [3; 1 # 2]%Q].

(** The min tree with leaves [1, 2, 3, 4]. *)
Definition example_min_tree : MinSegmentTree :=
  mkSegmentTree 4 [Inf; Fin 1; Fin 1; Fin 3; Fin 1; Fin 2; Fin 3; Fin 4] np_minimum Inf.

(** A second transition, to tell rows apart. *)
Definition other_transition : transition :=
  mkTransition [3; 4]%Q [1]%Q 0%Q [4; 5]%Q 1.

(** * Verification *)

(** ** Facts about the array operations *)

Lemma bind_Ok {A B} (m : result A) (k : A -> result B) (b : B) :
  bind m k = Ok b -> exists a, m = Ok a /\ k a = Ok b.
Proof. destruct m as [a|e]; simpl; [eauto | discriminate]. Qed.

Lemma assert_Ok (c : bool) (a : assertion) (u : unit) :
  assert c a = Ok u -> c = true.
Proof. destruct c; simpl; [reflexivity | discriminate]. Qed.

(** Inversion of a successful chain of binds in hypothesis [H]. *)
Ltac inv_bind H :=
  repeat match type of H with
    | bind ?m ?k = Ok ?b =>
        let x := fresh "x" in
        let Hx := fresh "Hx" in
        apply bind_Ok in H; destruct H as (x & Hx & H)
    end.

Section ArrayFacts.
Context {A : Type} `{Inhabited A}.
Implicit Types (a : list A) (idxs : list Z) (vals : list A).

Lemma np_index_nonneg (n : nat) (i : Z) :
  0 <= i < Z.of_nat n -> np_index n i = Some (Z.to_nat i).
Proof.
  intros Hi. unfold np_index.
  destruct (Z.leb_spec 0 i); [|lia].
  destruct (Z.ltb_spec i (Z.of_nat n)); [reflexivity | lia].
Qed.

Lemma getitem_ok a i : in_range a i -> getitem a i = Ok (a !!! Z.to_nat i).
Proof.
  intros Hi. unfold getitem. rewrite np_index_nonneg by exact Hi.
  rewrite list_lookup_lookup_total_lt; [reflexivity | unfold in_range in Hi; lia].
Qed.

Lemma take_idx_ok a idxs :
  Forall (in_range a) idxs ->
  take_idx a idxs = Ok (map (fun i => a !!! Z.to_nat i) idxs).
Proof.
  induction 1 as [|i idxs Hi _ IH]; simpl; [reflexivity|].
  rewrite getitem_ok by exact Hi. simpl. rewrite IH. reflexivity.
Qed.

Lemma setitem_ok a i x : in_range a i -> setitem a i x = Ok (<[Z.to_nat i := x]> a).
Proof. intros Hi. unfold setitem. rewrite np_index_nonneg by exact Hi. reflexivity. Qed.

Lemma put_idx_ok idxs : forall a vals,
  length idxs = length vals ->
  Forall (in_range a) idxs ->
  exists a', put_idx a idxs vals = Ok a' /\ length a' = length a /\
    forall j, (j < length a)%nat ->
      a' !!! j = default (a !!! j) (last_write idxs vals j).
Proof.
  induction idxs as [|i idxs IH]; intros a [|x vals] Hlen Hall; simpl in Hlen; try discriminate.
  - exists a. simpl. auto.
  - inversion Hall as [|? ? Hi Hall']; subst.
    simpl. rewrite setitem_ok by exact Hi. simpl.
    destruct (IH (<[Z.to_nat i := x]> a) vals) as (a' & Hput & Hl & Hlook).
    + lia.
    + eapply Forall_impl; [exact Hall'|]. unfold in_range. intros k Hk.
      rewrite length_insert. exact Hk.
    + exists a'. split; [exact Hput|]. rewrite length_insert in Hl.
      split; [exact Hl|]. intros j Hj. rewrite Hlook by (rewrite length_insert; exact Hj).
      destruct (last_write idxs vals j) as [y|]; simpl; [reflexivity|].
      destruct (decide (Z.to_nat i = j)) as [->|Hne]; simpl.
      * apply list_lookup_total_insert_eq. exact Hj.
      * apply list_lookup_total_insert_ne. exact Hne.
Qed.

Lemma last_write_None idxs vals j :
  (forall i, i ∈ idxs -> Z.to_nat i <> j) -> last_write idxs vals j = None.
Proof.
  revert vals. induction idxs as [|i idxs IH]; intros [|x vals] Hj; simpl; try reflexivity.
  rewrite IH by (intros k Hk; apply Hj; right; exact Hk).
  destruct (decide (Z.to_nat i = j)) as [Heq|]; [|reflexivity].
  exfalso. apply (Hj i); [left | exact Heq].
Qed.

Lemma last_write_is_Some idxs : forall vals j,
  length idxs = length vals ->
  (exists i, i ∈ idxs /\ Z.to_nat i = j) ->
  is_Some (last_write idxs vals j).
Proof.
  induction idxs as [|i idxs IH]; intros [|x vals] j Hlen (k & Hk & Hkj);
    simpl in Hlen; try discriminate.
  - inversion Hk.
  - simpl. destruct (last_write idxs vals j) as [y|] eqn:E; [eauto|].
    destruct (decide (Z.to_nat i = j)) as [|Hne]; [eauto|].
    apply elem_of_cons in Hk as [->|Hk]; [contradiction|].
    destruct (IH vals j) as [y Hy]; [lia | eauto | congruence].
Qed.

(** When the written value is a function of the position, every written
    position holds that value, whatever the order and the repetitions. *)
Lemma last_write_map_Some (f : Z -> A) idxs j y :
  Forall (fun i => 0 <= i) idxs ->
  last_write idxs (map f idxs) j = Some y -> y = f (Z.of_nat j).
Proof.
  induction 1 as [|i idxs Hi _ IH]; simpl; [discriminate|].
  destruct (last_write idxs (map f idxs) j) as [z|].
  - intros [= <-]. apply IH. reflexivity.
  - destruct (decide (Z.to_nat i = j)) as [<-|]; [|discriminate].
    intros [= <-]. rewrite Z2Nat.id by exact Hi. reflexivity.
Qed.

Lemma last_write_map (f : Z -> A) idxs j :
  Forall (fun i => 0 <= i) idxs ->
  (exists i, i ∈ idxs /\ Z.to_nat i = j) ->
  last_write idxs (map f idxs) j = Some (f (Z.of_nat j)).
Proof.
  intros Hpos Hex.
  destruct (last_write_is_Some idxs (map f idxs) j) as [y Hy];
    [rewrite length_map; reflexivity | exact Hex |].
  rewrite Hy. f_equal. eapply last_write_map_Some; eassumption.
Qed.
End ArrayFacts.

Lemma put_idx_map {A} `{Inhabited A} (f : Z -> A) (a : list A) (idxs : list Z) :
  Forall (in_range a) idxs ->
  exists a', put_idx a idxs (map f idxs) = Ok a' /\ length a' = length a /\
    (forall i, i ∈ idxs -> a' !!! Z.to_nat i = f i) /\
    (forall n, in_range a n -> n ∉ idxs -> a' !!! Z.to_nat n = a !!! Z.to_nat n).
Proof.
  intros Hall.
  assert (Hpos : Forall (fun i => 0 <= i) idxs).
  { eapply Forall_impl; [exact Hall|]. unfold in_range. intros; lia. }
  destruct (put_idx_ok idxs a (map f idxs)) as (a' & Hput & Hlen & Hlook);
    [rewrite length_map; reflexivity | exact Hall |].
  exists a'. repeat split; [exact Hput | exact Hlen | |].
  - intros i Hi. rewrite Forall_forall in Hall. pose proof (Hall i Hi) as Hr.
    unfold in_range in Hr. rewrite Hlook by lia.
    rewrite last_write_map; [| exact Hpos | eauto].
    simpl. rewrite Z2Nat.id by lia. reflexivity.
  - intros n Hn Hnot. unfold in_range in Hn. rewrite Hlook by lia.
    rewrite last_write_None; [reflexivity|].
    intros i Hi Heq. rewrite Forall_forall in Hpos. pose proof (Hpos i Hi).
    apply Hnot. replace n with i by lia. exact Hi.
Qed.

Lemma zip_with_map_map {A B C D} (f : B -> C -> D) (g : A -> B) (h : A -> C) (l : list A) :
  zip_with f (map g l) (map h l) = map (fun x => f (g x) (h x)) l.
Proof. induction l as [|x l IH]; simpl; [reflexivity | rewrite IH; reflexivity]. Qed.

(** ** Facts about [unique] *)

Lemma keep_run_ends_elem (l : list Z) (x : Z) : x ∈ keep_run_ends l <-> x ∈ l.
Proof.
  induction l as [|a [|b l] IH]; [reflexivity | reflexivity |].
  change (keep_run_ends (a :: b :: l))
    with (if a =? b then keep_run_ends (b :: l) else a :: keep_run_ends (b :: l)).
  destruct (Z.eqb_spec a b) as [->|Hne].
  - rewrite IH. rewrite !elem_of_cons. tauto.
  - rewrite elem_of_cons, IH, !elem_of_cons. tauto.
Qed.

Lemma keep_run_ends_nonempty (l : list Z) : l <> [] -> keep_run_ends l <> [].
Proof.
  destruct l as [|a l]; [congruence|]. intros _ Hnil.
  assert (Hin : a ∈ keep_run_ends (a :: l)) by (apply keep_run_ends_elem; left).
  rewrite Hnil in Hin. inversion Hin.
Qed.

Lemma unique_ok (l : list Z) : l <> [] -> unique l = Ok (keep_run_ends l).
Proof. destruct l as [|a [|b l]]; [congruence | reflexivity | reflexivity]. Qed.

Lemma keep_run_ends_const (x : Z) (l : list Z) :
  l <> [] -> Forall (fun i => i = x) l -> keep_run_ends l = [x].
Proof.
  induction l as [|a [|b l] IH]; intros Hne Hall; [congruence | |].
  - apply Forall_cons in Hall as [Ha _]. rewrite Ha. reflexivity.
  - apply Forall_cons in Hall as [Ha Hall'].
    pose proof Hall' as Hall''. apply Forall_cons in Hall'' as [Hb _].
    change (keep_run_ends (a :: b :: l))
      with (if a =? b then keep_run_ends (b :: l) else a :: keep_run_ends (b :: l)).
    replace (a =? b) with true by (symmetry; apply Z.eqb_eq; congruence).
    apply IH; [congruence | exact Hall'].
Qed.

Lemma keep_run_ends_Forall (P : Z -> Prop) (l : list Z) :
  Forall P l -> Forall P (keep_run_ends l).
Proof.
  rewrite !Forall_forall. intros Hall x Hx. apply Hall, keep_run_ends_elem, Hx.
Qed.

(** ** The upward pass of [__setitem__] *)

Section Propagate.
Context {A : Type} `{Inhabited A}.
Variable op : A -> A -> A.
Implicit Types (v : list A) (l idxs : list Z).

Lemma iter_half_bounds (d : nat) (i : Z) : 0 <= i -> 0 <= Nat.iter d half i <= i.
Proof.
  intros Hi. induction d as [|d IH]; [simpl; lia|].
  change (Nat.iter (S d) half i) with (half (Nat.iter d half i)).
  set (x := Nat.iter d half i) in *. unfold half.
  pose proof (Z.div_pos x 2). pose proof (Z.div_le_upper_bound x 2 x). lia.
Qed.

Lemma iter_half_succ (d : nat) (i : Z) : Nat.iter (S d) half i = Nat.iter d half (half i).
Proof. apply Nat.iter_succ_r. Qed.

(** One iteration of the loop on the nodes [l] of one level [[b, 2b)]. *)
Lemma propagate_step (cap b : Z) v l fuel :
  l <> [] ->
  1 <= b -> 2 * b <= cap ->
  Z.of_nat (length v) = 2 * cap ->
  Forall (fun i => b <= i < 2 * b) l ->
  exists v',
    propagate (S fuel) op v (keep_run_ends l)
      = propagate fuel op v' (keep_run_ends (map half (keep_run_ends l))) /\
    length v' = length v /\
    ((forall n, 2 * b <= n < cap -> node_ok op v n) ->
     (forall n, 1 <= n < 2 * b -> clean l n -> node_ok op v n) ->
     forall n, b <= n < cap -> node_ok op v' n) /\
    ((forall n, 1 <= n < 2 * b -> clean l n -> node_ok op v n) ->
     forall n, 1 <= n < b -> clean (map half (keep_run_ends l)) n -> node_ok op v' n) /\
    (forall p, 2 * b <= p < 2 * cap -> nodeval v' p = nodeval v p).
Proof.
  intros Hne Hb Hcap Hlen Hall.
  set (idxs := keep_run_ends l).
  assert (Hidxs : Forall (fun i => b <= i < 2 * b) idxs)
    by (apply keep_run_ends_Forall; exact Hall).
  assert (Hne' : idxs <> []) by (apply keep_run_ends_nonempty; exact Hne).
  set (f := fun i => op (nodeval v (2 * i)) (nodeval v (2 * i + 1))).
  destruct (put_idx_map f v idxs) as (v' & Hput & Hlen' & Hin & Hout).
  { eapply Forall_impl; [exact Hidxs|]. unfold in_range. intros; simpl in *; lia. }
  exists v'.
  assert (Hsame : forall p, 0 <= p < 2 * cap -> ~ (b <= p < 2 * b) ->
                            nodeval v' p = nodeval v p).
  { intros p Hp Hnot. apply Hout; [unfold in_range; lia|].
    intros Hp'. rewrite Forall_forall in Hidxs. apply Hnot, Hidxs, Hp'. }
  split; [|split; [exact Hlen'|split; [|split]]].
  - simpl.
    assert (Hcont : (if 1 <? Z.of_nat (length idxs) then Ok true
                     else i0 <- getitem idxs 0 ;; Ok (0 <? i0)) = Ok true).
    { destruct (1 <? Z.of_nat (length idxs)); [reflexivity|].
      destruct idxs as [|i0 idxs'] eqn:E; [congruence|].
      inversion Hidxs; subst. unfold getitem. simpl.
      destruct (Z.ltb_spec 0 i0); [reflexivity | lia]. }
    fold idxs. rewrite Hcont. simpl.
    rewrite take_idx_ok.
    2:{ apply Forall_map. eapply Forall_impl; [exact Hidxs|].
        unfold in_range. intros; simpl in *; lia. }
    simpl. rewrite take_idx_ok.
    2:{ apply Forall_map. eapply Forall_impl; [exact Hidxs|].
        unfold in_range. intros; simpl in *; lia. }
    simpl. rewrite !map_map, zip_with_map_map.
    change (map _ idxs) with (map f idxs) at 1. rewrite Hput. simpl.
    rewrite unique_ok; [reflexivity|].
    destruct idxs; [congruence | discriminate].
  - intros HI1 HI2 n Hn. unfold node_ok.
    rewrite (Hsame (2 * n)), (Hsame (2 * n + 1)) by lia.
    destruct (decide (n ∈ idxs)) as [Hmem|Hmem].
    + unfold nodeval at 1. rewrite Hin by exact Hmem. reflexivity.
    + assert (Hv : nodeval v' n = nodeval v n)
        by (apply Hout; [unfold in_range; lia | exact Hmem]).
      rewrite Hv. destruct (Z_lt_dec n (2 * b)) as [Hlt|Hge].
      * apply HI2; [lia|]. intros i d Hi Heq.
        rewrite Forall_forall in Hall. pose proof (Hall i Hi) as Hbi.
        destruct d as [|d].
        -- simpl in Heq. subst i. apply Hmem, keep_run_ends_elem, Hi.
        -- rewrite iter_half_succ in Heq.
           pose proof (iter_half_bounds d (half i)) as Hb'.
           assert (0 <= half i < b); [|lia].
           unfold half. split; [apply Z.div_pos; lia|].
           apply Z.div_lt_upper_bound; lia.
      * apply HI1. lia.
  - intros HI2 n Hn Hclean. unfold node_ok.
    rewrite (Hsame n) by lia.
    assert (Hold : node_ok op v n).
    { apply HI2; [lia|]. intros i d Hi Heq.
      rewrite Forall_forall in Hall. pose proof (Hall i Hi) as Hbi.
      destruct d as [|d]; [simpl in Heq; lia|].
      rewrite iter_half_succ in Heq. apply (Hclean (half i) d); [|exact Heq].
      apply list_elem_of_fmap. exists i. split; [reflexivity|].
      apply keep_run_ends_elem, Hi. }
    assert (Hchild : forall c, c = 2 * n \/ c = 2 * n + 1 -> nodeval v' c = nodeval v c).
    { intros c Hc. apply Hout; [unfold in_range; lia|].
      intros Hmem. apply (Hclean (half c) 0%nat).
      - apply list_elem_of_fmap. exists c. split; [reflexivity | exact Hmem].
      - simpl. unfold half. Z.to_euclidean_division_equations. lia. }
    rewrite (Hchild (2 * n)), (Hchild (2 * n + 1)) by auto. exact Hold.
  - intros p Hp. apply Hsame; lia.
Qed.

Lemma propagate_root v fuel : propagate (S fuel) op v [0] = Ok v.
Proof. reflexivity. Qed.

(** The whole loop, started on nodes [l] of level [k]: it stops, leaves
    the deeper levels alone and re-establishes the node equations. *)
Lemma propagate_ok (k : nat) : forall (cap : Z) v l fuel,
  (k + 2 <= fuel)%nat ->
  l <> [] ->
  2 * 2 ^ Z.of_nat k <= cap ->
  Z.of_nat (length v) = 2 * cap ->
  Forall (fun i => 2 ^ Z.of_nat k <= i < 2 * 2 ^ Z.of_nat k) l ->
  exists v',
    propagate fuel op v (keep_run_ends l) = Ok v' /\
    length v' = length v /\
    ((forall n, 2 * 2 ^ Z.of_nat k <= n < cap -> node_ok op v n) ->
     (forall n, 1 <= n < 2 * 2 ^ Z.of_nat k -> clean l n -> node_ok op v n) ->
     forall n, 1 <= n < cap -> node_ok op v' n) /\
    (forall p, cap <= p < 2 * cap -> nodeval v' p = nodeval v p).
Proof.
  induction k as [|k IH]; intros cap v l fuel Hfuel Hne Hcap Hlen Hall.
  - destruct fuel as [|[|fuel]]; try lia.
    change (2 ^ Z.of_nat 0) with 1 in *.
    destruct (propagate_step cap 1 v l (S fuel)) as (v' & Hstep & Hlen' & H1 & _ & Hleaf);
      try assumption; try lia.
    exists v'. rewrite Hstep.
    rewrite (keep_run_ends_const 0).
    + split; [apply propagate_root|]. split; [exact Hlen'|]. split.
      * intros HI1 HI2. apply H1; assumption.
      * intros p Hp. apply Hleaf. lia.
    + intros Hnil. apply fmap_nil_inv in Hnil.
      revert Hnil. apply keep_run_ends_nonempty, Hne.
    + apply Forall_map. apply keep_run_ends_Forall.
      eapply Forall_impl; [exact Hall|]. intros i Hi. simpl in Hi |- *.
      unfold half. Z.to_euclidean_division_equations. lia.
  - destruct fuel as [|fuel]; try lia.
    assert (Hpow : 2 ^ Z.of_nat (S k) = 2 * 2 ^ Z.of_nat k)
      by (rewrite Nat2Z.inj_succ, Z.pow_succ_r by lia; reflexivity).
    assert (Hpos : 0 < 2 ^ Z.of_nat k) by (apply Z.pow_pos_nonneg; lia).
    rewrite Hpow in *.
    destruct (propagate_step cap (2 * 2 ^ Z.of_nat k) v l fuel)
      as (v1 & Hstep & Hlen1 & H1 & H2 & Hleaf1); try assumption; try lia.
    destruct (IH cap v1 (map half (keep_run_ends l)) fuel)
      as (v' & Hrun & Hlen' & Hinv & Hleaf'); try lia.
    + intros Hnil. apply fmap_nil_inv in Hnil.
      revert Hnil. apply keep_run_ends_nonempty, Hne.
    + apply Forall_map. apply keep_run_ends_Forall.
      eapply Forall_impl; [exact Hall|]. intros i Hi. simpl in Hi |- *.
      unfold half. Z.to_euclidean_division_equations. lia.
    + exists v'. rewrite Hstep. split; [exact Hrun|]. split; [lia|]. split.
      * intros HI1 HI2. apply Hinv.
        -- intros n Hn. apply H1; assumption || lia.
        -- intros n Hn. apply H2; assumption || lia.
      * intros p Hp. rewrite Hleaf' by lia. apply Hleaf1. lia.
Qed.
End Propagate.

(** ** [SegmentTree.__setitem__] *)

Lemma broadcast_length {A} (n : nat) (r : rhs A) (vals : list A) :
  broadcast n r = Ok vals -> length vals = n.
Proof.
  destruct r as [v|vs]; simpl.
  - intros [= <-]. apply length_replicate.
  - destruct vs as [|v [|w vs]].
    + destruct (Nat.eqb_spec (length (@nil A)) n); [congruence | discriminate].
    + intros [= <-]. apply length_replicate.
    + destruct (Nat.eqb_spec (length (v :: w :: vs)) n); [congruence | discriminate].
Qed.

Lemma pow2_gt_lin (h : nat) : Z.of_nat h < 2 ^ Z.of_nat h.
Proof. apply Z.pow_gt_lin_r; lia. Qed.

Section TreeFacts.
Context {A : Type} `{Inhabited A}.
Implicit Types t : SegmentTree A.

Lemma SegmentTree_setitem_ok t (idx : list Z) (val : rhs A) (vals : list A) :
  tree_wf t ->
  idx <> [] ->
  Forall (fun i => 0 <= i < _capacity t) idx ->
  broadcast (length idx) val = Ok vals ->
  exists t',
    SegmentTree_setitem t idx val = Ok t' /\
    _capacity t' = _capacity t /\
    _operation t' = _operation t /\
    neutral_element t' = neutral_element t /\
    tree_wf t' /\
    (tree_inv t -> tree_inv t') /\
    forall j, 0 <= j < _capacity t ->
      leaf t' j = default (leaf t j)
                    (last_write (map (fun i => i + _capacity t) idx) vals
                       (Z.to_nat (_capacity t + j))).
Proof.
  intros (h & Hcap & Hlen) Hne Hall Hbc.
  pose proof (broadcast_length _ _ _ Hbc) as Hvl.
  set (cap := _capacity t) in *.
  set (idxs := map (fun i => i + cap) idx).
  assert (Hidxs : Forall (fun i => cap <= i < 2 * cap) idxs).
  { apply Forall_map. eapply Forall_impl; [exact Hall|]. intros; simpl in *; lia. }
  assert (Hposcap : 0 < cap) by (rewrite Hcap; apply Z.pow_pos_nonneg; lia).
  destruct (put_idx_ok idxs (_value t) vals) as (v1 & Hput & Hlen1 & Hlook).
  { unfold idxs. rewrite length_map. lia. }
  { eapply Forall_impl; [exact Hidxs|]. unfold in_range. intros; simpl in *; lia. }
  assert (Hl : map half idxs <> []).
  { intros Hnil. apply fmap_nil_inv in Hnil. unfold idxs in Hnil.
    apply fmap_nil_inv in Hnil. contradiction. }
  assert (Hsame : forall p, 0 <= p < 2 * cap -> p ∉ idxs ->
                            nodeval v1 p = nodeval (_value t) p).
  { intros p Hp Hnot. unfold nodeval. rewrite Hlook by lia.
    rewrite last_write_None; [reflexivity|].
    intros i Hi Heq. rewrite Forall_forall in Hidxs. pose proof (Hidxs i Hi).
    apply Hnot. replace p with i by lia. exact Hi. }
  assert (Hleafs : forall j, 0 <= j < cap ->
            nodeval v1 (cap + j) =
            default (nodeval (_value t) (cap + j))
              (last_write idxs vals (Z.to_nat (cap + j)))).
  { intros j Hj. unfold nodeval. apply Hlook. lia. }
  assert (Hprop : exists v',
    propagate (length (_value t)) (_operation t) v1 (keep_run_ends (map half idxs)) = Ok v' /\
    length v' = length v1 /\
    (tree_inv t -> forall n, 1 <= n < cap -> node_ok (_operation t) v' n) /\
    (forall p, cap <= p < 2 * cap -> nodeval v' p = nodeval v1 p)).
  { destruct h as [|h].
    - change (2 ^ Z.of_nat 0) with 1 in Hcap.
      exists v1. rewrite (keep_run_ends_const 0); [|exact Hl|].
      + destruct (length (_value t)) as [|fuel] eqn:E; [lia|].
        split; [apply propagate_root|]. split; [reflexivity|]. split; [|reflexivity].
        intros _ n Hn. lia.
      + apply Forall_map. eapply Forall_impl; [exact Hidxs|]. intros i Hi.
        simpl in Hi |- *. unfold half. Z.to_euclidean_division_equations. lia.
    - assert (Hpow : 2 ^ Z.of_nat (S h) = 2 * 2 ^ Z.of_nat h)
        by (rewrite Nat2Z.inj_succ, Z.pow_succ_r by lia; reflexivity).
      pose proof (pow2_gt_lin h) as Hlin.
      destruct (propagate_ok (_operation t) h cap v1 (map half idxs) (length (_value t)))
        as (v' & Hrun & Hlen' & Hinv & Hleaf'); try lia.
      + exact Hl.
      + apply Forall_map. eapply Forall_impl; [exact Hidxs|]. intros i Hi.
        simpl in Hi |- *. unfold half. Z.to_euclidean_division_equations. lia.
      + exists v'. split; [exact Hrun|]. split; [exact Hlen'|]. split; [|exact Hleaf'].
        intros Hinv0. apply Hinv.
        * intros n Hn. lia.
        * intros n Hn Hclean. unfold node_ok.
          assert (Hint : forall p, 0 <= p < cap -> nodeval v1 p = nodeval (_value t) p).
          { intros p Hp. apply Hsame; [lia|]. intros Hmem.
            rewrite Forall_forall in Hidxs. pose proof (Hidxs p Hmem). lia. }
          assert (Hchild : forall c, c = 2 * n \/ c = 2 * n + 1 ->
                                     nodeval v1 c = nodeval (_value t) c).
          { intros c Hc. apply Hsame; [lia|]. intros Hmem.
            apply (Hclean (half c) 0%nat).
            - apply list_elem_of_fmap. exists c. split; [reflexivity | exact Hmem].
            - simpl. unfold half. Z.to_euclidean_division_equations. lia. }
          rewrite Hint, (Hchild (2 * n)), (Hchild (2 * n + 1)) by (auto; lia).
          apply Hinv0. fold cap. lia. }
  destruct Hprop as (v' & Hrun & Hlen' & Hinv & Hleaf').
  exists (mkSegmentTree cap v' (_operation t) (neutral_element t)).
  split.
  { unfold SegmentTree_setitem. fold cap. fold idxs.
    replace (length idxs) with (length idx) by (unfold idxs; rewrite length_map; reflexivity).
    rewrite Hbc. simpl. rewrite Hput. simpl.
    rewrite unique_ok by exact Hl. simpl.
    change (map (fun i => i / 2) idxs) with (map half idxs).
    rewrite Hrun. reflexivity. }
  simpl. repeat split; try reflexivity.
  - exists h. simpl. split; [exact Hcap | lia].
  - intros Hinv0 n Hn. simpl in *. apply Hinv; assumption.
  - intros j Hj. unfold leaf. simpl. rewrite Hleaf' by lia. apply Hleafs. exact Hj.
Qed.
End TreeFacts.

Lemma broadcast_array {A} (V : list A) (n : nat) :
  length V = n -> broadcast n (Array V) = Ok V.
Proof.
  intros Hn. simpl. destruct V as [|v [|w V]].
  - rewrite <- Hn. reflexivity.
  - rewrite <- Hn. reflexivity.
  - rewrite <- Hn, Nat.eqb_refl. reflexivity.
Qed.

Lemma last_write_NoDup {A} (idxs : list Z) : forall (vals : list A) k i x,
  NoDup idxs -> Forall (fun i => 0 <= i) idxs ->
  idxs !! k = Some i -> vals !! k = Some x ->
  last_write idxs vals (Z.to_nat i) = Some x.
Proof.
  induction idxs as [|i0 idxs IH]; intros [|x0 vals] k i x Hnd Hpos Hi Hx;
    try (destruct k; discriminate).
  apply NoDup_cons in Hnd as [Hnotin Hnd]. apply Forall_cons in Hpos as [Hi0 Hpos].
  simpl. destruct k as [|k]; simplify_eq/=.
  - rewrite last_write_None.
    + rewrite decide_True by reflexivity. reflexivity.
    + intros j Hj Heq. rewrite Forall_forall in Hpos. pose proof (Hpos j Hj).
      apply Hnotin. replace i with j by lia. exact Hj.
  - rewrite (IH vals k i x); auto.
Qed.

Lemma SegmentTree_getitem_leaf {A} `{Inhabited A} (t : SegmentTree A) (i : Z) :
  tree_wf t -> 0 <= i < _capacity t -> SegmentTree_getitem t [i] = Ok [leaf t i].
Proof.
  intros (h & Hcap & Hlen) Hi. unfold SegmentTree_getitem. simpl.
  destruct (Z.ltb_spec i (_capacity t)); [|lia]. simpl.
  destruct (Z.leb_spec 0 i); [|lia]. simpl.
  rewrite getitem_ok by (unfold in_range; lia). reflexivity.
Qed.

(** C10: on every segment tree, a batch write [tree[I] = V] at pairwise
    distinct leaf indices inside [[0, capacity)] succeeds; afterwards a point
    read at each index of [I] returns the value written there and every other
    leaf reads as before, whatever the order of [I]; the same holds for the
    write of a single index. *)
Theorem C10_setitem_getitem_roundtrip {A : Type} (t : SegmentTree A)
    (I : list Z) (V : list A) :
  tree_wf t ->
  I <> [] ->
  NoDup I ->
  Forall (fun i => 0 <= i < _capacity t) I ->
  length V = length I ->
  (exists t',
     SegmentTree_setitem t I (Array V) = Ok t' /\
     (forall k i x, I !! k = Some i -> V !! k = Some x ->
                    SegmentTree_getitem t' [i] = Ok [x]) /\
     (forall j, 0 <= j < _capacity t -> j ∉ I ->
                SegmentTree_getitem t' [j] = SegmentTree_getitem t [j])) /\
  (forall i x, 0 <= i < _capacity t ->
     exists t',
       SegmentTree_setitem t [i] (Scalar x) = Ok t' /\
       SegmentTree_getitem t' [i] = Ok [x] /\
       (forall j, 0 <= j < _capacity t -> j <> i ->
                  SegmentTree_getitem t' [j] = SegmentTree_getitem t [j])).
Proof.
  intros Hwf Hne Hnd Hall Hlen.
  pose (HA := populate (neutral_element t) : Inhabited A).
  split.
  - destruct (SegmentTree_setitem_ok t I (Array V) V) as
        (t' & Hset & Hcap & _ & _ & Hwf' & _ & Hleaf); auto using broadcast_array.
    exists t'. split; [exact Hset|]. split.
    + intros k i x Hi Hx.
      assert (Hr : 0 <= i < _capacity t).
      { rewrite Forall_forall in Hall. apply Hall. eapply list_elem_of_lookup_2, Hi. }
      rewrite SegmentTree_getitem_leaf by (auto; lia).
      rewrite Hleaf by exact Hr.
      replace (_capacity t + i) with (i + _capacity t) by lia.
      erewrite (last_write_NoDup _ V k (i + _capacity t) x).
      * reflexivity.
      * apply NoDup_fmap; [intros a b; lia | exact Hnd].
      * apply Forall_map. eapply Forall_impl; [exact Hall|]. intros; simpl in *; lia.
      * rewrite list_lookup_fmap, Hi. reflexivity.
      * exact Hx.
    + intros j Hj Hnot.
      rewrite !SegmentTree_getitem_leaf by (auto; lia).
      rewrite Hleaf by exact Hj. rewrite last_write_None; [reflexivity|].
      intros i Hi Heq. apply list_elem_of_fmap in Hi as (i' & -> & Hi').
      rewrite Forall_forall in Hall. pose proof (Hall i' Hi').
      apply Hnot. replace j with i' by lia. exact Hi'.
  - intros i x Hi.
    destruct (SegmentTree_setitem_ok t [i] (Scalar x) [x]) as
        (t' & Hset & Hcap & _ & _ & Hwf' & _ & Hleaf);
      [exact Hwf | congruence | repeat constructor; lia | reflexivity |].
    exists t'. split; [exact Hset|]. split.
    + rewrite SegmentTree_getitem_leaf by (auto; lia).
      rewrite Hleaf by exact Hi. simpl.
      rewrite decide_True by (f_equal; lia). reflexivity.
    + intros j Hj Hne'.
      rewrite !SegmentTree_getitem_leaf by (auto; lia).
      rewrite Hleaf by exact Hj. simpl.
      rewrite decide_False by lia. reflexivity.
Qed.

(** ** The circular store *)

Lemma ReplayBufferStorage_init_inv (n : Z) (o a : nat) :
  0 < n ->
  exists st, ReplayBufferStorage_init n o a = Ok st /\ storage_inv st /\
             size st = n /\ _next_idx st = 0 /\ _max_filled st = 0.
Proof.
  intros Hn. unfold ReplayBufferStorage_init.
  destruct (Z.ltb_spec n 0); [lia|].
  eexists. split; [reflexivity|]. split; [|auto].
  constructor; simpl; rewrite ?length_replicate; lia.
Qed.

Lemma slots_in_range (w : Z) (N : nat) (c : Z) :
  0 < c -> Forall (fun i => 0 <= i < c) (slots w N c).
Proof.
  intros Hc. unfold slots. apply Forall_map, Forall_forall. intros k _. simpl.
  apply Z.mod_pos_bound. exact Hc.
Qed.

Lemma put_idx_length {A} `{Inhabited A} (a : list A) (idxs : list Z) (vals : list A) :
  length idxs = length vals ->
  Forall (fun i => 0 <= i < Z.of_nat (length a)) idxs ->
  exists a', put_idx a idxs vals = Ok a' /\ length a' = length a.
Proof.
  intros Hl Hall. destruct (put_idx_ok idxs a vals) as (a' & Hput & Hlen & _); eauto.
Qed.

Lemma add_ok (st : ReplayBufferStorage) (e : experience) :
  storage_inv st ->
  exists st',
    add st e = Ok (st', slots (_next_idx st) (pushed e) (size st)) /\
    storage_inv st' /\
    size st' = size st /\
    _next_idx st' = (_next_idx st + Z.of_nat (pushed e)) mod size st /\
    _max_filled st' = Z.min (_max_filled st + Z.of_nat (pushed e)) (size st).
Proof.
  intros [Hsz Hnext Hfill Hfilling Hs Ha Hr Hs1 Hd].
  set (N := pushed e).
  assert (HN : (match e with One _ => 1 | Batch rows => Z.of_nat (length rows) end)
               = Z.of_nat N) by (destruct e; reflexivity).
  assert (HR : map (fun i => np_mod i (size st)) (np_arange (_next_idx st) N)
               = slots (_next_idx st) N (size st)).
  { unfold np_arange, slots. rewrite map_map. apply map_ext. intros k.
    unfold np_mod. destruct (Z.eqb_spec (size st) 0); [lia | reflexivity]. }
  pose proof (slots_in_range (_next_idx st) N (size st) Hsz) as Hin.
  assert (HlenR : length (slots (_next_idx st) N (size st)) = N)
    by (unfold slots; rewrite length_map, length_seq; reflexivity).
  unfold add. rewrite HN, Nat2Z.id, HR.
  destruct (put_idx_length (s_stack st) (slots (_next_idx st) N (size st))
              (map t_state (rows_of e))) as (s' & -> & Hs');
    [rewrite length_map; exact HlenR | rewrite Hs; exact Hin |].
  destruct (put_idx_length (action_stack st) (slots (_next_idx st) N (size st))
              (map t_action (rows_of e))) as (a' & -> & Ha');
    [rewrite length_map; exact HlenR | rewrite Ha; exact Hin |].
  destruct (put_idx_length (reward_stack st) (slots (_next_idx st) N (size st))
              (map t_reward (rows_of e))) as (r' & -> & Hr');
    [rewrite length_map; exact HlenR | rewrite Hr; exact Hin |].
  destruct (put_idx_length (s1_stack st) (slots (_next_idx st) N (size st))
              (map t_next_state (rows_of e))) as (s1' & -> & Hs1');
    [rewrite length_map; exact HlenR | rewrite Hs1; exact Hin |].
  destruct (put_idx_length (done_stack st) (slots (_next_idx st) N (size st))
              (map t_done (rows_of e))) as (d' & -> & Hd');
    [rewrite length_map; exact HlenR | rewrite Hd; exact Hin |].
  simpl. unfold py_mod. destruct (Z.eqb_spec (size st) 0) as [|_]; [lia|]. simpl.
  eexists. split; [reflexivity|].
  pose proof (Z.mod_pos_bound (_next_idx st + Z.of_nat N) (size st) Hsz) as Hmod.
  assert (Hmf : Z.min (Z.max (_next_idx st + Z.of_nat N) (_max_filled st)) (size st)
                = Z.min (_max_filled st + Z.of_nat N) (size st)).
  { destruct (Z_lt_dec (_max_filled st) (size st)) as [Hlt|Hge].
    - rewrite (Hfilling Hlt). lia.
    - lia. }
  split; [|simpl; auto].
  constructor; simpl; try lia.
  intros Hlt. rewrite Hmf in Hlt |- *.
  assert (Hsmall : _max_filled st + Z.of_nat N < size st) by lia.
  rewrite Hfilling by lia. rewrite Z.mod_small by lia. lia.
Qed.

Lemma storage_push_ok (st : option ReplayBufferStorage) (maxsize : Z) (e : experience) :
  0 < maxsize ->
  opt_storage_inv st maxsize ->
  exists st',
    storage_push st maxsize e = Ok (st', slots (cursor st) (pushed e) maxsize) /\
    storage_inv st' /\
    size st' = maxsize /\
    _next_idx st' = (cursor st + Z.of_nat (pushed e)) mod maxsize /\
    _max_filled st' = Z.min (filled_count st + Z.of_nat (pushed e)) maxsize.
Proof.
  intros Hm Hinv. unfold storage_push.
  set (o := match rows_of e with [] => O | t :: _ => length (t_state t) end).
  set (a := match rows_of e with [] => O | t :: _ => length (t_action t) end).
  destruct (ReplayBufferStorage_init_inv maxsize o a Hm)
    as (st0 & Hinit & Hinv0 & Hsz0 & Hn0 & Hf0).
  assert (Hfresh : exists st',
    (st1 <- Ok st0 ;; add st1 e) = Ok (st', slots 0 (pushed e) maxsize) /\
    storage_inv st' /\ size st' = maxsize /\
    _next_idx st' = (0 + Z.of_nat (pushed e)) mod maxsize /\
    _max_filled st' = Z.min (0 + Z.of_nat (pushed e)) maxsize).
  { destruct (add_ok st0 e Hinv0) as (st' & Hadd & Hinv' & Hsz' & Hn' & Hf').
    exists st'. simpl. rewrite Hadd, Hn0, Hf0, Hsz0 in *. auto. }
  destruct st as [st|]; simpl.
  - destruct Hinv as [Hinv Hsz]. unfold ReplayBufferStorage_len.
    destruct (Z.eqb_spec (_max_filled st) 0) as [Hz|Hnz].
    + rewrite Hinit. rewrite Hz.
      assert (Hc : _next_idx st = 0).
      { rewrite (si_filling st Hinv); [exact Hz|]. pose proof (si_size st Hinv). lia. }
      rewrite Hc. exact Hfresh.
    + destruct (add_ok st e Hinv) as (st' & Hadd & Hinv' & Hsz' & Hn' & Hf').
      exists st'. simpl. rewrite Hadd, Hsz in *. auto.
  - rewrite Hinit. exact Hfresh.
Qed.

Lemma ReplayBuffer_push_ok (b : ReplayBuffer) (e : experience) :
  0 < rb_maxsize b ->
  opt_storage_inv (rb_storage b) (rb_maxsize b) ->
  exists b',
    ReplayBuffer_push b e
      = Ok (b', slots (cursor (rb_storage b)) (pushed e) (rb_maxsize b)) /\
    rb_maxsize b' = rb_maxsize b /\
    opt_storage_inv (rb_storage b') (rb_maxsize b') /\
    filled_count (rb_storage b')
      = Z.min (filled_count (rb_storage b) + Z.of_nat (pushed e)) (rb_maxsize b) /\
    ReplayBuffer_len b' = Ok (filled_count (rb_storage b')).
Proof.
  intros Hm Hinv.
  destruct (storage_push_ok (rb_storage b) (rb_maxsize b) e Hm Hinv)
    as (st' & Hpush & Hinv' & Hsz' & Hn' & Hf').
  unfold ReplayBuffer_push. rewrite Hpush. simpl.
  eexists. split; [reflexivity|]. simpl. auto.
Qed.

Lemma push_all_inv (es : list experience) : forall (b b' : ReplayBuffer) Rs,
  0 < rb_maxsize b ->
  opt_storage_inv (rb_storage b) (rb_maxsize b) ->
  push_all b es = Ok (b', Rs) ->
  rb_maxsize b' = rb_maxsize b /\ opt_storage_inv (rb_storage b') (rb_maxsize b').
Proof.
  induction es as [|e es IH]; intros b b' Rs Hm Hinv Hrun; simpl in Hrun.
  - injection Hrun as <- <-. auto.
  - destruct (ReplayBuffer_push_ok b e Hm Hinv) as (b1 & Hpush & Hm1 & Hinv1 & _).
    rewrite Hpush in Hrun. simpl in Hrun.
    inv_bind Hrun. destruct x as [b2 Rs2]. simpl in Hrun. injection Hrun as <- <-.
    destruct (IH b1 b2 Rs2) as [Hm2 Hinv2]; [lia | exact Hinv1 | exact Hx |].
    split; [lia | exact Hinv2].
Qed.

Lemma filled_count_bounds (st : option ReplayBufferStorage) (maxsize : Z) :
  0 < maxsize -> opt_storage_inv st maxsize -> 0 <= filled_count st <= maxsize.
Proof.
  intros Hm. destruct st as [st|]; simpl; [|lia].
  intros [Hinv <-]. apply (si_filled st Hinv).
Qed.


(** ** Minimum and maximum of an array *)

Lemma np_min_le (l : list Z) (m : Z) : np_min l = Ok m -> forall x, x ∈ l -> m <= x.
Proof.
  destruct l as [|a l]; [discriminate|]. simpl. intros [= <-].
  assert (Hfold : foldr Z.min a l <= a /\ forall x, x ∈ l -> foldr Z.min a l <= x).
  { induction l as [|b l [IHa IHl]]; simpl.
    - split; [lia|]. intros x Hx. inversion Hx.
    - split; [lia|]. intros x Hx. apply elem_of_cons in Hx as [Hx|Hx].
      + subst. lia.
      + specialize (IHl x Hx). lia. }
  intros x Hx. apply elem_of_cons in Hx as [Hx|Hx]; [subst; tauto | apply Hfold, Hx].
Qed.

Lemma np_max_ge (l : list Z) (m : Z) : np_max l = Ok m -> forall x, x ∈ l -> x <= m.
Proof.
  destruct l as [|a l]; [discriminate|]. simpl. intros [= <-].
  assert (Hfold : a <= foldr Z.max a l /\ forall x, x ∈ l -> x <= foldr Z.max a l).
  { induction l as [|b l [IHa IHl]]; simpl.
    - split; [lia|]. intros x Hx. inversion Hx.
    - split; [lia|]. intros x Hx. apply elem_of_cons in Hx as [Hx|Hx].
      + subst. lia.
      + specialize (IHl x Hx). lia. }
  intros x Hx. apply elem_of_cons in Hx as [Hx|Hx]; [subst; tauto | apply Hfold, Hx].
Qed.

Lemma np_minQ_le (l : list Q) (m : Q) :
  np_minQ l = Ok m -> forall x, x ∈ l -> (m <= x)%Q.
Proof.
  destruct l as [|a l]; [discriminate|]. simpl. intros [= <-].
  assert (Hfold : (foldr Qmin a l <= a)%Q /\ forall x, x ∈ l -> (foldr Qmin a l <= x)%Q).
  { induction l as [|b l [IHa IHl]]; simpl.
    - split; [apply Qle_refl|]. intros x Hx. inversion Hx.
    - split; [eapply Qle_trans; [apply Q.le_min_r | exact IHa]|].
      intros x Hx. apply elem_of_cons in Hx as [Hx|Hx].
      + subst. apply Q.le_min_l.
      + eapply Qle_trans; [apply Q.le_min_r | apply IHl, Hx]. }
  intros x Hx. apply elem_of_cons in Hx as [Hx|Hx]; [subst; tauto | apply Hfold, Hx].
Qed.

Lemma np_maxQ_ge (l : list Q) (m : Q) :
  np_maxQ l = Ok m -> forall x, x ∈ l -> (x <= m)%Q.
Proof.
  destruct l as [|a l]; [discriminate|]. simpl. intros [= <-].
  assert (Hfold : (a <= foldr Qmax a l)%Q /\ forall x, x ∈ l -> (x <= foldr Qmax a l)%Q).
  { induction l as [|b l [IHa IHl]]; simpl.
    - split; [apply Qle_refl|]. intros x Hx. inversion Hx.
    - split; [eapply Qle_trans; [exact IHa | apply Q.le_max_r]|].
      intros x Hx. apply elem_of_cons in Hx as [Hx|Hx].
      + subst. apply Q.le_max_l.
      + eapply Qle_trans; [apply IHl, Hx | apply Q.le_max_r]. }
  intros x Hx. apply elem_of_cons in Hx as [Hx|Hx]; [subst; tauto | apply Hfold, Hx].
Qed.

Lemma Qgt_bool_true (x y : Q) : Qgt_bool x y = true <-> (y < x)%Q.
Proof.
  unfold Qgt_bool. rewrite negb_true_iff. split.
  - intros Hf. apply Qnot_le_lt. intros Hle. apply Qle_bool_iff in Hle. congruence.
  - intros Hlt. destruct (Qle_bool x y) eqn:E; [|reflexivity].
    apply Qle_bool_iff in E. exfalso. apply (Qlt_not_le _ _ Hlt E).
Qed.

(** ** Sums over ranges of leaves *)

Lemma Qsum_app (l1 l2 : list Q) : (Qsum (l1 ++ l2) == Qsum l1 + Qsum l2)%Q.
Proof.
  induction l1 as [|x l1 IH]; simpl.
  - rewrite Qplus_0_l. reflexivity.
  - rewrite IH. apply Qplus_assoc.
Qed.

Lemma take_double_drop {A} (p a : nat) (v : list A) :
  take (2 * p) (drop a v) = take p (drop a v) ++ take p (drop (a + p) v).
Proof.
  rewrite <- drop_drop. rewrite take_take_drop. f_equal. lia.
Qed.

Lemma take_1_drop {A} `{Inhabited A} (n : nat) (v : list A) :
  (n < length v)%nat -> take 1 (drop n v) = [v !!! n].
Proof.
  intros Hn. rewrite (drop_S v (v !!! n) n).
  - reflexivity.
  - apply list_lookup_lookup_total_lt. exact Hn.
Qed.

(** A node [n] of level [k] in a sum tree of height [h] holds the sum of the
    [2^j] leaves below it, [j = h - k]. *)
Lemma node_range_sum (v : list Q) (h : nat) :
  length v = (2 * 2 ^ h)%nat ->
  (forall n : nat, (1 <= n < 2 ^ h)%nat ->
                   v !!! n = (v !!! (2 * n)%nat + v !!! (2 * n + 1)%nat)%Q) ->
  forall j k n : nat,
    (k + j = h)%nat -> (2 ^ k <= n < 2 * 2 ^ k)%nat ->
    (v !!! n == Qsum (take (2 ^ j) (drop (n * 2 ^ j) v)))%Q.
Proof.
  intros Hlen Hinv. induction j as [|j IH]; intros k n Hk Hn.
  - replace k with h in Hn by lia.
    rewrite Nat.pow_0_r, Nat.mul_1_r. rewrite take_1_drop by lia.
    simpl. rewrite Qplus_0_r. reflexivity.
  - assert (Hpk : (2 ^ S k = 2 * 2 ^ k)%nat) by (rewrite Nat.pow_succ_r'; reflexivity).
    assert (Hle : (2 ^ S k <= 2 ^ h)%nat) by (apply Nat.pow_le_mono_r; lia).
    rewrite Hinv by lia.
    rewrite (IH (S k) (2 * n)%nat) by lia.
    rewrite (IH (S k) (2 * n + 1)%nat) by lia.
    rewrite Nat.pow_succ_r'. rewrite take_double_drop, Qsum_app.
    replace (n * (2 * 2 ^ j))%nat with (2 * n * 2 ^ j)%nat by lia.
    replace (2 * n * 2 ^ j + 2 ^ j)%nat with ((2 * n + 1) * 2 ^ j)%nat by lia.
    reflexivity.
Qed.

(** ** Construction of the trees *)

Lemma grow_capacity_pow2 (fuel : nat) : forall (k : nat) (size : Z),
  exists h : nat, grow_capacity fuel (2 ^ Z.of_nat k) size = 2 ^ Z.of_nat h.
Proof.
  induction fuel as [|fuel IH]; intros k n; simpl; [eauto|].
  destruct (2 ^ Z.of_nat k <? n); [|eauto].
  replace (2 ^ Z.of_nat k * 2) with (2 ^ Z.of_nat (S k))
    by (rewrite Nat2Z.inj_succ, Z.pow_succ_r by lia; lia).
  apply IH.
Qed.

Lemma grow_capacity_ge (fuel : nat) : forall (c size : Z),
  1 <= c -> size <= Z.of_nat fuel + c -> size <= grow_capacity fuel c size.
Proof.
  induction fuel as [|fuel IH]; intros c n Hc Hn; simpl; [lia|].
  destruct (Z.ltb_spec c n); [|lia]. apply IH; lia.
Qed.

Lemma SegmentTree_init_pow2 {A} (h : nat) (op : A -> A -> A) (neutral : A) :
  SegmentTree_init (2 ^ Z.of_nat h) op neutral
  = Ok (mkSegmentTree (2 ^ Z.of_nat h)
          (replicate (Z.to_nat (2 * 2 ^ Z.of_nat h)) neutral) op neutral).
Proof.
  unfold SegmentTree_init.
  assert (Hpos : 0 < 2 ^ Z.of_nat h) by (apply Z.pow_pos_nonneg; lia).
  destruct (Z.ltb_spec 0 (2 ^ Z.of_nat h)); [|lia].
  replace (2 ^ Z.of_nat h - 1) with (Z.ones (Z.of_nat h))
    by (rewrite Z.ones_equiv; lia).
  rewrite Z.land_ones by lia. rewrite Z.mod_same by lia. reflexivity.
Qed.

Lemma replicate_tree_inv {A} `{Inhabited A} (h : nat) (op : A -> A -> A) (x : A) :
  op x x = x ->
  let t := mkSegmentTree (2 ^ Z.of_nat h) (replicate (Z.to_nat (2 * 2 ^ Z.of_nat h)) x) op x in
  tree_wf t /\ tree_inv t /\ forall i, 0 <= i < 2 ^ Z.of_nat h -> leaf t i = x.
Proof.
  intros Hop t.
  assert (Hpos : 0 < 2 ^ Z.of_nat h) by (apply Z.pow_pos_nonneg; lia).
  split; [|split].
  - exists h. simpl. rewrite length_replicate. split; [reflexivity | lia].
  - intros n Hn. unfold node_ok, nodeval. simpl in *.
    rewrite !lookup_total_replicate_2 by lia. symmetry. exact Hop.
  - intros i Hi. unfold leaf, nodeval. simpl.
    apply lookup_total_replicate_2. lia.
Qed.

(** ** Invariants of the prioritized buffer *)

Lemma PrioritizedReplayBuffer_init_inv (n : Z) (a be : Q) (b : PrioritizedReplayBuffer) :
  0 < n ->
  PrioritizedReplayBuffer_init n a be = Ok b ->
  prb_inv b /\ _storage b = None /\ _maxsize b = n /\ alpha b = a /\ beta b = be /\
  _max_priority b = 1%Q /\
  (forall i, 0 <= i < _capacity (_it_sum b) ->
     leaf (_it_sum b) i = 0%Q /\ leaf (_it_min b) i = Inf).
Proof.
  intros Hn Hinit. unfold PrioritizedReplayBuffer_init in Hinit.
  destruct (grow_capacity_pow2 (Z.to_nat n) 0 n) as [h Hh].
  change (2 ^ Z.of_nat 0) with 1 in Hh.
  pose proof (grow_capacity_ge (Z.to_nat n) 1 n) as Hge.
  rewrite Hh in Hinit, Hge.
  unfold SumSegmentTree_init, MinSegmentTree_init in Hinit.
  rewrite !SegmentTree_init_pow2 in Hinit.
  inv_bind Hinit. injection Hx0 as <-. injection Hx1 as <-.
  simpl in Hinit. injection Hinit as <-. simpl.
  destruct (replicate_tree_inv h Qplus 0%Q) as (Hwf1 & Hinv1 & Hleaf1); [reflexivity|].
  destruct (replicate_tree_inv h np_minimum Inf) as (Hwf2 & Hinv2 & Hleaf2); [reflexivity|].
  split; [|auto 10].
  constructor; simpl; auto; try lia; discriminate.
Qed.

Lemma SegmentTree_setitem_nil {A} (t t' : SegmentTree A) (val : rhs A) :
  SegmentTree_setitem t [] val = Ok t' -> False.
Proof.
  unfold SegmentTree_setitem. simpl. intros Hs. inv_bind Hs. discriminate.
Qed.

Lemma slots_nil (w : Z) (N : nat) (c : Z) : slots w N c = [] -> N = O.
Proof.
  unfold slots. intros Hnil. apply fmap_nil_inv in Hnil.
  destruct N; [reflexivity | discriminate].
Qed.

Lemma np_minQ_in (l : list Q) : l <> [] -> exists m, np_minQ l = Ok m /\ m ∈ l.
Proof.
  destruct l as [|a l]; [congruence|]. intros _. simpl. eexists. split; [reflexivity|].
  induction l as [|b l IH]; simpl; [left|].
  unfold Qmin at 1, GenericMinMax.gmin.
  destruct (b ?= foldr Qmin a l)%Q.
  - right. left.
  - right. left.
  - apply elem_of_cons in IH as [IH|IH]; [rewrite IH; left | right; right; exact IH].
Qed.

Lemma np_min_in (l : list Z) : l <> [] -> exists m, np_min l = Ok m /\ m ∈ l.
Proof.
  destruct l as [|a l]; [congruence|]. intros _. simpl. eexists. split; [reflexivity|].
  induction l as [|b l IH]; simpl; [left|].
  destruct (Z.min_spec b (foldr Z.min a l)) as [[_ ->]|[_ ->]].
  - right. left.
  - apply elem_of_cons in IH as [IH|IH]; [rewrite IH; left | right; right; exact IH].
Qed.

Lemma np_max_in (l : list Z) : l <> [] -> exists m, np_max l = Ok m /\ m ∈ l.
Proof.
  destruct l as [|a l]; [congruence|]. intros _. simpl. eexists. split; [reflexivity|].
  induction l as [|b l IH]; simpl; [left|].
  destruct (Z.max_spec b (foldr Z.max a l)) as [[_ ->]|[_ ->]].
  - apply elem_of_cons in IH as [IH|IH]; [rewrite IH; left | right; right; exact IH].
  - right. left.
Qed.

Lemma np_maxQ_ok (l : list Q) : l <> [] -> exists m, np_maxQ l = Ok m.
Proof. destruct l; [congruence|]. intros _. simpl. eauto. Qed.

Section BufferFacts.
Variable fpow : Q -> Q -> Q.
Implicit Types b : PrioritizedReplayBuffer.

Lemma update_priorities_ok b (st : ReplayBufferStorage) (idxes : list Z) (ps : list Q) :
  prb_inv b ->
  _storage b = Some st ->
  length idxes = length ps ->
  idxes <> [] ->
  (forall p, p ∈ ps -> (0 < p)%Q) ->
  (forall i, i ∈ idxes -> 0 <= i < _max_filled st) ->
  exists b' mx,
    update_priorities fpow b idxes ps = Ok b' /\
    np_maxQ ps = Ok mx /\
    prb_inv b' /\
    _storage b' = _storage b /\ _maxsize b' = _maxsize b /\
    alpha b' = alpha b /\ beta b' = beta b /\
    _max_priority b' = py_max (_max_priority b) mx /\
    _capacity (_it_sum b') = _capacity (_it_sum b) /\
    _capacity (_it_min b') = _capacity (_it_min b) /\
    (forall j, 0 <= j < _capacity (_it_sum b) ->
       leaf (_it_sum b') j
       = updated_leaf (_it_sum b) idxes (map (fun p => fpow p (alpha b)) ps) j /\
       leaf (_it_min b') j
       = updated_leaf (_it_min b) idxes
           (map Fin (map (fun p => fpow p (alpha b)) ps)) j).
Proof.
  intros Hinv Hst Hlen Hne Hpos Hrange.
  assert (Hps : ps <> []) by (destruct ps, idxes; simpl in *; congruence).
  destruct (np_minQ_in ps Hps) as (mn & Hmn & Hmnin).
  destruct (np_min_in idxes Hne) as (imn & Himn & Himnin).
  destruct (np_max_in idxes Hne) as (imx & Himx & Himxin).
  destruct (np_maxQ_ok ps Hps) as (mx & Hmx).
  pose proof (pi_storage b Hinv) as Hsinv. rewrite Hst in Hsinv. destruct Hsinv as [Hsinv Hsz].
  pose proof (si_filled st Hsinv) as Hfill.
  pose proof (pi_size_cap b Hinv) as Hsc.
  assert (Hall : Forall (fun i => 0 <= i < _capacity (_it_sum b)) idxes).
  { apply Forall_forall. intros i Hi. specialize (Hrange i Hi). lia. }
  destruct (SegmentTree_setitem_ok (_it_sum b) idxes
              (Array (map (fun p => fpow p (alpha b)) ps))
              (map (fun p => fpow p (alpha b)) ps))
    as (ts & Hsets & Hcs & Hops & _ & Hwfs & Hinvs & Hleafs);
    [apply (pi_sum_wf b Hinv) | exact Hne | exact Hall
    | apply broadcast_array; rewrite length_map; lia |].
  destruct (SegmentTree_setitem_ok (_it_min b) idxes
              (Array (map Fin (map (fun p => fpow p (alpha b)) ps)))
              (map Fin (map (fun p => fpow p (alpha b)) ps)))
    as (tm & Hsetm & Hcm & Hopm & _ & Hwfm & Hinvm & Hleafm);
    [apply (pi_min_wf b Hinv) | exact Hne
    | rewrite (pi_cap b Hinv); exact Hall
    | apply broadcast_array; rewrite !length_map; lia |].
  exists (mkPRB (_storage b) (_maxsize b) (alpha b) (beta b) ts tm
            (py_max (_max_priority b) mx)), mx.
  split.
  { unfold update_priorities. rewrite Hlen, Nat.eqb_refl. simpl.
    rewrite Hmn. simpl.
    replace (Qgt_bool mn 0) with true
      by (symmetry; apply Qgt_bool_true, Hpos, Hmnin).
    simpl. rewrite Himn. simpl.
    destruct (Z.leb_spec 0 imn); [|specialize (Hrange imn Himnin); lia].
    simpl. rewrite Himx. simpl. rewrite Hst. simpl. unfold ReplayBufferStorage_len.
    destruct (Z.ltb_spec imx (_max_filled st)); [|specialize (Hrange imx Himxin); lia].
    simpl. rewrite Hsets. simpl. rewrite Hsetm. simpl. rewrite Hmx. reflexivity. }
  split; [exact Hmx|]. split.
  { destruct Hinv. constructor; simpl; auto; try congruence; try lia. }
  simpl. do 7 (split; [auto|]). intros j Hj. split.
  - apply Hleafs. exact Hj.
  - apply Hleafm. rewrite (pi_cap b Hinv). exact Hj.
Qed.

(** What the assertions of a successful [update_priorities] have checked. *)
Lemma update_priorities_checked b (idxes : list Z) (ps : list Q) b' :
  update_priorities fpow b idxes ps = Ok b' ->
  exists st,
    _storage b = Some st /\
    length idxes = length ps /\
    idxes <> [] /\
    (forall p, p ∈ ps -> (0 < p)%Q) /\
    (forall i, i ∈ idxes -> 0 <= i < _max_filled st).
Proof.
  unfold update_priorities. intros Hu. inv_bind Hu.
  apply assert_Ok in Hx, Hx1, Hx3, Hx6.
  apply Nat.eqb_eq in Hx. apply Qgt_bool_true in Hx1.
  apply Z.leb_le in Hx3. apply Z.ltb_lt in Hx6.
  destruct (_storage b) as [st|]; [|discriminate]. simpl in Hx5.
  injection Hx5 as <-. unfold ReplayBufferStorage_len in Hx6.
  exists st. split; [reflexivity|]. split; [exact Hx|]. split.
  - intros ->. discriminate.
  - split.
    + intros p Hp. eapply Qlt_le_trans; [exact Hx1|]. eapply np_minQ_le; eassumption.
    + intros i Hi. pose proof (np_min_le _ _ Hx2 i Hi). pose proof (np_max_ge _ _ Hx4 i Hi).
      lia.
Qed.
End BufferFacts.

Lemma last_write_elem {A} (idxs : list Z) : forall (vals : list A) j y,
  last_write idxs vals j = Some y -> y ∈ vals.
Proof.
  induction idxs as [|i idxs IH]; intros [|x vals] j y; simpl; try discriminate.
  destruct (last_write idxs vals j) as [z|] eqn:E.
  - intros [= <-]. right. eapply IH, E.
  - destruct (decide (Z.to_nat i = j)); [|discriminate]. intros [= <-]. left.
Qed.

Lemma last_write_replicate {A} (idxs : list Z) (v : A) (j : nat) :
  last_write idxs (replicate (length idxs) v) j
  = if decide (j ∈ map Z.to_nat idxs) then Some v else None.
Proof.
  destruct (decide (j ∈ map Z.to_nat idxs)) as [Hex|Hnex].
  - apply list_elem_of_fmap in Hex as (i & -> & Hi).
    destruct (last_write_is_Some idxs (replicate (length idxs) v) (Z.to_nat i)) as [y Hy];
      [rewrite length_replicate; reflexivity | eauto |].
    rewrite Hy. f_equal. apply last_write_elem in Hy.
    apply elem_of_replicate in Hy as [-> _]. reflexivity.
  - apply last_write_None. intros i Hi Heq. apply Hnex.
    apply list_elem_of_fmap. eauto.
Qed.

Section PushFacts.
Variable fpow : Q -> Q -> Q.
Implicit Types b : PrioritizedReplayBuffer.

Lemma push_ok b (e : experience) (priorities : option Q) :
  prb_inv b ->
  (1 <= pushed e)%nat ->
  let R := slots (cursor (_storage b)) (pushed e) (_maxsize b) in
  let v := fpow (push_priority b priorities) (alpha b) in
  exists b' st',
    PrioritizedReplayBuffer_push fpow b e priorities = Ok (b', None) /\
    prb_inv b' /\
    _storage b' = Some st' /\
    _max_filled st'
      = Z.min (filled_count (_storage b) + Z.of_nat (pushed e)) (_maxsize b) /\
    _maxsize b' = _maxsize b /\
    alpha b' = alpha b /\ beta b' = beta b /\
    _max_priority b' = _max_priority b /\
    _capacity (_it_sum b') = _capacity (_it_sum b) /\
    _capacity (_it_min b') = _capacity (_it_min b) /\
    (forall j, 0 <= j < _capacity (_it_sum b) ->
       leaf (_it_sum b') j = (if decide (j ∈ R) then v else leaf (_it_sum b) j) /\
       leaf (_it_min b') j = (if decide (j ∈ R) then Fin v else leaf (_it_min b) j)).
Proof.
  intros Hinv HN R v.
  destruct (storage_push_ok (_storage b) (_maxsize b) e (pi_size b Hinv) (pi_storage b Hinv))
    as (st' & Hpush & Hsinv & Hsz & Hnext & Hfill).
  fold R in Hpush.
  pose proof (pi_size b Hinv) as Hm. pose proof (pi_size_cap b Hinv) as Hsc.
  assert (HR : R <> []).
  { intros Hnil. apply slots_nil in Hnil. lia. }
  assert (Hall : Forall (fun i => 0 <= i < _capacity (_it_sum b)) R).
  { eapply Forall_impl; [apply slots_in_range; exact Hm|]. intros; simpl in *; lia. }
  destruct (SegmentTree_setitem_ok (_it_sum b) R (Scalar v) (replicate (length R) v))
    as (ts & Hsets & Hcs & Hops & _ & Hwfs & Hinvs & Hleafs);
    [apply (pi_sum_wf b Hinv) | exact HR | exact Hall | reflexivity |].
  destruct (SegmentTree_setitem_ok (_it_min b) R (Scalar (Fin v))
              (replicate (length R) (Fin v)))
    as (tm & Hsetm & Hcm & Hopm & _ & Hwfm & Hinvm & Hleafm);
    [apply (pi_min_wf b Hinv) | exact HR
    | rewrite (pi_cap b Hinv); exact Hall | reflexivity |].
  exists (mkPRB (Some st') (_maxsize b) (alpha b) (beta b) ts tm (_max_priority b)), st'.
  split.
  { unfold PrioritizedReplayBuffer_push. rewrite Hpush. simpl.
    fold (push_priority b priorities). fold v.
    rewrite Hsets. simpl. rewrite Hsetm. reflexivity. }
  split.
  { pose proof (filled_count_bounds _ _ (pi_size b Hinv) (pi_storage b Hinv)) as Hfb.
    destruct Hinv. constructor; simpl; auto; try congruence; try lia.
    intros st [= <-]. rewrite Hfill. lia. }
  simpl. do 8 (split; [auto|]). intros j Hj.
  assert (Hdec : forall c, 0 <= c ->
            Z.to_nat (c + j) ∈ map Z.to_nat (map (fun i => i + c) R) <-> j ∈ R).
  { intros c Hc. rewrite list_elem_of_fmap. split.
    - intros (i & Heq & Hi). apply list_elem_of_fmap in Hi as (i' & -> & Hi').
      rewrite Forall_forall in Hall. pose proof (Hall i' Hi').
      replace j with i' by lia. exact Hi'.
    - intros Hj'. exists (j + c). split; [f_equal; lia|].
      apply list_elem_of_fmap. eauto. }
  assert (Hcpos : 0 <= _capacity (_it_sum b)) by lia.
  split.
  - rewrite Hleafs by exact Hj.
    replace (length R) with (length (map (fun i => i + _capacity (_it_sum b)) R))
      by apply length_map.
    rewrite last_write_replicate.
    destruct (decide (j ∈ R)) as [Hin|Hnin].
    + rewrite decide_True by (apply Hdec; assumption). reflexivity.
    + rewrite decide_False by (rewrite Hdec; assumption). reflexivity.
  - rewrite Hleafm by (rewrite (pi_cap b Hinv); exact Hj).
    replace (length R) with (length (map (fun i => i + _capacity (_it_min b)) R))
      by apply length_map.
    rewrite last_write_replicate.
    destruct (decide (j ∈ R)) as [Hin|Hnin].
    + rewrite decide_True by (apply Hdec; [rewrite (pi_cap b Hinv)|]; assumption).
      reflexivity.
    + rewrite decide_False by (rewrite Hdec; [|rewrite (pi_cap b Hinv)]; assumption).
      reflexivity.
Qed.

Lemma push_pushed b (e : experience) (priorities : option Q) r :
  prb_inv b ->
  PrioritizedReplayBuffer_push fpow b e priorities = Ok r ->
  (1 <= pushed e)%nat.
Proof.
  intros Hinv Hp.
  destruct (storage_push_ok (_storage b) (_maxsize b) e (pi_size b Hinv) (pi_storage b Hinv))
    as (st' & Hpush & _).
  unfold PrioritizedReplayBuffer_push in Hp. rewrite Hpush in Hp. simpl in Hp.
  inv_bind Hp.
  destruct (pushed e) as [|n] eqn:E; [|lia].
  exfalso. eapply SegmentTree_setitem_nil. exact Hx.
Qed.

(** Every state reached by a successful run satisfies the invariants. *)
Lemma apply_operation_inv b (o : operation) b' :
  prb_inv b -> apply_operation fpow b o = Ok b' -> prb_inv b'.
Proof.
  intros Hinv Hop. destruct o as [e p|idxes ps]; simpl in Hop.
  - inv_bind Hop. injection Hop as <-.
    pose proof (push_pushed b e p x Hinv Hx) as HN.
    destruct (push_ok b e p Hinv HN) as (b1 & st' & Hpush & Hinv1 & _).
    rewrite Hpush in Hx. injection Hx as <-. exact Hinv1.
  - destruct (update_priorities_checked fpow b idxes ps b' Hop)
      as (st & Hst & Hlen & Hne & Hpos & Hrange).
    destruct (update_priorities_ok fpow b st idxes ps Hinv Hst Hlen Hne Hpos Hrange)
      as (b1 & mx & Hup & _ & Hinv1 & _).
    rewrite Hup in Hop. injection Hop as <-. exact Hinv1.
Qed.

Lemma run_inv (ops : list operation) : forall b b',
  prb_inv b -> run fpow b ops = Ok b' -> prb_inv b'.
Proof.
  induction ops as [|o ops IH]; intros b b' Hinv Hrun; simpl in Hrun.
  - injection Hrun as <-. exact Hinv.
  - inv_bind Hrun. eapply IH; [|exact Hrun]. eapply apply_operation_inv; eassumption.
Qed.
End PushFacts.

(** ** Reachable buffers *)

Lemma reachable_inv (fpow : Q -> Q -> Q) (b : PrioritizedReplayBuffer) :
  reachable fpow b -> prb_inv b.
Proof.
  intros (n & a & be & ops & b0 & Hn & Hinit & Hrun).
  eapply run_inv; [|exact Hrun].
  apply (PrioritizedReplayBuffer_init_inv n a be b0 Hn Hinit).
Qed.

(** ** The root of the sum tree *)

Lemma pow2_nat_Z (h : nat) : Z.to_nat (2 ^ Z.of_nat h) = (2 ^ h)%nat.
Proof.
  rewrite <- (Nat2Z.id (2 ^ h)). f_equal. rewrite Nat2Z.inj_pow. reflexivity.
Qed.

(** The node equations of a sum tree, over positions in [nat]. *)
Lemma sum_tree_equations (t : SumSegmentTree) (h : nat) :
  _capacity t = 2 ^ Z.of_nat h ->
  _operation t = Qplus ->
  tree_inv t ->
  forall n : nat, (1 <= n < 2 ^ h)%nat ->
    _value t !!! n = (_value t !!! (2 * n)%nat + _value t !!! (2 * n + 1)%nat)%Q.
Proof.
  intros Hcap Hop Hinv n Hn.
  assert (Hc : Z.of_nat (2 ^ h) = _capacity t) by (rewrite Hcap, Nat2Z.inj_pow; reflexivity).
  specialize (Hinv (Z.of_nat n)). unfold node_ok, nodeval in Hinv.
  rewrite Hop in Hinv. rewrite Nat2Z.id in Hinv.
  replace (Z.to_nat (2 * Z.of_nat n)) with (2 * n)%nat in Hinv by lia.
  replace (Z.to_nat (2 * Z.of_nat n + 1)) with (2 * n + 1)%nat in Hinv by lia.
  apply Hinv. lia.
Qed.

Lemma reduce_whole {A} `{Inhabited A} (t : SegmentTree A) :
  tree_wf t ->
  reduce t 0 (Some (_capacity t)) = Ok (nodeval (_value t) 1) /\
  reduce t 0 None = Ok (nodeval (_value t) 1).
Proof.
  intros (h & Hcap & Hlen).
  assert (Hpos : 0 < _capacity t) by (rewrite Hcap; apply Z.pow_pos_nonneg; lia).
  unfold reduce, recursion_limit.
  destruct (Z.ltb_spec (_capacity t) 0); [lia|].
  destruct (Z.to_nat (2 * _capacity t)) as [|fuel] eqn:E; [lia|].
  simpl. rewrite Z.eqb_refl. simpl.
  rewrite getitem_ok by (unfold in_range; lia). auto.
Qed.

Lemma root_is_sum_of_leaves (t : SumSegmentTree) :
  tree_wf t -> _operation t = Qplus -> tree_inv t ->
  (nodeval (_value t) 1 == Qsum (leaves t))%Q.
Proof.
  intros (h & Hcap & Hlen) Hop Hinv.
  assert (Hl : length (_value t) = (2 * 2 ^ h)%nat).
  { apply Nat2Z.inj. rewrite Hlen, Hcap, Nat2Z.inj_mul, Nat2Z.inj_pow. reflexivity. }
  pose proof (node_range_sum (_value t) h Hl (sum_tree_equations t h Hcap Hop Hinv)
                h 0%nat 1%nat) as Hsum.
  unfold nodeval, leaves. change (Z.to_nat 1) with 1%nat.
  rewrite Hsum by (simpl; lia).
  rewrite Hcap, pow2_nat_Z, Nat.mul_1_l.
  rewrite take_ge by (rewrite length_drop; lia). reflexivity.
Qed.


(** ** [max_priority] *)

Lemma np_maxQ_in (l : list Q) (m : Q) : np_maxQ l = Ok m -> m ∈ l.
Proof.
  destruct l as [|a l]; [discriminate|]. simpl. intros [= <-].
  induction l as [|b l IH]; simpl; [left|].
  unfold Qmax at 1, GenericMinMax.gmax.
  destruct (b ?= foldr Qmax a l)%Q.
  - right. left.
  - apply elem_of_cons in IH as [IH|IH]; [rewrite IH; left | right; right; exact IH].
  - right. left.
Qed.

Lemma py_max_cases (a b : Q) :
  (py_max a b = a \/ py_max a b = b) /\ (a <= py_max a b)%Q /\ (b <= py_max a b)%Q.
Proof.
  unfold py_max. destruct (Qgt_bool b a) eqn:E.
  - apply Qgt_bool_true in E. split; [auto|]. split; [apply Qlt_le_weak, E | apply Qle_refl].
  - split; [auto|]. split; [apply Qle_refl|].
    apply Qnot_lt_le. intros Hlt. apply Qgt_bool_true in Hlt. congruence.
Qed.

Lemma apply_operation_max_priority (fpow : Q -> Q -> Q) (b b' : PrioritizedReplayBuffer)
    (o : operation) :
  prb_inv b ->
  apply_operation fpow b o = Ok b' ->
  match o with
  | Push _ _ => _max_priority b' = _max_priority b
  | UpdatePriorities _ ps =>
      exists mx, np_maxQ ps = Ok mx /\ _max_priority b' = py_max (_max_priority b) mx
  end.
Proof.
  intros Hinv Hop. destruct o as [e p|idxes ps]; simpl in Hop.
  - inv_bind Hop. injection Hop as <-.
    pose proof (push_pushed fpow b e p x Hinv Hx) as HN.
    destruct (push_ok fpow b e p Hinv HN) as (b1 & st' & Hpush & _ & _ & _ & _ & _ & _ & Hmp & _).
    rewrite Hpush in Hx. injection Hx as <-. exact Hmp.
  - destruct (update_priorities_checked fpow b idxes ps b' Hop)
      as (st & Hst & Hlen & Hne & Hpos & Hrange).
    destruct (update_priorities_ok fpow b st idxes ps Hinv Hst Hlen Hne Hpos Hrange)
      as (b1 & mx & Hup & Hmx & _ & _ & _ & _ & _ & Hmp & _).
    rewrite Hup in Hop. injection Hop as <-. eauto.
Qed.

Lemma run_max_priority (fpow : Q -> Q -> Q) (ops : list operation) :
  forall b b' : PrioritizedReplayBuffer,
    prb_inv b ->
    run fpow b ops = Ok b' ->
    (_max_priority b <= _max_priority b')%Q /\
    (forall p, p ∈ supplied_priorities ops -> (p <= _max_priority b')%Q) /\
    (_max_priority b' = _max_priority b \/ _max_priority b' ∈ supplied_priorities ops).
Proof.
  induction ops as [|o ops IH]; intros b b' Hinv Hrun; simpl in Hrun.
  - injection Hrun as <-. split; [apply Qle_refl|]. split; [|auto].
    intros p Hp. inversion Hp.
  - inv_bind Hrun. rename x into b1.
    pose proof (apply_operation_inv fpow b o b1 Hinv Hx) as Hinv1.
    pose proof (apply_operation_max_priority fpow b b1 o Hinv Hx) as Hstep.
    destruct (IH b1 b' Hinv1 Hrun) as (Hle & Hall & Hatt).
    destruct o as [e p|idxes ps]; simpl.
    + rewrite Hstep in *. auto.
    + destruct Hstep as (mx & Hmx & Hmp).
      destruct (py_max_cases (_max_priority b) mx) as (Hcases & Hle1 & Hle2).
      rewrite <- Hmp in *. split; [eapply Qle_trans; eassumption|]. split.
      * intros p Hp. apply elem_of_app in Hp as [Hp|Hp]; [|apply Hall, Hp].
        eapply Qle_trans; [apply (np_maxQ_ge ps mx Hmx p Hp)|].
        eapply Qle_trans; eassumption.
      * destruct Hatt as [Hatt|Hatt]; [|right; apply elem_of_app; auto].
        rewrite Hatt. destruct Hcases as [->| ->]; [auto|].
        right. apply elem_of_app. left. eapply np_maxQ_in, Hmx.
Qed.

(** X22: after any sequence of operations [max_priority] is the maximum of
    its initial value 1.0 and of every priority handed to
    [update_priorities] so far; [update_priorities] sets it to
    [max(max_priority, max(new_priorities))], and [push] leaves it unchanged,
    whatever priorities it is given. *)
Theorem max_priority_tracks_updates (fpow : Q -> Q -> Q) (n : Z) (a be : Q)
    (ops : list operation) (b0 b : PrioritizedReplayBuffer) :
  0 < n ->
  PrioritizedReplayBuffer_init n a be = Ok b0 ->
  run fpow b0 ops = Ok b ->
  ((1 <= _max_priority b)%Q /\
   (forall p, p ∈ supplied_priorities ops -> (p <= _max_priority b)%Q) /\
   (_max_priority b = 1%Q \/ _max_priority b ∈ supplied_priorities ops)) /\
  (forall idxes ps b',
     update_priorities fpow b idxes ps = Ok b' ->
     exists mx, np_maxQ ps = Ok mx /\ _max_priority b' = py_max (_max_priority b) mx) /\
  (forall e priorities b' ret,
     PrioritizedReplayBuffer_push fpow b e priorities = Ok (b', ret) ->
     _max_priority b' = _max_priority b).
Proof.
  intros Hn Hinit Hrun.
  destruct (PrioritizedReplayBuffer_init_inv n a be b0 Hn Hinit)
    as (Hinv0 & _ & _ & _ & _ & Hmp0 & _).
  pose proof (run_inv fpow ops b0 b Hinv0 Hrun) as Hinv.
  split; [|split].
  - pose proof (run_max_priority fpow ops b0 b Hinv0 Hrun) as Hmax.
    rewrite Hmp0 in Hmax. exact Hmax.
  - intros idxes ps b' Hup.
    apply (apply_operation_max_priority fpow b b' (UpdatePriorities idxes ps) Hinv Hup).
  - intros e p b' ret Hpush.
    apply (apply_operation_max_priority fpow b b' (Push e p) Hinv).
    simpl. rewrite Hpush. reflexivity.
Qed.

(** ** Sampling from an empty buffer *)


(** ** [update_priorities] *)

(** The value written at the last occurrence of an index is the one that
    stays. *)
Lemma last_write_last {A} (idxs : list Z) : forall (vals : list A) (k : nat) i x,
  Forall (fun i => 0 <= i) idxs ->
  idxs !! k = Some i -> vals !! k = Some x ->
  (forall k', (k < k')%nat -> idxs !! k' <> Some i) ->
  last_write idxs vals (Z.to_nat i) = Some x.
Proof.
  induction idxs as [|i0 idxs IH]; intros [|x0 vals] k i x Hpos Hi Hx Hlast;
    try (destruct k; discriminate).
  apply Forall_cons in Hpos as [Hi0 Hpos].
  simpl. destruct k as [|k]; simplify_eq/=.
  - rewrite last_write_None.
    + rewrite decide_True by reflexivity. reflexivity.
    + intros j Hj Heq. rewrite Forall_forall in Hpos. pose proof (Hpos j Hj).
      apply list_elem_of_lookup in Hj as [k' Hk'].
      apply (Hlast (S k')); [lia|]. simpl. rewrite Hk'. f_equal. lia.
  - rewrite (IH vals k i x); auto.
    intros k' Hk'. apply (Hlast (S k')). lia.
Qed.

(** C7: [update_priorities] fails on an assertion when some priority is
    not positive (the priority assertion, when the two arrays are equally
    long), and when all priorities are positive and some index lies outside
    [[0, len())] (an index assertion, when the two arrays are equally long);
    when the arrays are equally long, all priorities are positive and all
    indices are in range it returns normally, leaves the stored transitions
    unchanged and writes [priority ** alpha] into both trees at exactly the
    given indices (at a repeated index the last priority stays). *)
Theorem C7_update_priorities (fpow : Q -> Q -> Q) (b : PrioritizedReplayBuffer)
    (st : ReplayBufferStorage) (idxes : list Z) (ps : list Q) :
  reachable fpow b ->
  _storage b = Some st ->
  ((exists p, p ∈ ps /\ (p <= 0)%Q) ->
   exists a, update_priorities fpow b idxes ps = Err (AssertionError a) /\
             (length idxes = length ps -> a = priorities_positive)) /\
  ((forall p, p ∈ ps -> (0 < p)%Q) ->
   (exists i, i ∈ idxes /\ (i < 0 \/ _max_filled st <= i)) ->
   exists a, update_priorities fpow b idxes ps = Err (AssertionError a) /\
             (length idxes = length ps -> a = idxes_nonneg \/ a = idxes_lt_len)) /\
  (length idxes = length ps ->
   idxes <> [] ->
   (forall p, p ∈ ps -> (0 < p)%Q) ->
   (forall i, i ∈ idxes -> 0 <= i < _max_filled st) ->
   exists b',
     update_priorities fpow b idxes ps = Ok b' /\
     _storage b' = _storage b /\
     (forall k i p, idxes !! k = Some i -> ps !! k = Some p ->
        (forall k', (k < k')%nat -> idxes !! k' <> Some i) ->
        leaf (_it_sum b') i = fpow p (alpha b) /\
        leaf (_it_min b') i = Fin (fpow p (alpha b))) /\
     (forall j, 0 <= j < _capacity (_it_sum b) -> j ∉ idxes ->
        leaf (_it_sum b') j = leaf (_it_sum b) j /\
        leaf (_it_min b') j = leaf (_it_min b) j)).
Proof.
  intros Hreach Hst.
  pose proof (reachable_inv fpow b Hreach) as Hinv.
  split; [|split].
  - intros (p & Hp & Hle). unfold update_priorities.
    destruct (Nat.eqb_spec (length idxes) (length ps)) as [Hlen|Hlen]; simpl;
      [|eexists; split; [reflexivity | intros; contradiction]].
    assert (Hps : ps <> []) by (intros ->; inversion Hp).
    destruct (np_minQ_in ps Hps) as (mn & Hmn & _).
    rewrite Hmn. simpl.
    replace (Qgt_bool mn 0) with false; [eexists; split; [reflexivity | auto]|].
    symmetry. destruct (Qgt_bool mn 0) eqn:E; [|reflexivity].
    apply Qgt_bool_true in E. pose proof (np_minQ_le ps mn Hmn p Hp) as Hle'.
    exfalso. apply (Qlt_not_le _ _ E). eapply Qle_trans; eassumption.
  - intros Hpos (i & Hi & Hout). unfold update_priorities.
    destruct (Nat.eqb_spec (length idxes) (length ps)) as [Hlen|Hlen]; simpl;
      [|eexists; split; [reflexivity | intros; contradiction]].
    assert (Hne : idxes <> []) by (intros ->; inversion Hi).
    assert (Hps : ps <> []) by (destruct ps, idxes; simpl in *; congruence).
    destruct (np_minQ_in ps Hps) as (mn & Hmn & Hmnin).
    destruct (np_min_in idxes Hne) as (imn & Himn & Himnin).
    destruct (np_max_in idxes Hne) as (imx & Himx & Himxin).
    pose proof (np_min_le idxes imn Himn i Hi) as Hlo.
    pose proof (np_max_ge idxes imx Himx i Hi) as Hhi.
    rewrite Hmn. simpl.
    replace (Qgt_bool mn 0) with true
      by (symmetry; apply Qgt_bool_true, Hpos, Hmnin).
    simpl. rewrite Himn. simpl.
    destruct (Z.leb_spec 0 imn) as [Hnn|Hneg]; simpl;
      [|eexists; split; [reflexivity | auto]].
    rewrite Himx. simpl. rewrite Hst. simpl. unfold ReplayBufferStorage_len.
    destruct (Z.ltb_spec imx (_max_filled st)); [lia|]. simpl.
    eexists; split; [reflexivity | auto].
  - intros Hlen Hne Hpos Hrange.
    destruct (update_priorities_ok fpow b st idxes ps Hinv Hst Hlen Hne Hpos Hrange)
      as (b' & mx & Hup & _ & _ & Hst' & _ & _ & _ & _ & Hcs & Hcm & Hleaf).
    pose proof (pi_storage b Hinv) as Hsinv. rewrite Hst in Hsinv. destruct Hsinv as [Hsinv Hsz].
    pose proof (si_filled st Hsinv) as Hfill.
    pose proof (pi_size_cap b Hinv) as Hsc.
    exists b'. split; [exact Hup|]. split; [exact Hst'|]. split.
    + intros k i p Hi Hp Hlast.
      assert (Hr : 0 <= i < _capacity (_it_sum b)).
      { pose proof (Hrange i (list_elem_of_lookup_2 _ _ _ Hi)). lia. }
      destruct (Hleaf i Hr) as [Hs Hm]. rewrite Hs, Hm. unfold updated_leaf.
      replace (_capacity (_it_sum b) + i) with (i + _capacity (_it_sum b)) by lia.
      replace (_capacity (_it_min b) + i) with (i + _capacity (_it_min b)) by lia.
      erewrite (last_write_last _ _ k (i + _capacity (_it_sum b))).
      * erewrite (last_write_last _ _ k (i + _capacity (_it_min b)));
          [simpl; split; reflexivity| | | |].
        -- apply Forall_map, Forall_forall. intros j Hj. specialize (Hrange j Hj).
           simpl. rewrite (pi_cap b Hinv). lia.
        -- rewrite list_lookup_fmap, Hi. reflexivity.
        -- rewrite !list_lookup_fmap, Hp. reflexivity.
        -- intros k' Hk'. rewrite list_lookup_fmap.
           destruct (idxes !! k') as [i'|] eqn:E; [|discriminate]. simpl.
           intros [= Heq]. apply (Hlast k' Hk'). rewrite E. f_equal. lia.
      * apply Forall_map, Forall_forall. intros j Hj. specialize (Hrange j Hj).
        simpl. lia.
      * rewrite list_lookup_fmap, Hi. reflexivity.
      * rewrite list_lookup_fmap, Hp. reflexivity.
      * intros k' Hk'. rewrite list_lookup_fmap.
        destruct (idxes !! k') as [i'|] eqn:E; [|discriminate]. simpl.
        intros [= Heq]. apply (Hlast k' Hk'). rewrite E. f_equal. lia.
    + intros j Hj Hnot. destruct (Hleaf j Hj) as [Hs Hm]. rewrite Hs, Hm.
      unfold updated_leaf.
      rewrite !last_write_None; [auto| |].
      * intros i Hi Heq. apply list_elem_of_fmap in Hi as (i' & -> & Hi').
        specialize (Hrange i' Hi'). rewrite (pi_cap b Hinv) in Heq.
        apply Hnot. replace j with i' by lia. exact Hi'.
      * intros i Hi Heq. apply list_elem_of_fmap in Hi as (i' & -> & Hi').
        specialize (Hrange i' Hi').
        apply Hnot. replace j with i' by lia. exact Hi'.
Qed.

(** ** [find_prefixsum_idx] *)

Lemma zip_with_fst_map {A B C} (f : A -> C) (l1 : list A) (l2 : list B) :
  length l1 = length l2 -> zip_with (fun x _ => f x) l1 l2 = map f l1.
Proof.
  revert l2. induction l1 as [|x l1 IH]; intros [|y l2] Hl; simpl in *;
    try discriminate; [reflexivity|].
  rewrite IH by lia. reflexivity.
Qed.

Lemma zip_with_zip_with {A B C D E} (F : C -> D -> E) (G1 : A -> B -> C)
    (G2 : A -> B -> D) (l1 : list A) (l2 : list B) :
  zip_with F (zip_with G1 l1 l2) (zip_with G2 l1 l2)
  = zip_with (fun x y => F (G1 x y) (G2 x y)) l1 l2.
Proof.
  revert l2. induction l1 as [|x l1 IH]; intros [|y l2]; simpl; try reflexivity.
  rewrite IH. reflexivity.
Qed.

Section FindPrefixsum.
Variable self : SumSegmentTree.
Variable h : nat.
Hypothesis Hcap : _capacity self = 2 ^ Z.of_nat h.
Hypothesis Hlen : Z.of_nat (length (_value self)) = 2 * _capacity self.

Let v := _value self.
Let cap := _capacity self.

(** One iteration of the loop, element by element, on nodes that are all
    internal. *)
Lemma find_prefixsum_step (idx : list Z) : forall (ps : list Q) (fuel : nat),
  length idx = length ps ->
  idx <> [] ->
  Forall (fun i => 1 <= i < cap) idx ->
  find_prefixsum_loop (S fuel) self idx ps (map (fun i => i <? cap) idx)
  = find_prefixsum_loop fuel self
      (zip_with (fun i p => if Qle_bool (nodeval v (2 * i)) p then 2 * i + 1 else 2 * i)
         idx ps)
      (zip_with (fun i p => if Qle_bool (nodeval v (2 * i)) p
                            then (p - nodeval v (2 * i))%Q else p) idx ps)
      (map (fun i => i <? cap)
         (zip_with (fun i p => if Qle_bool (nodeval v (2 * i)) p then 2 * i + 1 else 2 * i)
            idx ps)).
Proof.
  intros ps fuel Hl Hne Hall.
  assert (Hany : existsb id (map (fun i => i <? cap) idx) = true).
  { destruct idx as [|i idx']; [congruence|]. apply Forall_cons in Hall as [Hi _].
    simpl. destruct (Z.ltb_spec i cap); [reflexivity | lia]. }
  assert (Hidx1 : zip_with (fun i (c : bool) => if c then 2 * i else i) idx
                    (map (fun i => i <? cap) idx) = map (fun i => 2 * i) idx).
  { clear Hl Hne Hany. induction Hall as [|i idx' Hi _ IH]; simpl; [reflexivity|].
    destruct (Z.ltb_spec i cap); [|lia]. rewrite IH. reflexivity. }
  assert (Hvals : take_idx v (map (fun i => 2 * i) idx)
                  = Ok (map (fun i => nodeval v (2 * i)) idx)).
  { rewrite take_idx_ok.
    - rewrite map_map. reflexivity.
    - apply Forall_map. eapply Forall_impl; [exact Hall|]. unfold in_range.
      intros i Hi. simpl in *. subst v cap. lia. }
  cbn [find_prefixsum_loop]. fold cap. rewrite Hany. cbv zeta.
  rewrite Hidx1. fold v. rewrite Hvals. cbn [bind].
  f_equal.
  - clear Hany Hidx1 Hvals Hne. revert ps Hl.
    induction Hall as [|i idx' Hi _ IH]; intros [|p ps] Hl; simpl in *;
      try discriminate; [reflexivity|].
    destruct (Z.ltb_spec i cap); [|lia]. rewrite IH by lia.
    unfold Qgt_bool. destruct (Qle_bool (nodeval v (2 * i)) p); reflexivity.
  - clear Hany Hidx1 Hvals Hne. revert ps Hl.
    induction Hall as [|i idx' Hi _ IH]; intros [|p ps] Hl; simpl in *;
      try discriminate; [reflexivity|].
    rewrite IH by lia. reflexivity.
  - f_equal. clear Hany Hidx1 Hvals Hne. revert ps Hl.
    induction Hall as [|i idx' Hi _ IH]; intros [|p ps] Hl; simpl in *;
      try discriminate; [reflexivity|].
    destruct (Z.ltb_spec i cap); [|lia]. rewrite IH by lia.
    unfold Qgt_bool. destruct (Qle_bool (nodeval v (2 * i)) p); reflexivity.
Qed.

(** The loop is the descent of every target on its own. *)
Lemma find_prefixsum_loop_descend (j : nat) : forall (k fuel : nat) (idx : list Z) (ps : list Q),
  (k + j = h)%nat ->
  (j < fuel)%nat ->
  length idx = length ps ->
  idx <> [] ->
  Forall (fun i => 2 ^ Z.of_nat k <= i < 2 * 2 ^ Z.of_nat k) idx ->
  find_prefixsum_loop fuel self idx ps (map (fun i => i <? cap) idx)
  = Ok (zip_with (fun i p => fst (descend j v i p) - cap) idx ps).
Proof.
  induction j as [|j IH]; intros k fuel idx ps Hk Hfuel Hl Hne Hall.
  - destruct fuel as [|fuel]; [lia|]. replace k with h in Hall by lia.
    assert (Hany : existsb id (map (fun i => i <? cap) idx) = false).
    { clear Hl Hne. induction Hall as [|i idx' Hi _ IH']; simpl; [reflexivity|].
      destruct (Z.ltb_spec i cap); [subst cap; lia | exact IH']. }
    cbn [find_prefixsum_loop]. fold cap. rewrite Hany.
    simpl. rewrite zip_with_fst_map by exact Hl. reflexivity.
  - destruct fuel as [|fuel]; [lia|].
    assert (Hpk : 2 ^ Z.of_nat (S k) = 2 * 2 ^ Z.of_nat k)
      by (rewrite Nat2Z.inj_succ, Z.pow_succ_r by lia; reflexivity).
    assert (Hpos : 0 < 2 ^ Z.of_nat k) by (apply Z.pow_pos_nonneg; lia).
    assert (Hle : 2 ^ Z.of_nat (S k) <= 2 ^ Z.of_nat h)
      by (apply Z.pow_le_mono_r; lia).
    rewrite find_prefixsum_step; [|exact Hl|exact Hne|].
    2:{ eapply Forall_impl; [exact Hall|]. intros i Hi. simpl in *. subst cap. lia. }
    rewrite (IH (S k)); try lia.
    + rewrite zip_with_zip_with. f_equal.
      clear. revert ps. induction idx as [|i idx' IH']; intros [|p ps]; simpl;
        try reflexivity.
      rewrite IH'. destruct (Qle_bool (nodeval v (2 * i)) p); reflexivity.
    + rewrite !length_zip_with. reflexivity.
    + destruct idx, ps; simpl in *; congruence.
    + rewrite Hpk. clear Hne. revert ps Hl.
      induction Hall as [|i idx' Hi _ IH']; intros [|p ps] Hl; simpl in *;
        try discriminate; constructor.
      * destruct (Qle_bool (nodeval v (2 * i)) p); lia.
      * apply IH'. lia.
Qed.
End FindPrefixsum.

Lemma Qsum_nonneg (l : list Q) : Forall (fun x => (0 <= x)%Q) l -> (0 <= Qsum l)%Q.
Proof.
  induction 1 as [|x l Hx _ IH]; simpl; [apply Qle_refl|].
  replace 0%Q with (0 + 0)%Q by reflexivity. apply Qplus_le_compat; assumption.
Qed.

Lemma Qsum_take_mono (l : list Q) (a b : nat) :
  Forall (fun x => (0 <= x)%Q) l -> (a <= b)%nat ->
  (Qsum (take a l) <= Qsum (take b l))%Q.
Proof.
  intros Hpos Hab. replace b with (a + (b - a))%nat by lia.
  rewrite <- take_take_drop, Qsum_app.
  assert (0 <= Qsum (take (b - a) (drop a l)))%Q.
  { apply Qsum_nonneg. apply Forall_take, Forall_drop, Hpos. }
  lra.
Qed.

Lemma prefix_node (v : list Q) (h : nat) :
  length v = (2 * 2 ^ h)%nat ->
  (forall n : nat, (1 <= n < 2 ^ h)%nat ->
                   v !!! n = (v !!! (2 * n)%nat + v !!! (2 * n + 1)%nat)%Q) ->
  forall j k m : nat,
    (k + j = h)%nat -> (2 ^ k <= m < 2 * 2 ^ k)%nat ->
    (Qsum (take ((m + 1) * 2 ^ j - 2 ^ h) (drop (2 ^ h) v))
     == Qsum (take (m * 2 ^ j - 2 ^ h) (drop (2 ^ h) v)) + v !!! m)%Q.
Proof.
  intros Hlen Hinv j k m Hk Hm.
  assert (Hpow : (2 ^ h = 2 ^ k * 2 ^ j)%nat) by (rewrite <- Nat.pow_add_r; f_equal; lia).
  assert (Hge : (2 ^ h <= m * 2 ^ j)%nat)
    by (rewrite Hpow; apply Nat.mul_le_mono_r; lia).
  replace ((m + 1) * 2 ^ j - 2 ^ h)%nat with ((m * 2 ^ j - 2 ^ h) + 2 ^ j)%nat by lia.
  rewrite <- take_take_drop, Qsum_app, drop_drop.
  replace (2 ^ h + (m * 2 ^ j - 2 ^ h))%nat with (m * 2 ^ j)%nat by lia.
  rewrite <- (node_range_sum v h Hlen Hinv j k m Hk Hm). reflexivity.
Qed.

Section Descent.
Variable self : SumSegmentTree.
Variable h : nat.
Hypothesis Hcap : _capacity self = 2 ^ Z.of_nat h.
Hypothesis Hlen : Z.of_nat (length (_value self)) = 2 * _capacity self.
Hypothesis Hop : _operation self = Qplus.
Hypothesis Hinv : tree_inv self.

Let v := _value self.
Let cap := _capacity self.

Lemma to_nat_node_offset (x : Z) (j : nat) :
  0 <= x ->
  Z.to_nat (x * 2 ^ Z.of_nat j - cap) = (Z.to_nat x * 2 ^ j - 2 ^ h)%nat.
Proof.
  intros Hx. subst cap. rewrite Hcap.
  assert (0 <= 2 ^ Z.of_nat h) by (apply Z.pow_nonneg; lia).
  assert (0 <= 2 ^ Z.of_nat j) by (apply Z.pow_nonneg; lia).
  rewrite Z2Nat.inj_sub, Z2Nat.inj_mul, !pow2_nat_Z by lia. reflexivity.
Qed.

Lemma cumsum_node (j k : nat) (m : Z) :
  (k + j = h)%nat ->
  2 ^ Z.of_nat k <= m < 2 * 2 ^ Z.of_nat k ->
  (cumsum self ((m + 1) * 2 ^ Z.of_nat j - cap)
   == cumsum self (m * 2 ^ Z.of_nat j - cap) + nodeval v m)%Q.
Proof.
  intros Hk Hm.
  assert (Hpos : 0 < 2 ^ Z.of_nat k) by (apply Z.pow_pos_nonneg; lia).
  assert (Hl : length v = (2 * 2 ^ h)%nat).
  { apply Nat2Z.inj. subst v. rewrite Hlen, Hcap, Nat2Z.inj_mul, Nat2Z.inj_pow.
    reflexivity. }
  unfold cumsum, leaves, nodeval. fold cap.
  rewrite !to_nat_node_offset by lia.
  replace (Z.to_nat cap) with (2 ^ h)%nat by (subst cap; rewrite Hcap, pow2_nat_Z; reflexivity).
  replace (Z.to_nat (m + 1)) with (Z.to_nat m + 1)%nat by lia.
  apply (prefix_node v h Hl (sum_tree_equations self h Hcap Hop Hinv) j k (Z.to_nat m) Hk).
  rewrite <- (pow2_nat_Z k). lia.
Qed.

(** The descent keeps the target inside the current node's range and ends
    in the leaf whose range holds it. *)
Lemma descend_spec (j : nat) : forall (k : nat) (n : Z) (r : Q),
  (k + j = h)%nat ->
  2 ^ Z.of_nat k <= n < 2 * 2 ^ Z.of_nat k ->
  (0 <= r < nodeval v n)%Q ->
  let res := descend j v n r in
  cap <= fst res < 2 * cap /\
  (0 <= snd res < nodeval v (fst res))%Q /\
  (cumsum self (fst res - cap) + snd res
   == cumsum self (n * 2 ^ Z.of_nat j - cap) + r)%Q.
Proof.
  induction j as [|j IH]; intros k n r Hk Hn Hr.
  - simpl. replace k with h in Hn by lia. subst cap. rewrite Hcap.
    split; [lia|]. split; [exact Hr|]. rewrite Z.mul_1_r. reflexivity.
  - assert (Hpk : 2 ^ Z.of_nat (S k) = 2 * 2 ^ Z.of_nat k)
      by (rewrite Nat2Z.inj_succ, Z.pow_succ_r by lia; reflexivity).
    assert (Hpj : 2 ^ Z.of_nat (S j) = 2 * 2 ^ Z.of_nat j)
      by (rewrite Nat2Z.inj_succ, Z.pow_succ_r by lia; reflexivity).
    assert (Hpos : 0 < 2 ^ Z.of_nat k) by (apply Z.pow_pos_nonneg; lia).
    assert (Hle : 2 ^ Z.of_nat (S k) <= 2 ^ Z.of_nat h)
      by (apply Z.pow_le_mono_r; lia).
    assert (Hnode : nodeval v n = (nodeval v (2 * n) + nodeval v (2 * n + 1))%Q).
    { pose proof (Hinv n) as Hok. unfold node_ok in Hok. rewrite Hop in Hok.
      apply Hok. rewrite Hcap. lia. }
    cbn [descend]. cbv zeta.
    replace (n * 2 ^ Z.of_nat (S j)) with (2 * n * 2 ^ Z.of_nat j) by (rewrite Hpj; ring).
    destruct (Qle_bool (nodeval v (2 * n)) r) eqn:E.
    + apply Qle_bool_iff in E.
      destruct (IH (S k) (2 * n + 1) (r - nodeval v (2 * n))%Q) as (Hb & Hr' & Hsum);
        [lia | lia | rewrite Hnode in Hr; split; lra |].
      split; [exact Hb|]. split; [exact Hr'|].
      rewrite Hsum. rewrite (cumsum_node j (S k) (2 * n)) by lia. ring.
    + assert (Hlt : (r < nodeval v (2 * n))%Q).
      { apply Qnot_le_lt. intros Hle'. apply Qle_bool_iff in Hle'. congruence. }
      destruct (IH (S k) (2 * n) r) as (Hb & Hr' & Hsum);
        [lia | lia | split; lra |].
      split; [exact Hb|]. split; [exact Hr'|]. exact Hsum.
Qed.
End Descent.

Lemma zip_with_replicate_const {A B C} (f : A -> B -> C) (x : A) (l : list B) :
  zip_with f (replicate (length l) x) l = map (f x) l.
Proof. induction l as [|y l IH]; simpl; [reflexivity | rewrite IH; reflexivity]. Qed.

Lemma find_prefixsum_idx_ok (t : SumSegmentTree) (h : nat) (targets : list Q) :
  _capacity t = 2 ^ Z.of_nat h ->
  Z.of_nat (length (_value t)) = 2 * _capacity t ->
  _operation t = Qplus ->
  tree_inv t ->
  2 <= _capacity t ->
  targets <> [] ->
  (forall x, x ∈ targets -> (0 <= x < nodeval (_value t) 1)%Q) ->
  find_prefixsum_idx t targets = Ok (map (found_leaf t h) targets) /\
  forall x, x ∈ targets ->
    0 <= found_leaf t h x < _capacity t /\
    (cumsum t (found_leaf t h x) <= x)%Q /\
    (x < cumsum t (found_leaf t h x + 1))%Q /\
    (0 < leaf t (found_leaf t h x))%Q.
Proof.
  intros Hcap Hlen Hop Hinv Hcap2 Hne Hrange.
  assert (Hwf : tree_wf t) by (exists h; auto).
  split.
  - destruct (np_minQ_in targets Hne) as (mn & Hmn & Hmnin).
    destruct (np_maxQ_ok targets Hne) as (mx & Hmx).
    pose proof (np_maxQ_in targets mx Hmx) as Hmxin.
    unfold find_prefixsum_idx. rewrite Hmn. simpl.
    replace (Qle_bool 0 mn) with true
      by (symmetry; apply Qle_bool_iff, (Hrange mn Hmnin)).
    simpl. rewrite Hmx. simpl. unfold sum.
    rewrite (proj2 (reduce_whole t Hwf)). simpl.
    replace (Qle_bool mx (nodeval (_value t) 1 + (1 # 100000))) with true.
    2:{ symmetry. apply Qle_bool_iff. pose proof (Hrange mx Hmxin). lra. }
    simpl.
    assert (Hcont : replicate (length targets) true
                    = map (fun i => i <? _capacity t) (replicate (length targets) 1)).
    { rewrite fmap_replicate. f_equal. symmetry. apply Z.ltb_lt. lia. }
    rewrite Hcont.
    rewrite (find_prefixsum_loop_descend t h Hcap Hlen h 0%nat).
    + rewrite zip_with_replicate_const. reflexivity.
    + reflexivity.
    + pose proof (pow2_gt_lin h). lia.
    + apply length_replicate.
    + destruct targets; [congruence | discriminate].
    + apply Forall_replicate. simpl. lia.
  - intros x Hx. unfold found_leaf.
    destruct (descend_spec t h Hcap Hlen Hop Hinv h 0%nat 1 x) as (Hb & Hr & Hsum);
      [reflexivity | simpl; lia | apply Hrange, Hx |].
    set (i' := fst (descend h (_value t) 1 x)) in *.
    set (r' := snd (descend h (_value t) 1 x)) in *.
    pose proof (cumsum_node t h Hcap Hlen Hop Hinv 0%nat h i') as Hnext.
    change (2 ^ Z.of_nat 0) with 1 in Hnext. rewrite !Z.mul_1_r in Hnext.
    rewrite <- Hcap in Hnext. specialize (Hnext (Nat.add_0_r h) Hb).
    replace (1 * 2 ^ Z.of_nat h - _capacity t) with 0 in Hsum by lia.
    change (cumsum t 0) with 0%Q in Hsum.
    replace (i' - _capacity t + 1) with (i' + 1 - _capacity t) by lia.
    unfold leaf. replace (_capacity t + (i' - _capacity t)) with i' by lia.
    split; [lia|]. split; [lra|]. split; lra.
Qed.

Lemma leaves_nonneg (t : SumSegmentTree) :
  tree_wf t ->
  (forall i, 0 <= i < _capacity t -> (0 <= leaf t i)%Q) ->
  Forall (fun x => (0 <= x)%Q) (leaves t).
Proof.
  intros (h & Hcap & Hlen) Hpos.
  assert (Hc : 0 < _capacity t) by (rewrite Hcap; apply Z.pow_pos_nonneg; lia).
  apply Forall_lookup. intros k x Hk. unfold leaves in Hk.
  rewrite lookup_drop in Hk.
  pose proof (lookup_lt_Some _ _ _ Hk) as Hlt.
  specialize (Hpos (Z.of_nat k)). unfold leaf, nodeval in Hpos.
  replace (Z.to_nat (_capacity t + Z.of_nat k)) with (Z.to_nat (_capacity t) + k)%nat
    in Hpos by lia.
  rewrite (list_lookup_total_correct _ _ _ Hk) in Hpos.
  apply Hpos. lia.
Qed.

Lemma cumsum_mono (t : SumSegmentTree) (i j : Z) :
  Forall (fun x => (0 <= x)%Q) (leaves t) -> i <= j ->
  (cumsum t i <= cumsum t j)%Q.
Proof. intros Hpos Hij. apply Qsum_take_mono; [exact Hpos | lia]. Qed.



(** On a tree of capacity 1 the first iteration already indexes past the
    array: [cont] starts as all [True] although the root is the leaf. *)
Example find_prefixsum_idx_capacity_1 :
  (t <- SumSegmentTree_init 1 ;;
   t <- SegmentTree_setitem t [0] (Scalar 1%Q) ;;
   find_prefixsum_idx t [1 # 2]) = Err IndexError.
Proof. reflexivity. Qed.

(** ** [reduce] on the sum tree *)

Section ReduceSum.
Variable self : SumSegmentTree.
Variable h : nat.
Hypothesis Hcap : _capacity self = 2 ^ Z.of_nat h.
Hypothesis Hlen : Z.of_nat (length (_value self)) = 2 * _capacity self.
Hypothesis Hop : _operation self = Qplus.
Hypothesis Hinv : tree_inv self.

Let v := _value self.
Let cap := _capacity self.

(** A query inside the range of node [n] returns the sum of the queried
    leaves; [j] is the height of the node. *)
Lemma _reduce_helper_sum (j : nat) : forall (k depth : nat) (n start end_ : Z),
  (k + j = h)%nat ->
  (j < depth)%nat ->
  2 ^ Z.of_nat k <= n < 2 * 2 ^ Z.of_nat k ->
  n * 2 ^ Z.of_nat j - cap <= start ->
  start <= end_ ->
  end_ <= (n + 1) * 2 ^ Z.of_nat j - cap - 1 ->
  exists s,
    _reduce_helper depth self start end_ n
      (n * 2 ^ Z.of_nat j - cap) ((n + 1) * 2 ^ Z.of_nat j - cap - 1) = Ok s /\
    (s == cumsum self (end_ + 1) - cumsum self start)%Q.
Proof.
  induction j as [|j IH]; intros k depth n start end_ Hk Hd Hn Hlo Hse Hhi;
    (destruct depth as [|depth]; [lia|]).
  - change (2 ^ Z.of_nat 0) with 1 in *. rewrite !Z.mul_1_r in *.
    replace k with h in Hn by lia.
    assert (start = n - cap) by lia. assert (end_ = n - cap) by lia. subst start end_.
    cbn [_reduce_helper].
    replace (n + 1 - cap - 1) with (n - cap) by lia. rewrite Z.eqb_refl. simpl.
    rewrite getitem_ok by (unfold in_range; subst cap; lia).
    eexists. split; [reflexivity|].
    pose proof (cumsum_node self h Hcap Hlen Hop Hinv 0%nat h n (Nat.add_0_r h) Hn) as Hnode.
    change (2 ^ Z.of_nat 0) with 1 in Hnode. rewrite !Z.mul_1_r in Hnode.
    fold cap in Hnode. replace (n - cap + 1) with (n + 1 - cap) by lia.
    rewrite Hnode. unfold nodeval. subst v. ring.
  - assert (Hpk : 2 ^ Z.of_nat (S k) = 2 * 2 ^ Z.of_nat k)
      by (rewrite Nat2Z.inj_succ, Z.pow_succ_r by lia; reflexivity).
    assert (Hpj : 2 ^ Z.of_nat (S j) = 2 * 2 ^ Z.of_nat j)
      by (rewrite Nat2Z.inj_succ, Z.pow_succ_r by lia; reflexivity).
    assert (Hpos : 0 < 2 ^ Z.of_nat k) by (apply Z.pow_pos_nonneg; lia).
    assert (Hposj : 0 < 2 ^ Z.of_nat j) by (apply Z.pow_pos_nonneg; lia).
    assert (Hle : 2 ^ Z.of_nat (S k) <= 2 ^ Z.of_nat h)
      by (apply Z.pow_le_mono_r; lia).
    set (p := 2 ^ Z.of_nat j) in *.
    set (ns := n * 2 ^ Z.of_nat (S j) - cap) in *.
    set (ne := (n + 1) * 2 ^ Z.of_nat (S j) - cap - 1) in *.
    assert (Hns : ns = 2 * n * p - cap) by (subst ns; rewrite Hpj; ring).
    assert (Hne : ne = ns + 2 * p - 1) by (subst ns ne; rewrite Hpj; ring).
    assert (Hmid : (ns + ne) / 2 = ns + p - 1).
    { rewrite Hne. Z.to_euclidean_division_equations. lia. }
    assert (Hl_lo : 2 * n * p - cap = ns) by lia.
    assert (Hl_hi : (2 * n + 1) * p - cap - 1 = ns + p - 1) by lia.
    assert (Hr_lo : (2 * n + 1) * p - cap = ns + p - 1 + 1) by lia.
    assert (Hr_hi : (2 * n + 1 + 1) * p - cap - 1 = ne) by lia.
    cbn [_reduce_helper]. cbv zeta. rewrite Hmid.
    destruct ((start =? ns) && (end_ =? ne)) eqn:Ematch.
    + apply andb_true_iff in Ematch as [E1 E2].
      apply Z.eqb_eq in E1, E2. subst start end_.
      rewrite getitem_ok by (unfold in_range; subst cap; lia).
      eexists. split; [reflexivity|].
      pose proof (cumsum_node self h Hcap Hlen Hop Hinv (S j) k n Hk Hn) as Hnode.
      fold cap in Hnode. fold ns in Hnode.
      replace ((n + 1) * 2 ^ Z.of_nat (S j) - cap) with (ne + 1) in Hnode by lia.
      rewrite Hnode. unfold nodeval. subst v. ring.
    + destruct (Z.leb_spec end_ (ns + p - 1)) as [Hel|Hel].
      * destruct (IH (S k) depth (2 * n) start end_) as (s & Hs & Hsum); try lia.
        rewrite Hl_lo, Hl_hi in Hs. eauto.
      * destruct (Z.leb_spec (ns + p - 1 + 1) start) as [Hsr|Hsr].
        -- destruct (IH (S k) depth (2 * n + 1) start end_) as (s & Hs & Hsum); try lia.
           rewrite Hr_lo, Hr_hi in Hs. eauto.
        -- destruct (IH (S k) depth (2 * n) start (ns + p - 1)) as (s1 & Hs1 & Hsum1);
             try lia.
           destruct (IH (S k) depth (2 * n + 1) (ns + p - 1 + 1) end_)
             as (s2 & Hs2 & Hsum2); try lia.
           rewrite Hl_lo, Hl_hi in Hs1. rewrite Hr_lo, Hr_hi in Hs2.
           rewrite Hs1. simpl. rewrite Hs2. simpl. rewrite Hop.
           eexists. split; [reflexivity|]. rewrite Hsum1, Hsum2. ring.
Qed.

(** [sum(0, e)] is the cumulative sum of the leaves [[0, e)]. *)
Lemma sum_prefix (e : Z) :
  1 <= e <= cap ->
  exists s, sum self 0 (Some e) = Ok s /\ (s == cumsum self e)%Q.
Proof.
  intros He. unfold sum, reduce, recursion_limit. fold cap.
  destruct (Z.ltb_spec e 0); [lia|].
  assert (Hpos : 0 < 2 ^ Z.of_nat h) by (apply Z.pow_pos_nonneg; lia).
  pose proof (pow2_gt_lin h) as Hlin.
  destruct (_reduce_helper_sum h 0%nat (Z.to_nat (2 * cap)) 1 0 (e - 1))
    as (s & Hs & Hsum); try (simpl; subst cap; lia).
  replace (1 * 2 ^ Z.of_nat h - cap) with 0 in Hs by (subst cap; lia).
  replace ((1 + 1) * 2 ^ Z.of_nat h - cap - 1) with (cap - 1) in Hs by (subst cap; lia).
  exists s. split; [exact Hs|]. rewrite Hsum.
  replace (e - 1 + 1) with e by lia. change (cumsum self 0) with 0%Q. ring.
Qed.
End ReduceSum.

(** [sum(0, 0)] never meets a matching node: the recursion runs into the
    depth limit. *)
Lemma _reduce_helper_empty_query {A} (self : SegmentTree A) (depth : nat) :
  forall node node_end : Z,
    0 <= node_end ->
    _reduce_helper depth self 0 (-1) node 0 node_end = Err RecursionError.
Proof.
  induction depth as [|depth IH]; intros node node_end Hne; [reflexivity|].
  cbn [_reduce_helper]. cbv zeta. rewrite Z.add_0_l.
  destruct (Z.eqb_spec (-1) node_end); [lia|].
  rewrite andb_false_r.
  assert (0 <= node_end / 2) by (apply Z.div_pos; lia).
  destruct (Z.leb_spec (-1) (node_end / 2)); [|lia].
  apply IH. assumption.
Qed.

Lemma sum_empty_prefix (self : SumSegmentTree) :
  1 <= _capacity self -> sum self 0 (Some 0) = Err RecursionError.
Proof.
  intros Hc. unfold sum, reduce. simpl.
  apply _reduce_helper_empty_query. lia.
Qed.

(** ** The root of the min tree *)

Lemma efle_refl (x : efloat) : efle x x.
Proof. destruct x; simpl; [apply Qle_refl | exact I]. Qed.

Lemma efle_trans (x y z : efloat) : efle x y -> efle y z -> efle x z.
Proof.
  destruct x, y, z; simpl; try tauto. apply Qle_trans.
Qed.

Lemma np_minimum_spec (x y : efloat) :
  efle (np_minimum x y) x /\ efle (np_minimum x y) y /\
  (np_minimum x y = x \/ np_minimum x y = y).
Proof.
  destruct x as [a|], y as [b|]; simpl; auto using Qle_refl.
  split; [apply Q.le_min_l|]. split; [apply Q.le_min_r|].
  unfold Qmin, GenericMinMax.gmin. destruct (a ?= b)%Q; auto.
Qed.

Lemma tree_equations_nat {A} `{Inhabited A} (t : SegmentTree A) (h : nat) :
  _capacity t = 2 ^ Z.of_nat h ->
  tree_inv t ->
  forall n : nat, (1 <= n < 2 ^ h)%nat ->
    _value t !!! n
    = _operation t (_value t !!! (2 * n)%nat) (_value t !!! (2 * n + 1)%nat).
Proof.
  intros Hcap Hinv n Hn.
  assert (Hc : Z.of_nat (2 ^ h) = _capacity t) by (rewrite Hcap, Nat2Z.inj_pow; reflexivity).
  specialize (Hinv (Z.of_nat n)). unfold node_ok, nodeval in Hinv.
  rewrite Nat2Z.id in Hinv.
  replace (Z.to_nat (2 * Z.of_nat n)) with (2 * n)%nat in Hinv by lia.
  replace (Z.to_nat (2 * Z.of_nat n + 1)) with (2 * n + 1)%nat in Hinv by lia.
  apply Hinv. lia.
Qed.

(** A node of the min tree is a lower bound of the leaves below it and is
    attained by one of them. *)
Lemma min_node_range (v : list efloat) (h : nat) :
  (forall n : nat, (1 <= n < 2 ^ h)%nat ->
                   v !!! n = np_minimum (v !!! (2 * n)%nat) (v !!! (2 * n + 1)%nat)) ->
  forall j k n : nat,
    (k + j = h)%nat -> (2 ^ k <= n < 2 * 2 ^ k)%nat ->
    (forall q, (n * 2 ^ j <= q < (n + 1) * 2 ^ j)%nat -> efle (v !!! n) (v !!! q)) /\
    (exists q, (n * 2 ^ j <= q < (n + 1) * 2 ^ j)%nat /\ v !!! n = v !!! q).
Proof.
  intros Hinv. induction j as [|j IH]; intros k n Hk Hn.
  - rewrite Nat.pow_0_r, !Nat.mul_1_r. split.
    + intros q Hq. replace q with n by lia. apply efle_refl.
    + exists n. split; [lia | reflexivity].
  - assert (Hle : (2 ^ S k <= 2 ^ h)%nat) by (apply Nat.pow_le_mono_r; lia).
    assert (Hpk : (2 ^ S k = 2 * 2 ^ k)%nat) by (rewrite Nat.pow_succ_r'; reflexivity).
    rewrite Nat.pow_succ_r'.
    destruct (IH (S k) (2 * n)%nat) as [Hlb1 (q1 & Hq1 & Hat1)]; [lia | lia |].
    destruct (IH (S k) (2 * n + 1)%nat) as [Hlb2 (q2 & Hq2 & Hat2)]; [lia | lia |].
    rewrite Hinv by lia.
    destruct (np_minimum_spec (v !!! (2 * n)%nat) (v !!! (2 * n + 1)%nat))
      as (Hl & Hr & Hcases).
    split.
    + intros q Hq. destruct (Nat.lt_ge_cases q ((2 * n + 1) * 2 ^ j)) as [Hlt|Hge].
      * eapply efle_trans; [exact Hl|]. apply Hlb1. lia.
      * eapply efle_trans; [exact Hr|]. apply Hlb2. lia.
    + destruct Hcases as [-> | ->].
      * exists q1. split; [lia | exact Hat1].
      * exists q2. split; [lia | exact Hat2].
Qed.


(** ** The two trees hold the same priorities *)

Lemma last_write_fmap {A B} (g : A -> B) (idxs : list Z) : forall (vals : list A) (j : nat),
  last_write idxs (map g vals) j = g <$> last_write idxs vals j.
Proof.
  induction idxs as [|i idxs IH]; intros [|x vals] j; simpl; try reflexivity.
  rewrite IH. destruct (last_write idxs vals j); simpl; [reflexivity|].
  destruct (decide (Z.to_nat i = j)); reflexivity.
Qed.

Section Sync.
Variable fpow : Q -> Q -> Q.
Hypothesis fpow_pos : forall x e : Q, (0 < x)%Q -> (0 < fpow x e)%Q.

Lemma apply_operation_sync (b b' : PrioritizedReplayBuffer) (o : operation) :
  prb_inv b -> leaf_sync b -> (0 < _max_priority b)%Q ->
  match o with Push _ (Some p) => (0 <= p)%Q | _ => True end ->
  apply_operation fpow b o = Ok b' ->
  leaf_sync b' /\ (0 < _max_priority b')%Q.
Proof.
  intros Hinv Hsync Hmp Hpos Hop. destruct o as [e p|idxes ps]; simpl in Hop.
  - inv_bind Hop. injection Hop as <-.
    pose proof (push_pushed fpow b e p x Hinv Hx) as HN.
    destruct (push_ok fpow b e p Hinv HN)
      as (b1 & st' & Hpush & _ & _ & _ & _ & _ & _ & Hmp1 & Hcs & _ & Hleaf).
    rewrite Hpush in Hx. injection Hx as <-. simpl.
    split; [|rewrite Hmp1; exact Hmp].
    assert (Hv : (0 < fpow (push_priority b p) (alpha b))%Q).
    { apply fpow_pos. unfold push_priority. destruct p as [q|]; [|exact Hmp].
      destruct (Qeq_bool q 0) eqn:E; [exact Hmp|].
      apply Qeq_bool_neq in E. destruct (Qle_lt_or_eq _ _ Hpos) as [Hlt|Heq]; [exact Hlt|].
      exfalso. apply E. symmetry. exact Heq. }
    intros i Hi. rewrite Hcs in Hi. destruct (Hleaf i Hi) as [Hs Hm]. rewrite Hs, Hm.
    destruct (decide (i ∈ _)); [right; auto | apply Hsync, Hi].
  - destruct (update_priorities_checked fpow b idxes ps b' Hop)
      as (st & Hst & Hlen & Hne & Hpspos & Hrange).
    destruct (update_priorities_ok fpow b st idxes ps Hinv Hst Hlen Hne Hpspos Hrange)
      as (b1 & mx & Hup & Hmx & _ & _ & _ & _ & _ & Hmp1 & Hcs & _ & Hleaf).
    rewrite Hup in Hop. injection Hop as <-.
    split.
    + intros i Hi. rewrite Hcs in Hi. destruct (Hleaf i Hi) as [Hs Hm]. rewrite Hs, Hm.
      unfold updated_leaf. rewrite (pi_cap b Hinv).
      set (vals := map (fun p => fpow p (alpha b)) ps).
      rewrite (last_write_fmap Fin).
      destruct (last_write _ vals _) as [y|] eqn:E; simpl; [|apply Hsync, Hi].
      right. split; [|reflexivity].
      apply last_write_elem in E. apply list_elem_of_fmap in E as (q & -> & Hq).
      apply fpow_pos, Hpspos, Hq.
    + rewrite Hmp1. eapply Qlt_le_trans; [exact Hmp|].
      apply (py_max_cases (_max_priority b) mx).
Qed.

Lemma run_sync (ops : list operation) : forall b b' : PrioritizedReplayBuffer,
  prb_inv b -> leaf_sync b -> (0 < _max_priority b)%Q ->
  push_priorities_nonneg ops ->
  run fpow b ops = Ok b' ->
  leaf_sync b'.
Proof.
  induction ops as [|o ops IH]; intros b b' Hinv Hsync Hmp Hpos Hrun; simpl in Hrun.
  - injection Hrun as <-. exact Hsync.
  - inv_bind Hrun. apply Forall_cons in Hpos as [Ho Hpos].
    destruct (apply_operation_sync b x o Hinv Hsync Hmp Ho Hx) as [Hsync1 Hmp1].
    eapply (IH x b'); eauto using apply_operation_inv.
Qed.
End Sync.

(** ** Importance-sampling weights *)



Lemma take_idx_leaves {A} `{Inhabited A} (t : SegmentTree A) (idx : list Z) :
  tree_wf t ->
  Forall (fun i => 0 <= i < _capacity t) idx ->
  take_idx (_value t) (map (fun i => _capacity t + i) idx) = Ok (map (leaf t) idx).
Proof.
  intros (h & Hcap & Hlen) Hall. rewrite take_idx_ok.
  - rewrite map_map. reflexivity.
  - apply Forall_map. eapply Forall_impl; [exact Hall|]. unfold in_range.
    intros i Hi. simpl in *. lia.
Qed.

Lemma cumsum_capacity (t : SumSegmentTree) :
  tree_wf t -> cumsum t (_capacity t) = Qsum (leaves t).
Proof.
  intros (h & Hcap & Hlen). unfold cumsum. rewrite take_ge; [reflexivity|].
  unfold leaves. rewrite length_drop. lia.
Qed.




Lemma storage_len_Some (st : option ReplayBufferStorage) (n : Z) :
  storage_len st = Ok n -> exists s, st = Some s /\ n = _max_filled s.
Proof. destruct st as [s|]; simpl; [intros [= <-]; eauto | discriminate]. Qed.


(** ** The slots reached by proportional sampling *)

Lemma slots_mem (w : Z) (N : nat) (c j : Z) :
  0 < c -> 0 <= w -> w <= j < Z.min (w + Z.of_nat N) c -> j ∈ slots w N c.
Proof.
  intros Hc Hw Hj. unfold slots. apply list_elem_of_fmap.
  exists (Z.to_nat (j - w)). split.
  - rewrite Z2Nat.id by lia. replace (w + (j - w)) with j by lia.
    symmetry. apply Z.mod_small. lia.
  - apply list_elem_of_In, in_seq. lia.
Qed.

Lemma cursor_filling (st : option ReplayBufferStorage) (maxsize : Z) :
  0 < maxsize -> opt_storage_inv st maxsize ->
  0 <= cursor st /\ (filled_count st < maxsize -> cursor st = filled_count st).
Proof.
  intros Hm. destruct st as [st|]; simpl; [|lia].
  intros [Hinv <-]. pose proof (si_next st Hinv). split; [lia|].
  apply (si_filling st Hinv).
Qed.

Section FilledPositive.
Variable fpow : Q -> Q -> Q.
Hypothesis fpow_pos : forall x e : Q, (0 < x)%Q -> (0 < fpow x e)%Q.

Lemma apply_operation_filled_positive (b b' : PrioritizedReplayBuffer) (o : operation) :
  prb_inv b -> filled_positive b -> (0 < _max_priority b)%Q ->
  match o with Push _ (Some p) => (0 <= p)%Q | _ => True end ->
  apply_operation fpow b o = Ok b' ->
  filled_positive b'.
Proof.
  intros Hinv Hfp Hmp Hpos Hop. destruct o as [e p|idxes ps]; simpl in Hop.
  - inv_bind Hop. injection Hop as <-.
    pose proof (push_pushed fpow b e p x Hinv Hx) as HN.
    destruct (push_ok fpow b e p Hinv HN)
      as (b1 & st' & Hpush & _ & Hst' & Hfill & _ & _ & _ & _ & _ & _ & Hleaf).
    rewrite Hpush in Hx. injection Hx as <-. simpl.
    assert (Hv : (0 < fpow (push_priority b p) (alpha b))%Q).
    { apply fpow_pos. unfold push_priority. destruct p as [q|]; [|exact Hmp].
      destruct (Qeq_bool q 0) eqn:E; [exact Hmp|].
      apply Qeq_bool_neq in E. destruct (Qle_lt_or_eq _ _ Hpos) as [Hlt|Heq]; [exact Hlt|].
      exfalso. apply E. symmetry. exact Heq. }
    pose proof (pi_size b Hinv) as Hm. pose proof (pi_size_cap b Hinv) as Hsc.
    destruct (cursor_filling _ _ Hm (pi_storage b Hinv)) as [Hc0 Hcf].
    pose proof (filled_count_bounds _ _ Hm (pi_storage b Hinv)) as Hfb.
    intros st Hst j Hj. rewrite Hst' in Hst. injection Hst as <-. rewrite Hfill in Hj.
    destruct (Hleaf j ltac:(lia)) as [Hs _]. rewrite Hs.
    destruct (decide (j ∈ _)) as [Hin|Hnin]; [exact Hv|].
    destruct (Z_lt_dec j (filled_count (_storage b))) as [Hlt|Hge].
    + destruct (_storage b) as [st0|] eqn:E0; simpl in Hlt; [|lia].
      apply (Hfp st0 E0). lia.
    + exfalso. apply Hnin. apply slots_mem; [exact Hm | exact Hc0 |].
      rewrite Hcf by lia. lia.
  - destruct (update_priorities_checked fpow b idxes ps b' Hop)
      as (st & Hst & Hlen & Hne & Hpspos & Hrange).
    destruct (update_priorities_ok fpow b st idxes ps Hinv Hst Hlen Hne Hpspos Hrange)
      as (b1 & mx & Hup & Hmx & Hinv1 & Hst1 & _ & _ & _ & _ & _ & _ & Hleaf).
    rewrite Hup in Hop. injection Hop as <-.
    pose proof (pi_storage b Hinv) as Hsinv. rewrite Hst in Hsinv. destruct Hsinv as [Hsinv Hsz].
    pose proof (si_filled st Hsinv) as Hfill. pose proof (pi_size_cap b Hinv) as Hsc.
    intros st1 Hst1' j Hj. rewrite Hst1, Hst in Hst1'. injection Hst1' as <-.
    destruct (Hleaf j ltac:(lia)) as [Hs _]. rewrite Hs. unfold updated_leaf.
    destruct (last_write _ _ _) as [y|] eqn:E; simpl; [|apply (Hfp st Hst j Hj)].
    apply last_write_elem in E. apply list_elem_of_fmap in E as (q & -> & Hq).
    apply fpow_pos, Hpspos, Hq.
Qed.

Lemma apply_operation_max_priority_pos (b b' : PrioritizedReplayBuffer) (o : operation) :
  prb_inv b -> (0 < _max_priority b)%Q ->
  apply_operation fpow b o = Ok b' -> (0 < _max_priority b')%Q.
Proof.
  intros Hinv Hmp Hop.
  pose proof (apply_operation_max_priority fpow b b' o Hinv Hop) as Hstep.
  destruct o as [e p|idxes ps].
  - rewrite Hstep. exact Hmp.
  - destruct Hstep as (mx & _ & ->). eapply Qlt_le_trans; [exact Hmp|].
    apply (py_max_cases (_max_priority b) mx).
Qed.

Lemma run_filled_positive (ops : list operation) : forall b b' : PrioritizedReplayBuffer,
  prb_inv b -> filled_positive b -> (0 < _max_priority b)%Q ->
  push_priorities_nonneg ops ->
  run fpow b ops = Ok b' ->
  filled_positive b'.
Proof.
  induction ops as [|o ops IH]; intros b b' Hinv Hfp Hmp Hpos Hrun; simpl in Hrun.
  - injection Hrun as <-. exact Hfp.
  - inv_bind Hrun. apply Forall_cons in Hpos as [Ho Hpos].
    eapply (IH x b'); eauto using apply_operation_inv, apply_operation_filled_positive,
      apply_operation_max_priority_pos.
Qed.

(** Proportional sampling never returns the last filled slot. *)
Lemma sample_proportional_below_last (b : PrioritizedReplayBuffer) (random : list Q)
    (idx : list Z) :
  prb_inv b -> filled_positive b ->
  (forall i, 0 <= i < _capacity (_it_sum b) -> (0 <= leaf (_it_sum b) i)%Q) ->
  (forall u, u ∈ random -> (0 <= u < 1)%Q) ->
  _sample_proportional b random = Ok idx ->
  exists len, PrioritizedReplayBuffer_len b = Ok len /\
              forall i, i ∈ idx -> 0 <= i < len - 1.
Proof.
  intros Hinv Hfp Hnonneg Hrand Hprop.
  unfold _sample_proportional in Hprop.
  apply bind_Ok in Hprop as (len & Hlen & Hprop).
  destruct (storage_len_Some _ _ Hlen) as (st & Hst & ->).
  apply bind_Ok in Hprop as (tp & Htp & Hprop). cbv zeta in Hprop.
  pose proof (pi_nonempty b Hinv st Hst) as Hlen1.
  pose proof (pi_storage b Hinv) as Hsinv. rewrite Hst in Hsinv. destruct Hsinv as [Hsinv Hsz].
  pose proof (si_filled st Hsinv) as Hfill.
  pose proof (pi_size_cap b Hinv) as Hsc.
  assert (Hlen2 : 2 <= _max_filled st).
  { destruct (Z.eq_dec (_max_filled st) 1) as [Heq|]; [|lia].
    rewrite Heq in Htp. simpl in Htp.
    rewrite sum_empty_prefix in Htp by lia. discriminate. }
  pose proof (pi_sum_wf b Hinv) as Hwfs. pose proof Hwfs as (h & Hcap & Hvlen).
  destruct (sum_prefix (_it_sum b) h Hcap Hvlen (pi_sum_op b Hinv) (pi_sum_inv b Hinv)
              (_max_filled st - 1)) as (tp' & Htp' & Htpsum); [lia|].
  rewrite Htp' in Htp. injection Htp as ->.
  pose proof (leaves_nonneg _ Hwfs Hnonneg) as Hnn.
  pose proof (root_is_sum_of_leaves _ Hwfs (pi_sum_op b Hinv) (pi_sum_inv b Hinv)) as Hroot.
  assert (Hfirst : (cumsum (_it_sum b) 1 == leaf (_it_sum b) 0)%Q).
  { pose proof (cumsum_node (_it_sum b) h Hcap Hvlen (pi_sum_op b Hinv) (pi_sum_inv b Hinv)
                  0%nat h (_capacity (_it_sum b)) (Nat.add_0_r h)) as Hnode.
    change (2 ^ Z.of_nat 0) with 1 in Hnode. rewrite !Z.mul_1_r in Hnode.
    replace (_capacity (_it_sum b) + 1 - _capacity (_it_sum b)) with 1 in Hnode by lia.
    replace (_capacity (_it_sum b) - _capacity (_it_sum b)) with 0 in Hnode by lia.
    change (cumsum (_it_sum b) 0) with 0%Q in Hnode.
    unfold leaf. rewrite Z.add_0_r. rewrite Hnode; [ring|].
    rewrite <- Hcap. lia. }
  assert (Htppos : (0 < tp)%Q).
  { rewrite Htpsum.
    eapply Qlt_le_trans; [|apply (cumsum_mono _ 1 (_max_filled st - 1) Hnn); lia].
    rewrite Hfirst. apply (Hfp st Hst). lia. }
  assert (Htple : (tp <= nodeval (_value (_it_sum b)) 1)%Q).
  { rewrite Htpsum, Hroot, <- (cumsum_capacity _ Hwfs). apply cumsum_mono; [exact Hnn | lia]. }
  assert (Hrne : random <> []).
  { intros ->. simpl in Hprop. discriminate. }
  destruct (find_prefixsum_idx_ok (_it_sum b) h (map (fun u => (u * tp)%Q) random)
              Hcap Hvlen (pi_sum_op b Hinv) (pi_sum_inv b Hinv)) as [Hfind Hspec].
  { lia. }
  { intros Hnil. apply fmap_nil_inv in Hnil. contradiction. }
  { intros x Hx. apply list_elem_of_fmap in Hx as (u & -> & Hu).
    specialize (Hrand u Hu). split; nra. }
  rewrite Hfind in Hprop. injection Hprop as <-.
  exists (_max_filled st). split; [unfold PrioritizedReplayBuffer_len; rewrite Hst; reflexivity|].
  intros i Hi. apply list_elem_of_fmap in Hi as (x & -> & Hx).
  destruct (Hspec x Hx) as (Hb & Hlo & _ & _).
  split; [lia|].
  apply list_elem_of_fmap in Hx as (u & -> & Hu). specialize (Hrand u Hu).
  destruct (Z_lt_dec (found_leaf (_it_sum b) h (u * tp)) (_max_filled st - 1)) as [|Hge];
    [assumption|].
  exfalso.
  pose proof (cumsum_mono (_it_sum b) (_max_filled st - 1)
                (found_leaf (_it_sum b) h (u * tp)) Hnn ltac:(lia)) as Hmono.
  rewrite <- Htpsum in Hmono. nra.
Qed.
End FilledPositive.

(** ** The power function at integer exponents *)

Lemma pow_int_pos (x e : Q) : (0 < x)%Q -> (0 < pow_int x e)%Q.
Proof. intros Hx. unfold pow_int. apply Qpower_0_lt. exact Hx. Qed.



(** ** Example data *)

Lemma example_tree_wf : tree_wf example_tree.
Proof. exists 2%nat. split; reflexivity. Qed.

Lemma example_tree_inv : tree_inv example_tree.
Proof.
  intros n Hn. simpl in Hn.
  assert (Hc : n = 1 \/ n = 2 \/ n = 3) by lia.
  destruct Hc as [->|[->| ->]]; reflexivity.
Qed.


(** ** Evaluations of the code that part from the specification *)

(** C3: the mass sampled by [_sample_proportional] is [sum(0, len() - 1)],
    and [reduce] excludes its end index, so the last filled slot is left out.
    With two stored transitions of priority 1 the total mass is 2 but the
    sampled interval is [[0, 1)]: the draw 0.99 yields slot 0, whereas over
    the full mass it would yield slot 1.  With one stored transition the
    query is empty and the recursion does not end.  On every reachable
    buffer, whatever is drawn, every sampled index lies below [len() - 1]. *)
Theorem C3_sample_mass_excludes_last_slot :
  (exists b0 b1 b2 : PrioritizedReplayBuffer,
     PrioritizedReplayBuffer_init 4 1 1 = Ok b0 /\
     run pow_int b0 [Push (One example_transition) None] = Ok b1 /\
     run pow_int b1 [Push (One example_transition) None] = Ok b2 /\
     PrioritizedReplayBuffer_len b2 = Ok 2 /\
     sum (_it_sum b2) 0 None = Ok 2%Q /\
     sum (_it_sum b2) 0 (Some (2 - 1)) = Ok 1%Q /\
     _sample_proportional b2 [99 # 100] = Ok [0] /\
     find_prefixsum_idx (_it_sum b2) [(99 # 100) * 2]%Q = Ok [1] /\
     PrioritizedReplayBuffer_len b1 = Ok 1 /\
     _sample_proportional b1 [99 # 100] = Err RecursionError) /\
  (forall (fpow : Q -> Q -> Q) (n : Z) (a be : Q) (ops : list operation)
          (b0 b : PrioritizedReplayBuffer) (random : list Q) (idx : list Z),
     (forall x e : Q, (0 < x)%Q -> (0 < fpow x e)%Q) ->
     0 < n ->
     PrioritizedReplayBuffer_init n a be = Ok b0 ->
     push_priorities_nonneg ops ->
     run fpow b0 ops = Ok b ->
     (forall u, u ∈ random -> (0 <= u < 1)%Q) ->
     _sample_proportional b random = Ok idx ->
     exists len, PrioritizedReplayBuffer_len b = Ok len /\
                 forall i, i ∈ idx -> 0 <= i < len - 1).
Proof.
  split.
  - do 3 eexists.
    split; [vm_compute; reflexivity|].
    split; [vm_compute; reflexivity|].
    split; [vm_compute; reflexivity|].
    repeat split; vm_compute; reflexivity.
  - intros fpow n a be ops b0 b random idx Hpowpos Hn Hinit Hnonneg Hrun Hrand Hprop.
    destruct (PrioritizedReplayBuffer_init_inv n a be b0 Hn Hinit)
      as (Hinv0 & Hst0 & _ & _ & _ & Hmp0 & Hleaf0).
    pose proof (run_inv fpow ops b0 b Hinv0 Hrun) as Hinv.
    assert (Hmp : (0 < _max_priority b0)%Q) by (rewrite Hmp0; reflexivity).
    assert (Hsync : leaf_sync b).
    { apply (run_sync fpow Hpowpos ops b0 b); auto.
      intros i Hi. left. apply Hleaf0, Hi. }
    assert (Hfp : filled_positive b).
    { apply (run_filled_positive fpow Hpowpos ops b0 b); auto.
      intros st Hst. rewrite Hst0 in Hst. discriminate. }
    apply (sample_proportional_below_last b random idx Hinv Hfp); [|exact Hrand|exact Hprop].
    intros i Hi.
    destruct (Hsync i Hi) as [[-> _]|[Hlt _]]; [apply Qle_refl | apply Qlt_le_weak, Hlt].
Qed.

(** C5: [ReplayBuffer.push] returns the assigned slots
    [[w, ..., w+N-1] mod capacity] on every buffer reached by pushes, but
    [PrioritizedReplayBuffer.push] has no return statement: whenever it
    returns, its value is [None]. *)
Theorem C5_push_return_values :
  (exists b', ReplayBuffer_push (ReplayBuffer_init 3) (One example_transition)
              = Ok (b', [0])) /\
  (forall (capacity : Z) (es : list experience) (b : ReplayBuffer) Rs (e : experience),
     0 < capacity ->
     push_all (ReplayBuffer_init capacity) es = Ok (b, Rs) ->
     exists b',
       ReplayBuffer_push b e
       = Ok (b', slots (cursor (rb_storage b)) (pushed e) capacity)) /\
  (forall (fpow : Q -> Q -> Q) (b : PrioritizedReplayBuffer) (e : experience)
          (priorities : option Q),
     match PrioritizedReplayBuffer_push fpow b e priorities with
     | Ok (_, ret) => ret = None
     | Err _ => True
     end) /\
  (exists b0 b',
     PrioritizedReplayBuffer_init 3 1 1 = Ok b0 /\
     PrioritizedReplayBuffer_push pow_int b0 (One example_transition) None
     = Ok (b', None)).
Proof.
  split; [|split; [|split]].
  - eexists. vm_compute. reflexivity.
  - intros capacity es b Rs e Hc Hrun.
    destruct (push_all_inv es (ReplayBuffer_init capacity) b Rs) as [Hm Hinv];
      [exact Hc | exact I | exact Hrun |].
    simpl in Hm.
    destruct (ReplayBuffer_push_ok b e) as (b' & Hpush & _); [lia | exact Hinv |].
    rewrite Hm in Hpush. eauto.
  - intros fpow b e p. unfold PrioritizedReplayBuffer_push.
    destruct (storage_push _ _ _) as [q|]; simpl; [|exact I].
    destruct (SegmentTree_setitem (_it_sum b) _ _); simpl; [|exact I].
    destruct (SegmentTree_setitem (_it_min b) _ _); simpl; [reflexivity | exact I].
  - do 2 eexists. split; vm_compute; reflexivity.
Qed.


(** C6: [update_priorities] raises [max_priority] to the largest priority
    it is given, but [push] never assigns it: after a push with the explicit
    priority 5 on a fresh buffer [max_priority] is still 1, and a later push
    without priorities writes [1 ** alpha], below the priority 5 that the
    tree already holds. *)
Theorem C6_push_keeps_max_priority :
  (exists (b0 b1 b2 : PrioritizedReplayBuffer) ret1 ret2,
     PrioritizedReplayBuffer_init 4 1 1 = Ok b0 /\
     PrioritizedReplayBuffer_push pow_int b0 (One example_transition) (Some 5%Q)
     = Ok (b1, ret1) /\
     (_max_priority b0 < 5)%Q /\
     _max_priority b1 = 1%Q /\
     leaf (_it_sum b1) 0 = 5%Q /\
     PrioritizedReplayBuffer_push pow_int b1 (One example_transition) None
     = Ok (b2, ret2) /\
     leaf (_it_sum b2) 1 = 1%Q) /\
  (forall (fpow : Q -> Q -> Q) (b : PrioritizedReplayBuffer) (e : experience)
          (priorities : option Q),
     match PrioritizedReplayBuffer_push fpow b e priorities with
     | Ok (b', _) => _max_priority b' = _max_priority b
     | Err _ => True
     end) /\
  (exists (b0 b1 b2 : PrioritizedReplayBuffer) ret,
     PrioritizedReplayBuffer_init 4 1 1 = Ok b0 /\
     PrioritizedReplayBuffer_push pow_int b0 (One example_transition) None
     = Ok (b1, ret) /\
     update_priorities pow_int b1 [0] [5%Q] = Ok b2 /\
     _max_priority b2 = 5%Q).
Proof.
  split; [|split].
  - do 5 eexists.
    split; [vm_compute; reflexivity|].
    split; [vm_compute; reflexivity|].
    split; [reflexivity|]. split; [reflexivity|]. split; [reflexivity|].
    split; [vm_compute; reflexivity|]. reflexivity.
  - intros fpow b e p. unfold PrioritizedReplayBuffer_push.
    destruct (storage_push _ _ _) as [q|]; simpl; [|exact I].
    destruct (SegmentTree_setitem (_it_sum b) _ _); simpl; [|exact I].
    destruct (SegmentTree_setitem (_it_min b) _ _); simpl; [reflexivity | exact I].
  - do 4 eexists.
    split; [vm_compute; reflexivity|].
    split; [vm_compute; reflexivity|].
    split; [vm_compute; reflexivity|]. reflexivity.
Qed.

(** * Further properties of the code *)

(** ** [unique] on sorted arrays *)

Lemma keep_run_ends_sorted (l : list Z) :
  StronglySorted Z.le l -> StronglySorted Z.lt (keep_run_ends l).
Proof.
  induction 1 as [|x l Hs IH Hall]; [constructor|].
  destruct l as [|y l']; [repeat constructor|].
  change (keep_run_ends (x :: y :: l'))
    with (if x =? y then keep_run_ends (y :: l') else x :: keep_run_ends (y :: l')).
  destruct (Z.eqb_spec x y) as [->|Hne]; [exact IH|].
  constructor; [exact IH|].
  apply Forall_forall. intros z Hz. apply (proj1 (keep_run_ends_elem _ _)) in Hz.
  pose proof (proj1 (Forall_forall _ _) Hall) as Hall'.
  assert (Hxy : x <= y) by (apply Hall'; left).
  assert (Hyz : y <= z).
  { apply elem_of_cons in Hz as [->|Hz]; [lia|].
    inversion Hs as [|? ? _ Hy]; subst.
    apply (proj1 (Forall_forall _ _) Hy). exact Hz. }
  lia.
Qed.

Lemma StronglySorted_lt_NoDup (l : list Z) : StronglySorted Z.lt l -> NoDup l.
Proof.
  induction 1 as [|x l _ IH Hall]; constructor; [|exact IH].
  intros Hx. pose proof (proj1 (Forall_forall _ _) Hall x Hx). lia.
Qed.

(** X1: on a non-empty array sorted in non-decreasing order [unique] returns
    the strictly increasing array of its distinct values: no value is
    repeated and the values are exactly those of the input. *)
Theorem unique_sorted (sorted_array : list Z) :
  sorted_array <> [] ->
  Sorted Z.le sorted_array ->
  exists u,
    unique sorted_array = Ok u /\
    StronglySorted Z.lt u /\ NoDup u /\
    (forall x, x ∈ u <-> x ∈ sorted_array).
Proof.
  intros Hne Hs. exists (keep_run_ends sorted_array).
  split; [apply unique_ok, Hne|].
  assert (Hss : StronglySorted Z.lt (keep_run_ends sorted_array)).
  { apply keep_run_ends_sorted, Sorted_StronglySorted; [|exact Hs].
    intros a b c. apply Z.le_trans. }
  split; [exact Hss|]. split; [apply StronglySorted_lt_NoDup, Hss|].
  intros x. apply keep_run_ends_elem.
Qed.

(** ** Construction *)

Lemma land_pred_pow2 (c : Z) :
  0 < c -> Z.land c (c - 1) = 0 -> exists h : nat, c = 2 ^ Z.of_nat h.
Proof.
  intros Hc Hland.
  destruct (Z.log2_spec c Hc) as [Hlo Hhi].
  pose proof (Z.log2_nonneg c) as Hnn.
  exists (Z.to_nat (Z.log2 c)). rewrite Z2Nat.id by exact Hnn.
  destruct (Z.eq_dec c (2 ^ Z.log2 c)) as [|Hne]; [assumption|].
  exfalso.
  assert (Hlog : Z.log2 (c - 1) = Z.log2 c).
  { apply Z.log2_unique; [exact Hnn | lia]. }
  assert (Hb1 : Z.testbit c (Z.log2 c) = true) by (apply Z.bit_log2; exact Hc).
  assert (Hb2 : Z.testbit (c - 1) (Z.log2 c) = true).
  { rewrite <- Hlog. apply Z.bit_log2. lia. }
  assert (Hb : Z.testbit (Z.land c (c - 1)) (Z.log2 c) = true)
    by (rewrite Z.land_spec, Hb1, Hb2; reflexivity).
  rewrite Hland, Z.bits_0 in Hb. discriminate.
Qed.

(** X2: [SegmentTree.__init__] succeeds exactly when the capacity is a
    power of two [2 ^ h] and fails its assertion otherwise; the new tree has
    [2 * capacity] entries, all equal to the neutral element, and satisfies
    the node invariant when [operation(neutral, neutral) = neutral]. *)
Theorem SegmentTree_init_power_of_two {A : Type} `{Inhabited A} (capacity : Z)
    (operation : A -> A -> A) (neutral : A) :
  ((exists h : nat, capacity = 2 ^ Z.of_nat h) ->
   exists t, SegmentTree_init capacity operation neutral = Ok t /\
             _capacity t = capacity /\
             Z.of_nat (length (_value t)) = 2 * capacity /\
             Forall (fun x => x = neutral) (_value t) /\
             (operation neutral neutral = neutral -> tree_inv t)) /\
  ((forall h : nat, capacity <> 2 ^ Z.of_nat h) ->
   SegmentTree_init capacity operation neutral
   = Err (AssertionError capacity_power_of_two)).
Proof.
  split.
  - intros [h ->]. rewrite SegmentTree_init_pow2. eexists. split; [reflexivity|].
    simpl. assert (0 < 2 ^ Z.of_nat h) by (apply Z.pow_pos_nonneg; lia).
    split; [reflexivity|]. split; [rewrite length_replicate; lia|].
    split; [apply Forall_replicate; reflexivity|].
    intros Hop. apply (replicate_tree_inv h operation neutral Hop).
  - intros Hno. unfold SegmentTree_init.
    destruct (Z.ltb_spec 0 capacity) as [Hpos|]; [|reflexivity].
    destruct (Z.eqb_spec (Z.land capacity (capacity - 1)) 0) as [Hl|]; [|reflexivity].
    destruct (land_pred_pow2 capacity Hpos Hl) as [h Hh].
    exfalso. exact (Hno h Hh).
Qed.

(** ** [reduce] *)



(** An empty or reversed query never meets a matching node. *)
Lemma _reduce_helper_reversed {A} (self : SegmentTree A) (start end_ : Z) (depth : nat) :
  end_ < start ->
  forall node node_start node_end : Z,
    (node_start <= node_end \/ (node_start = node_end + 1 /\ node_end < end_)) ->
    _reduce_helper depth self start end_ node node_start node_end = Err RecursionError.
Proof.
  intros Hrev. induction depth as [|depth IH]; intros node ns ne Hrange; [reflexivity|].
  cbn [_reduce_helper]. cbv zeta.
  assert (Hne : (start =? ns) && (end_ =? ne) = false).
  { apply andb_false_iff.
    destruct (Z.eqb_spec start ns); [|auto].
    destruct (Z.eqb_spec end_ ne); [|auto]. lia. }
  rewrite Hne.
  assert (Hmid : ns <= ne -> ns <= (ns + ne) / 2 <= ne)
    by (intros; Z.to_euclidean_division_equations; lia).
  assert (Hmid' : ns = ne + 1 -> (ns + ne) / 2 = ne)
    by (intros; Z.to_euclidean_division_equations; lia).
  destruct (Z.leb_spec end_ ((ns + ne) / 2)) as [Hel|Hel].
  - apply IH. lia.
  - destruct (Z.leb_spec ((ns + ne) / 2 + 1) start) as [Hsr|Hsr]; [|lia].
    apply IH. lia.
Qed.

(** X5: [reduce(start, end)] on an empty or reversed range ([end <= start],
    after a negative end is shifted by the capacity) does not return the
    neutral element: on every tree the recursion never meets a matching node
    and ends in [RecursionError]. *)
Theorem reduce_empty_range {A : Type} (t : SegmentTree A) (start e : Z) :
  (if e <? 0 then e + _capacity t else e) <= start ->
  reduce t start (Some e) = Err RecursionError.
Proof.
  intros He. unfold reduce.
  destruct (Z.le_gt_cases (_capacity t) 0) as [Hc|Hc].
  - unfold recursion_limit. replace (Z.to_nat (2 * _capacity t)) with O by lia.
    reflexivity.
  - apply _reduce_helper_reversed; lia.
Qed.

(** ** [reduce] on a range, for any way of valuing ranges *)

Section ReduceSpec.
Context {A : Type} `{Inhabited A}.
Variable self : SegmentTree A.
Variable h : nat.
Hypothesis Hcap : _capacity self = 2 ^ Z.of_nat h.
Hypothesis Hlen : Z.of_nat (length (_value self)) = 2 * _capacity self.

(** [P a b x]: [x] is a value of the leaves [[a, b]]. *)
Variable P : Z -> Z -> A -> Prop.
Hypothesis P_node : forall (j k : nat) (n : Z),
  (k + j = h)%nat -> 2 ^ Z.of_nat k <= n < 2 * 2 ^ Z.of_nat k ->
  P (n * 2 ^ Z.of_nat j - _capacity self) ((n + 1) * 2 ^ Z.of_nat j - _capacity self - 1)
    (nodeval (_value self) n).
Hypothesis P_op : forall (a m b : Z) (x y : A),
  a <= m -> m < b -> P a m x -> P (m + 1) b y -> P a b (_operation self x y).

Let cap := _capacity self.

Lemma _reduce_helper_spec (j : nat) : forall (k depth : nat) (n start end_ : Z),
  (k + j = h)%nat ->
  (j < depth)%nat ->
  2 ^ Z.of_nat k <= n < 2 * 2 ^ Z.of_nat k ->
  n * 2 ^ Z.of_nat j - cap <= start ->
  start <= end_ ->
  end_ <= (n + 1) * 2 ^ Z.of_nat j - cap - 1 ->
  exists s,
    _reduce_helper depth self start end_ n
      (n * 2 ^ Z.of_nat j - cap) ((n + 1) * 2 ^ Z.of_nat j - cap - 1) = Ok s /\
    P start end_ s.
Proof.
  induction j as [|j IH]; intros k depth n start end_ Hk Hd Hn Hlo Hse Hhi;
    (destruct depth as [|depth]; [lia|]).
  - pose proof (P_node 0%nat k n Hk Hn) as Hnode. fold cap in Hnode.
    change (2 ^ Z.of_nat 0) with 1 in *. rewrite !Z.mul_1_r in *.
    replace k with h in Hn by lia.
    assert (start = n - cap) by lia. assert (end_ = n - cap) by lia. subst start end_.
    cbn [_reduce_helper].
    replace (n + 1 - cap - 1) with (n - cap) in * by lia. rewrite Z.eqb_refl. simpl.
    rewrite getitem_ok by (unfold in_range; subst cap; lia).
    eexists. split; [reflexivity|]. exact Hnode.
  - assert (Hpk : 2 ^ Z.of_nat (S k) = 2 * 2 ^ Z.of_nat k)
      by (rewrite Nat2Z.inj_succ, Z.pow_succ_r by lia; reflexivity).
    assert (Hpj : 2 ^ Z.of_nat (S j) = 2 * 2 ^ Z.of_nat j)
      by (rewrite Nat2Z.inj_succ, Z.pow_succ_r by lia; reflexivity).
    assert (Hpos : 0 < 2 ^ Z.of_nat k) by (apply Z.pow_pos_nonneg; lia).
    assert (Hposj : 0 < 2 ^ Z.of_nat j) by (apply Z.pow_pos_nonneg; lia).
    assert (Hle : 2 ^ Z.of_nat (S k) <= 2 ^ Z.of_nat h)
      by (apply Z.pow_le_mono_r; lia).
    pose proof (P_node (S j) k n Hk Hn) as Hnode. fold cap in Hnode.
    set (p := 2 ^ Z.of_nat j) in *.
    set (ns := n * 2 ^ Z.of_nat (S j) - cap) in *.
    set (ne := (n + 1) * 2 ^ Z.of_nat (S j) - cap - 1) in *.
    assert (Hns : ns = 2 * n * p - cap) by (subst ns; rewrite Hpj; ring).
    assert (Hne : ne = ns + 2 * p - 1) by (subst ns ne; rewrite Hpj; ring).
    assert (Hmid : (ns + ne) / 2 = ns + p - 1).
    { rewrite Hne. Z.to_euclidean_division_equations. lia. }
    assert (Hl_lo : 2 * n * p - cap = ns) by lia.
    assert (Hl_hi : (2 * n + 1) * p - cap - 1 = ns + p - 1) by lia.
    assert (Hr_lo : (2 * n + 1) * p - cap = ns + p - 1 + 1) by lia.
    assert (Hr_hi : (2 * n + 1 + 1) * p - cap - 1 = ne) by lia.
    cbn [_reduce_helper]. cbv zeta. rewrite Hmid.
    destruct ((start =? ns) && (end_ =? ne)) eqn:Ematch.
    + apply andb_true_iff in Ematch as [E1 E2].
      apply Z.eqb_eq in E1, E2. subst start end_.
      rewrite getitem_ok by (unfold in_range; subst cap; lia).
      eexists. split; [reflexivity|]. exact Hnode.
    + destruct (Z.leb_spec end_ (ns + p - 1)) as [Hel|Hel].
      * destruct (IH (S k) depth (2 * n) start end_) as (s & Hs & Hsum); try lia.
        rewrite Hl_lo, Hl_hi in Hs. eauto.
      * destruct (Z.leb_spec (ns + p - 1 + 1) start) as [Hsr|Hsr].
        -- destruct (IH (S k) depth (2 * n + 1) start end_) as (s & Hs & Hsum); try lia.
           rewrite Hr_lo, Hr_hi in Hs. eauto.
        -- destruct (IH (S k) depth (2 * n) start (ns + p - 1)) as (s1 & Hs1 & Hsum1);
             try lia.
           destruct (IH (S k) depth (2 * n + 1) (ns + p - 1 + 1) end_)
             as (s2 & Hs2 & Hsum2); try lia.
           rewrite Hl_lo, Hl_hi in Hs1. rewrite Hr_lo, Hr_hi in Hs2.
           rewrite Hs1. simpl. rewrite Hs2. simpl.
           eexists. split; [reflexivity|].
           apply (P_op start (ns + p - 1) end_); [lia | lia | exact Hsum1 | exact Hsum2].
Qed.

Lemma reduce_spec (start e : Z) :
  0 <= start < e -> e <= cap ->
  exists s, reduce self start (Some e) = Ok s /\ P start (e - 1) s.
Proof.
  intros Hse Hec. unfold reduce, recursion_limit. fold cap.
  destruct (Z.ltb_spec e 0); [lia|].
  assert (Hpos : 0 < 2 ^ Z.of_nat h) by (apply Z.pow_pos_nonneg; lia).
  pose proof (pow2_gt_lin h) as Hlin.
  destruct (_reduce_helper_spec h 0%nat (Z.to_nat (2 * cap)) 1 start (e - 1))
    as (s & Hs & Hsum); try (simpl; subst cap; lia).
  replace (1 * 2 ^ Z.of_nat h - cap) with 0 in Hs by (subst cap; lia).
  replace ((1 + 1) * 2 ^ Z.of_nat h - cap - 1) with (cap - 1) in Hs by (subst cap; lia).
  exists s. split; [exact Hs | exact Hsum].
Qed.
End ReduceSpec.

(** X4: on a min tree that satisfies the node invariant, [min(start, end)]
    with [0 <= start < end <= capacity] returns the smallest of the leaves
    [start, ..., end - 1]: it is below each of them and equal to one of
    them. *)
Theorem min_range (t : MinSegmentTree) (start e : Z) :
  tree_wf t -> _operation t = np_minimum -> tree_inv t ->
  0 <= start < e -> e <= _capacity t ->
  exists m,
    min t start (Some e) = Ok m /\
    (forall i, start <= i < e -> efle m (leaf t i)) /\
    (exists i, start <= i < e /\ m = leaf t i).
Proof.
  intros (h & Hcap & Hlen) Hop Hinv Hse Hec.
  assert (Heq : forall n : nat, (1 <= n < 2 ^ h)%nat ->
            _value t !!! n
            = np_minimum (_value t !!! (2 * n)%nat) (_value t !!! (2 * n + 1)%nat)).
  { intros n Hn. rewrite <- Hop. apply (tree_equations_nat t h Hcap Hinv n Hn). }
  destruct (reduce_spec t h Hcap Hlen (min_of_leaves t)) with (start := start) (e := e)
    as (m & Hm & Hlb & (i & Hi & Hat)); try lia.
  - intros j k n Hk Hn.
    assert (Hpk : 0 < 2 ^ Z.of_nat k) by (apply Z.pow_pos_nonneg; lia).
    assert (Hpj : 0 < 2 ^ Z.of_nat j) by (apply Z.pow_pos_nonneg; lia).
    assert (Hph : 2 ^ Z.of_nat h = 2 ^ Z.of_nat k * 2 ^ Z.of_nat j)
      by (rewrite <- Z.pow_add_r by lia; f_equal; lia).
    destruct (min_node_range (_value t) h Heq j k (Z.to_nat n) Hk)
      as [Hlb (q & Hq & Hat)].
    { rewrite <- (Nat2Z.id (2 ^ k)). rewrite Nat2Z.inj_pow. simpl. lia. }
    assert (Hjn : Z.of_nat (2 ^ j) = 2 ^ Z.of_nat j) by (rewrite Nat2Z.inj_pow; reflexivity).
    split.
    + intros i Hi. unfold leaf, nodeval. apply Hlb. nia.
    + exists (Z.of_nat q - _capacity t). split; [nia|].
      unfold leaf, nodeval. rewrite Hat. f_equal. lia.
  - intros a m b x y Ham Hmb [Hlx (ix & Hix & Hax)] [Hly (iy & Hiy & Hay)].
    rewrite Hop. destruct (np_minimum_spec x y) as (Hl & Hr & Hcases). split.
    + intros i Hi. destruct (Z.le_gt_cases i m).
      * eapply efle_trans; [exact Hl|]. apply Hlx. lia.
      * eapply efle_trans; [exact Hr|]. apply Hly. lia.
    + destruct Hcases as [-> | ->].
      * exists ix. split; [lia | exact Hax].
      * exists iy. split; [lia | exact Hay].
  - exists m. split; [exact Hm|]. split.
    + intros j Hj. apply Hlb. lia.
    + exists i. split; [lia | exact Hat].
Qed.

Section ReduceOverrun.
Context {A : Type} `{Inhabited A}.
Variable self : SegmentTree A.
Variable h : nat.
Hypothesis Hcap : _capacity self = 2 ^ Z.of_nat h.
Hypothesis Hlen : Z.of_nat (length (_value self)) = 2 * _capacity self.

Let cap := _capacity self.

(** A query that starts inside the range of node [n] and ends beyond it
    ends up reading the array past its end. *)
Lemma _reduce_helper_overrun (j : nat) : forall (k depth : nat) (n start end_ : Z),
  (k + j = h)%nat ->
  (j + 1 < depth)%nat ->
  2 ^ Z.of_nat k <= n < 2 * 2 ^ Z.of_nat k ->
  n * 2 ^ Z.of_nat j - cap <= start <= (n + 1) * 2 ^ Z.of_nat j - cap - 1 ->
  (n + 1) * 2 ^ Z.of_nat j - cap - 1 < end_ ->
  _reduce_helper depth self start end_ n
    (n * 2 ^ Z.of_nat j - cap) ((n + 1) * 2 ^ Z.of_nat j - cap - 1) = Err IndexError.
Proof.
  induction j as [|j IH]; intros k depth n start end_ Hk Hd Hn Hs He;
    (destruct depth as [|depth]; [lia|]).
  - change (2 ^ Z.of_nat 0) with 1 in *. rewrite !Z.mul_1_r in *.
    replace k with h in Hn by lia.
    assert (start = n - cap) by lia. subst start.
    replace (n + 1 - cap - 1) with (n - cap) in * by lia.
    destruct depth as [|depth]; [lia|].
    cbn [_reduce_helper]. cbv zeta.
    replace ((n - cap + (n - cap)) / 2) with (n - cap)
      by (Z.to_euclidean_division_equations; lia).
    rewrite !Z.eqb_refl.
    destruct (Z.eqb_spec end_ (n - cap)); [lia|]. simpl.
    destruct (Z.leb_spec end_ (n - cap)); [lia|].
    destruct (Z.leb_spec (n - cap + 1) (n - cap)); [lia|].
    unfold getitem, np_index.
    destruct (Z.leb_spec 0 (2 * n)); [|subst cap; lia].
    destruct (Z.ltb_spec (2 * n) (Z.of_nat (length (_value self)))); [subst cap; lia|].
    reflexivity.
  - assert (Hpk : 2 ^ Z.of_nat (S k) = 2 * 2 ^ Z.of_nat k)
      by (rewrite Nat2Z.inj_succ, Z.pow_succ_r by lia; reflexivity).
    assert (Hpj : 2 ^ Z.of_nat (S j) = 2 * 2 ^ Z.of_nat j)
      by (rewrite Nat2Z.inj_succ, Z.pow_succ_r by lia; reflexivity).
    assert (Hpos : 0 < 2 ^ Z.of_nat k) by (apply Z.pow_pos_nonneg; lia).
    assert (Hposj : 0 < 2 ^ Z.of_nat j) by (apply Z.pow_pos_nonneg; lia).
    assert (Hle : 2 ^ Z.of_nat (S k) <= 2 ^ Z.of_nat h)
      by (apply Z.pow_le_mono_r; lia).
    set (p := 2 ^ Z.of_nat j) in *.
    set (ns := n * 2 ^ Z.of_nat (S j) - cap) in *.
    set (ne := (n + 1) * 2 ^ Z.of_nat (S j) - cap - 1) in *.
    assert (Hns : ns = 2 * n * p - cap) by (subst ns; rewrite Hpj; ring).
    assert (Hne : ne = ns + 2 * p - 1) by (subst ns ne; rewrite Hpj; ring).
    assert (Hmid : (ns + ne) / 2 = ns + p - 1).
    { rewrite Hne. Z.to_euclidean_division_equations. lia. }
    assert (Hl_lo : 2 * n * p - cap = ns) by lia.
    assert (Hl_hi : (2 * n + 1) * p - cap - 1 = ns + p - 1) by lia.
    assert (Hr_lo : (2 * n + 1) * p - cap = ns + p - 1 + 1) by lia.
    assert (Hr_hi : (2 * n + 1 + 1) * p - cap - 1 = ne) by lia.
    cbn [_reduce_helper]. cbv zeta. rewrite Hmid.
    replace ((start =? ns) && (end_ =? ne)) with false
      by (symmetry; apply andb_false_iff; right; apply Z.eqb_neq; lia).
    destruct (Z.leb_spec end_ (ns + p - 1)) as [Hel|Hel]; [lia|].
    destruct (Z.leb_spec (ns + p - 1 + 1) start) as [Hsr|Hsr].
    + pose proof (IH (S k) depth (2 * n + 1) start end_) as Hr.
      rewrite Hr_lo, Hr_hi in Hr. apply Hr; lia.
    + destruct (_reduce_helper_spec self h Hcap Hlen (fun _ _ _ => True)
                  (fun _ _ _ _ _ => I) (fun _ _ _ _ _ _ _ _ _ => I) j (S k) depth (2 * n) start (ns + p - 1))
        as (s1 & Hs1 & _); try (fold cap; fold p; lia).
      fold cap in Hs1. fold p in Hs1. rewrite Hl_lo, Hl_hi in Hs1. rewrite Hs1. simpl.
      pose proof (IH (S k) depth (2 * n + 1) (ns + p - 1 + 1) end_) as Hr.
      rewrite Hr_lo, Hr_hi in Hr. rewrite Hr by lia. reflexivity.
Qed.
End ReduceOverrun.

(** X6: [reduce(start, end)] with [start] inside the array and [end] beyond
    the capacity reads the node array past its end and raises
    [IndexError]. *)
Theorem reduce_beyond_capacity {A : Type} (t : SegmentTree A) (start e : Z) :
  tree_wf t ->
  0 <= start < _capacity t ->
  _capacity t < e ->
  reduce t start (Some e) = Err IndexError.
Proof.
  intros (h & Hcap & Hlen) Hs He.
  pose (HA := populate (neutral_element t) : Inhabited A).
  unfold reduce, recursion_limit.
  destruct (Z.ltb_spec e 0); [lia|].
  assert (Hpos : 0 < 2 ^ Z.of_nat h) by (apply Z.pow_pos_nonneg; lia).
  pose proof (pow2_gt_lin h) as Hlin.
  pose proof (_reduce_helper_overrun t h Hcap Hlen h 0%nat (Z.to_nat (2 * _capacity t))
                1 start (e - 1)) as Hr.
  replace (1 * 2 ^ Z.of_nat h - _capacity t) with 0 in Hr by lia.
  replace ((1 + 1) * 2 ^ Z.of_nat h - _capacity t - 1) with (_capacity t - 1) in Hr by lia.
  apply Hr; simpl; lia.
Qed.

(** ** [__getitem__] *)

(** X7: [SegmentTree.__getitem__] on an index array fails its first
    assertion when some index is [>= capacity], its second assertion when
    all indices are below the capacity and some index is negative, and
    raises [ValueError] on the empty array; on a non-empty array of indices
    in [[0, capacity)] it returns the leaves at those indices, in order. *)
Theorem SegmentTree_getitem_checks {A : Type} `{Inhabited A} (t : SegmentTree A)
    (idx : list Z) :
  tree_wf t ->
  ((exists i, i ∈ idx /\ _capacity t <= i) ->
   SegmentTree_getitem t idx = Err (AssertionError getitem_max_lt_capacity)) /\
  ((forall i, i ∈ idx -> i < _capacity t) -> (exists i, i ∈ idx /\ i < 0) ->
   SegmentTree_getitem t idx = Err (AssertionError getitem_min_nonneg)) /\
  (idx <> [] -> (forall i, i ∈ idx -> 0 <= i < _capacity t) ->
   SegmentTree_getitem t idx = Ok (map (leaf t) idx)) /\
  (idx = [] -> SegmentTree_getitem t idx = Err ValueError).
Proof.
  intros Hwf. unfold SegmentTree_getitem.
  split; [|split; [|split]].
  - intros (i & Hi & Hbig).
    assert (Hne : idx <> []) by (intros ->; inversion Hi).
    destruct (np_max_in idx Hne) as (mx & Hmx & _). rewrite Hmx. simpl.
    pose proof (np_max_ge idx mx Hmx i Hi).
    destruct (Z.ltb_spec mx (_capacity t)); [lia | reflexivity].
  - intros Hall (i & Hi & Hneg).
    assert (Hne : idx <> []) by (intros ->; inversion Hi).
    destruct (np_max_in idx Hne) as (mx & Hmx & Hmxin). rewrite Hmx. simpl.
    pose proof (Hall mx Hmxin).
    destruct (Z.ltb_spec mx (_capacity t)); [|lia]. simpl.
    destruct (np_min_in idx Hne) as (mn & Hmn & _). rewrite Hmn. simpl.
    pose proof (np_min_le idx mn Hmn i Hi).
    destruct (Z.leb_spec 0 mn); [lia | reflexivity].
  - intros Hne Hall.
    destruct (np_max_in idx Hne) as (mx & Hmx & Hmxin). rewrite Hmx. simpl.
    pose proof (Hall mx Hmxin).
    destruct (Z.ltb_spec mx (_capacity t)); [|lia]. simpl.
    destruct (np_min_in idx Hne) as (mn & Hmn & Hmnin). rewrite Hmn. simpl.
    pose proof (Hall mn Hmnin).
    destruct (Z.leb_spec 0 mn); [|lia]. simpl.
    apply take_idx_leaves; [exact Hwf|]. apply Forall_forall. exact Hall.
  - intros ->. reflexivity.
Qed.

(** ** [find_prefixsum_idx]: what the assertions reject *)


(** ** [find_prefixsum_idx]: the indices returned *)

Lemma descend_bounds (j : nat) : forall (v : list Q) (i : Z) (p : Q),
  i * 2 ^ Z.of_nat j <= fst (descend j v i p) < (i + 1) * 2 ^ Z.of_nat j.
Proof.
  induction j as [|j IH]; intros v i p.
  - simpl. lia.
  - assert (Hpj : 2 ^ Z.of_nat (S j) = 2 * 2 ^ Z.of_nat j)
      by (rewrite Nat2Z.inj_succ, Z.pow_succ_r by lia; reflexivity).
    assert (Hposj : 0 < 2 ^ Z.of_nat j) by (apply Z.pow_pos_nonneg; lia).
    rewrite Hpj. cbn [descend]. cbv zeta.
    destruct (Qle_bool (nodeval v (2 * i)) p).
    + pose proof (IH v (2 * i + 1) (p - nodeval v (2 * i))%Q). nia.
    + pose proof (IH v (2 * i) p). nia.
Qed.

(** A call that returns has descended, for every target, from the root to
    a leaf of a tree with at least two leaves. *)
Lemma find_prefixsum_idx_descends (t : SumSegmentTree) (prefixsum : list Q)
    (idx : list Z) :
  tree_wf t ->
  find_prefixsum_idx t prefixsum = Ok idx ->
  exists h : nat,
    _capacity t = 2 ^ Z.of_nat (S h) /\
    idx = map (found_leaf t (S h)) prefixsum.
Proof.
  intros (h & Hcap & Hlen) Hfind. unfold find_prefixsum_idx in Hfind.
  inv_bind Hfind.
  assert (Hne : prefixsum <> []) by (intros ->; discriminate).
  assert (Hn : (1 <= length prefixsum)%nat)
    by (destruct prefixsum; [congruence | simpl; lia]).
  destruct h as [|h].
  - exfalso. change (2 ^ Z.of_nat 0) with 1 in Hcap.
    assert (Hl2 : length (_value t) = 2%nat) by lia.
    rewrite Hl2 in Hfind.
    destruct (length prefixsum) as [|n] eqn:E; [lia|].
    simpl in Hfind. unfold getitem in Hfind. rewrite Hl2 in Hfind.
    simpl in Hfind. discriminate.
  - exists h. split; [exact Hcap|].
    assert (Hpow : 2 ^ Z.of_nat (S h) = 2 * 2 ^ Z.of_nat h)
      by (rewrite Nat2Z.inj_succ, Z.pow_succ_r by lia; reflexivity).
    assert (Hpos : 0 < 2 ^ Z.of_nat h) by (apply Z.pow_pos_nonneg; lia).
    assert (Hcont : replicate (length prefixsum) true
                    = map (fun i => i <? _capacity t) (replicate (length prefixsum) 1)).
    { rewrite fmap_replicate. f_equal. symmetry. apply Z.ltb_lt. lia. }
    rewrite Hcont in Hfind.
    rewrite (find_prefixsum_loop_descend t (S h) Hcap Hlen (S h) 0%nat) in Hfind.
    + rewrite zip_with_replicate_const in Hfind. injection Hfind as <-. reflexivity.
    + reflexivity.
    + pose proof (pow2_gt_lin (S h)). lia.
    + apply length_replicate.
    + destruct prefixsum; [congruence | discriminate].
    + apply Forall_replicate. simpl. lia.
Qed.

(** X12: whenever [find_prefixsum_idx] returns, whatever values the tree
    holds, it returns one index per target, every returned index is a leaf
    index in [[0, capacity)], and the capacity is at least 2 (on a tree of
    capacity 1 the descent reads past the array). *)
Theorem find_prefixsum_idx_in_bounds (t : SumSegmentTree) (prefixsum : list Q)
    (idx : list Z) :
  tree_wf t ->
  find_prefixsum_idx t prefixsum = Ok idx ->
  length idx = length prefixsum /\
  2 <= _capacity t /\
  forall i, i ∈ idx -> 0 <= i < _capacity t.
Proof.
  intros Hwf Hfind.
  destruct (find_prefixsum_idx_descends t prefixsum idx Hwf Hfind) as (h & Hcap & ->).
  assert (Hpow : 2 ^ Z.of_nat (S h) = 2 * 2 ^ Z.of_nat h)
    by (rewrite Nat2Z.inj_succ, Z.pow_succ_r by lia; reflexivity).
  assert (Hpos : 0 < 2 ^ Z.of_nat h) by (apply Z.pow_pos_nonneg; lia).
  split; [apply length_map|]. split; [lia|].
  intros i Hi. apply list_elem_of_fmap in Hi as (p & -> & _).
  unfold found_leaf.
  pose proof (descend_bounds (S h) (_value t) 1 p) as Hb. lia.
Qed.

(** X8: on every tree that satisfies the node invariant, whatever its
    operation, a batch write [tree[idx] = vals] at leaf indices in
    [[0, capacity)] (in any order, repetitions allowed) succeeds and leaves a
    tree of the same shape that satisfies the invariant again; at a repeated
    index the value of its last occurrence stays, and every leaf not in [idx]
    keeps its value. *)
Theorem setitem_keeps_invariant {A : Type} `{Inhabited A} (t : SegmentTree A)
    (idx : list Z) (vals : list A) :
  tree_wf t -> tree_inv t ->
  idx <> [] -> length vals = length idx ->
  (forall i, i ∈ idx -> 0 <= i < _capacity t) ->
  exists t',
    SegmentTree_setitem t idx (Array vals) = Ok t' /\
    _capacity t' = _capacity t /\
    tree_wf t' /\ tree_inv t' /\
    (forall k i x, idx !! k = Some i -> vals !! k = Some x ->
       (forall k', (k < k')%nat -> idx !! k' <> Some i) ->
       leaf t' i = x) /\
    (forall j, 0 <= j < _capacity t -> j ∉ idx -> leaf t' j = leaf t j).
Proof.
  intros Hwf Hinv Hne Hlen Hall.
  destruct (SegmentTree_setitem_ok t idx (Array vals) vals) as
      (t' & Hset & Hcap & _ & _ & Hwf' & Hinv' & Hleaf);
    auto using broadcast_array.
  { apply Forall_forall. exact Hall. }
  exists t'. split; [exact Hset|]. split; [exact Hcap|]. split; [exact Hwf'|].
  split; [exact (Hinv' Hinv)|]. split.
  - intros k i x Hi Hx Hlast.
    pose proof (Hall i (list_elem_of_lookup_2 _ _ _ Hi)) as Hr.
    rewrite Hleaf by exact Hr.
    replace (_capacity t + i) with (i + _capacity t) by lia.
    erewrite (last_write_last _ vals k (i + _capacity t) x).
    + reflexivity.
    + apply Forall_map, Forall_forall. intros j Hj. specialize (Hall j Hj). simpl. lia.
    + rewrite list_lookup_fmap, Hi. reflexivity.
    + exact Hx.
    + intros k' Hk'. rewrite list_lookup_fmap.
      destruct (idx !! k') as [i'|] eqn:E; [|discriminate]. simpl.
      intros [= Heq]. apply (Hlast k' Hk'). rewrite E. f_equal. lia.
  - intros j Hj Hnot. rewrite Hleaf by exact Hj.
    rewrite last_write_None; [reflexivity|].
    intros i Hi Heq. apply list_elem_of_fmap in Hi as (i' & -> & Hi').
    specialize (Hall i' Hi'). apply Hnot. replace j with i' by lia. exact Hi'.
Qed.

(** ** [__setitem__] outside the leaves *)

Lemma put_idx_out_of_range {A} (idxs : list Z) : forall (a vals : list A),
  length idxs = length vals ->
  (exists i, i ∈ idxs /\ np_index (length a) i = None) ->
  put_idx a idxs vals = Err IndexError.
Proof.
  induction idxs as [|i idxs IH]; intros a [|x vals] Hlen (k & Hk & Hbad);
    simpl in Hlen; try discriminate.
  - inversion Hk.
  - simpl. unfold setitem.
    destruct (np_index (length a) i) as [p|] eqn:E; [|reflexivity].
    simpl. apply IH; [lia|].
    apply elem_of_cons in Hk as [->|Hk]; [congruence|].
    exists k. rewrite length_insert. auto.
Qed.

(** X10: a write [tree[idx] = x] whose index array holds an index
    [>= capacity] raises [IndexError]. *)
Theorem setitem_index_beyond_capacity {A : Type} (t : SegmentTree A) (idx : list Z)
    (x : A) :
  tree_wf t ->
  (exists i, i ∈ idx /\ _capacity t <= i) ->
  SegmentTree_setitem t idx (Scalar x) = Err IndexError.
Proof.
  intros (h & Hcap & Hlen) (i & Hi & Hbig). unfold SegmentTree_setitem. simpl.
  rewrite put_idx_out_of_range; [reflexivity | |].
  - rewrite length_replicate. reflexivity.
  - exists (i + _capacity t). split.
    + apply list_elem_of_fmap. exists i. auto.
    + unfold np_index.
      assert (0 < _capacity t) by (rewrite Hcap; apply Z.pow_pos_nonneg; lia).
      destruct (Z.leb_spec 0 (i + _capacity t)); [|lia].
      destruct (Z.ltb_spec (i + _capacity t) (Z.of_nat (length (_value t)))); [lia|].
      reflexivity.
Qed.

Section PropagateBelow.
Context {A : Type} `{Inhabited A}.
Variable op : A -> A -> A.

Lemma put_idx_untouched (idxs : list Z) : forall (a vals a' : list A) (p : nat),
  put_idx a idxs vals = Ok a' ->
  Forall (fun i => 0 <= i) idxs ->
  (forall i, i ∈ idxs -> Z.to_nat i <> p) ->
  length a' = length a /\ a' !!! p = a !!! p.
Proof.
  induction idxs as [|i idxs IH]; intros a [|x vals] a' p Hput Hpos Hp;
    simpl in Hput; try discriminate.
  - injection Hput as <-. auto.
  - apply Forall_cons in Hpos as [Hi Hpos].
    unfold setitem in Hput.
    destruct (np_index (length a) i) as [q|] eqn:E; [|discriminate]. simpl in Hput.
    assert (Hq : q = Z.to_nat i).
    { unfold np_index in E. destruct (Z.leb_spec 0 i); [|lia].
      destruct (i <? Z.of_nat (length a)); [congruence | discriminate]. }
    destruct (IH _ _ _ p Hput Hpos) as [Hl Hv].
    { intros k Hk. apply Hp. right. exact Hk. }
    rewrite length_insert in Hl. split; [exact Hl|].
    rewrite Hv. apply list_lookup_total_insert_ne.
    rewrite Hq. apply Hp. left.
Qed.

(** The upward pass only writes nodes that are at most as large as the
    nodes it starts from. *)
Lemma propagate_above (fuel : nat) : forall (v v' : list A) (l : list Z) (p : Z),
  propagate fuel op v l = Ok v' ->
  Forall (fun i => 0 <= i) l ->
  (forall i, i ∈ l -> i < p) ->
  nodeval v' p = nodeval v p.
Proof.
  induction fuel as [|fuel IH]; intros v v' l p Hrun Hpos Hlt; [discriminate|].
  cbn [propagate] in Hrun.
  inv_bind Hrun. destruct x; [|injection Hrun as <-; reflexivity].
  inv_bind Hrun.
  assert (Hne : map (fun i => i / 2) l <> []) by (intros E; rewrite E in Hx3; discriminate).
  rewrite unique_ok in Hx3 by exact Hne. injection Hx3 as <-.
  rewrite (IH _ _ _ p Hrun).
  - unfold nodeval.
    destruct (put_idx_untouched l v _ x1 (Z.to_nat p) Hx2 Hpos) as [_ Hv]; [|exact Hv].
    intros i Hi. rewrite Forall_forall in Hpos.
    pose proof (Hpos i Hi). pose proof (Hlt i Hi). lia.
  - apply keep_run_ends_Forall, Forall_map.
    eapply Forall_impl; [exact Hpos|]. intros i Hi. simpl in *.
    Z.to_euclidean_division_equations. lia.
  - intros i Hi. apply (proj1 (keep_run_ends_elem _ _)) in Hi.
    apply list_elem_of_fmap in Hi as (k & -> & Hk).
    rewrite Forall_forall in Hpos.
    pose proof (Hpos k Hk). pose proof (Hlt k Hk).
    Z.to_euclidean_division_equations. lia.
Qed.
End PropagateBelow.

(** X9: [SegmentTree.__setitem__] does not check its index: a write at a
    negative index [-capacity <= i < 0] succeeds, changes no leaf and
    overwrites the internal node [capacity + i] with the written value. *)
Theorem setitem_negative_index {A : Type} `{Inhabited A} (t : SegmentTree A)
    (i : Z) (x : A) :
  tree_wf t ->
  - _capacity t <= i < 0 ->
  exists t',
    SegmentTree_setitem t [i] (Scalar x) = Ok t' /\
    _capacity t' = _capacity t /\
    nodeval (_value t') (_capacity t + i) = x /\
    (forall j, 0 <= j < _capacity t -> leaf t' j = leaf t j).
Proof.
  intros (h & Hcap & Hlen) Hi.
  set (cap := _capacity t) in *. set (n := i + cap).
  assert (Hn : 0 <= n < cap) by (subst n; lia).
  set (v1 := <[Z.to_nat n := x]> (_value t)).
  assert (Hl1 : length v1 = length (_value t)) by apply length_insert.
  assert (Hput : put_idx (_value t) [n] [x] = Ok v1).
  { simpl. rewrite setitem_ok by (unfold in_range; lia). reflexivity. }
  assert (Hprop : exists v',
    propagate (length (_value t)) (_operation t) v1 [n / 2] = Ok v' /\
    (forall p, cap <= p < 2 * cap -> nodeval v' p = nodeval v1 p)).
  { destruct (Z.eq_dec (n / 2) 0) as [E0|E0].
    - rewrite E0. exists v1.
      destruct (length (_value t)) as [|fuel] eqn:E; [lia|].
      split; [apply propagate_root | reflexivity].
    - assert (Hn2 : 1 <= n / 2) by (Z.to_euclidean_division_equations; lia).
      destruct (Z.log2_spec (n / 2)) as [Hlo Hhi]; [lia|].
      pose proof (Z.log2_nonneg (n / 2)) as Hnn.
      set (k := Z.to_nat (Z.log2 (n / 2))).
      assert (Hk : Z.of_nat k = Z.log2 (n / 2)) by (subst k; lia).
      rewrite <- Hk in Hlo, Hhi.
      rewrite Z.pow_succ_r in Hhi by lia.
      assert (Hcapk : 2 * 2 ^ Z.of_nat k <= cap)
        by (Z.to_euclidean_division_equations; nia).
      assert (Hkh : (k < h)%nat).
      { apply Nat2Z.inj_lt. apply (Z.pow_lt_mono_r_iff 2); lia. }
      pose proof (pow2_gt_lin h) as Hlin.
      destruct (propagate_ok (_operation t) k cap v1 [n / 2] (length (_value t)))
        as (v' & Hrun & _ & _ & Hleaf); try lia.
      + discriminate.
      + repeat constructor; lia.
      + exists v'. split; [exact Hrun | exact Hleaf]. }
  destruct Hprop as (v' & Hrun & Hleaf).
  exists (mkSegmentTree cap v' (_operation t) (neutral_element t)).
  split; [|split; [reflexivity|split]].
  - unfold SegmentTree_setitem. fold cap. simpl. fold n.
    rewrite setitem_ok by (unfold in_range; lia). simpl.
    fold v1. rewrite Hrun. reflexivity.
  - simpl. replace (cap + i) with n by (subst n; lia).
    destruct (Z.eq_dec n 0) as [E0|E0].
    + assert (Hv : v' = v1).
      { rewrite E0 in Hrun. change (0 / 2) with 0 in Hrun.
        destruct (length (_value t)) as [|fuel] eqn:E; [lia|].
        rewrite propagate_root in Hrun. congruence. }
      rewrite Hv. unfold nodeval, v1. apply list_lookup_total_insert_eq. lia.
    + rewrite (propagate_above (_operation t) _ _ _ _ n Hrun).
      * unfold nodeval, v1. apply list_lookup_total_insert_eq. lia.
      * repeat constructor. Z.to_euclidean_division_equations. lia.
      * intros k Hk. apply list_elem_of_singleton in Hk as ->.
        Z.to_euclidean_division_equations. lia.
  - intros j Hj. unfold leaf. simpl. fold cap. rewrite Hleaf by lia.
    unfold nodeval, v1. apply list_lookup_total_insert_ne. lia.
Qed.

(** ** Contents of the circular store *)

Lemma put_idx_lookup {A} `{Inhabited A} (a a' : list A) (idxs : list Z) (vals : list A) :
  put_idx a idxs vals = Ok a' ->
  length idxs = length vals ->
  Forall (in_range a) idxs ->
  forall j, (j < length a)%nat -> a' !!! j = default (a !!! j) (last_write idxs vals j).
Proof.
  intros Hput Hlen Hall.
  destruct (put_idx_ok idxs a vals Hlen Hall) as (a'' & Hput' & _ & Hlook).
  rewrite Hput in Hput'. injection Hput' as <-. exact Hlook.
Qed.

Lemma zip_rows {B} (fs fa : B -> list Q) (fr : B -> Q) (fs1 : B -> list Q) (fd : B -> Z)
    (l : list B) :
  zip_with (fun '(s, a, r) '(s1, d) => mkTransition s a r s1 d)
    (zip (zip (map fs l) (map fa l)) (map fr l)) (zip (map fs1 l) (map fd l))
  = map (fun x => mkTransition (fs x) (fa x) (fr x) (fs1 x) (fd x)) l.
Proof. induction l as [|x l IH]; simpl; [reflexivity | f_equal; exact IH]. Qed.

Lemma take_seq_lookup {A} `{Inhabited A} (l : list A) : forall n : nat,
  (n <= length l)%nat -> take n l = map (fun i => l !!! i) (seq 0 n).
Proof.
  induction l as [|x l IH]; intros [|n] Hn; simpl in *; try reflexivity; [lia|].
  f_equal. rewrite IH by lia. rewrite <- fmap_S_seq.
  change (map ?f (S <$> ?l)) with (map f (map S l)). rewrite map_map. reflexivity.
Qed.

Lemma getitem_stored (st : ReplayBufferStorage) (indices : list Z) :
  storage_inv st ->
  Forall (fun i => 0 <= i < size st) indices ->
  ReplayBufferStorage_getitem st indices
  = Ok (map (fun i => stored st (Z.to_nat i)) indices).
Proof.
  intros [Hsz Hnext Hfill Hfilling Hs Ha Hr Hs1 Hd] Hall.
  unfold ReplayBufferStorage_getitem.
  rewrite !take_idx_ok by (eapply Forall_impl; [exact Hall|]; unfold in_range; simpl; lia).
  simpl. rewrite zip_rows. reflexivity.
Qed.

Lemma get_all_transitions_stored (st : ReplayBufferStorage) :
  storage_inv st ->
  ReplayBufferStorage_get_all_transitions st
  = map (stored st) (seq 0 (Z.to_nat (_max_filled st))).
Proof.
  intros [Hsz Hnext Hfill Hfilling Hs Ha Hr Hs1 Hd].
  unfold ReplayBufferStorage_get_all_transitions.
  rewrite !take_seq_lookup by lia. rewrite zip_rows. reflexivity.
Qed.

Lemma add_stored (st st' : ReplayBufferStorage) (e : experience) (R : list Z) :
  storage_inv st ->
  add st e = Ok (st', R) ->
  R = slots (_next_idx st) (pushed e) (size st) /\
  forall p : nat, (p < Z.to_nat (size st))%nat ->
    stored st' p = default (stored st p) (last_write R (rows_of e) p).
Proof.
  intros Hinv Hadd.
  destruct (add_ok st e Hinv) as (st'' & Hadd' & _).
  assert (HR : R = slots (_next_idx st) (pushed e) (size st)) by congruence.
  split; [exact HR|].
  destruct Hinv as [Hsz Hnext Hfill Hfilling Hs Ha Hr Hs1 Hd].
  set (N := pushed e) in *.
  assert (HN : (match e with One _ => 1 | Batch rows => Z.of_nat (length rows) end)
               = Z.of_nat N) by (destruct e; reflexivity).
  assert (HR' : map (fun i => np_mod i (size st)) (np_arange (_next_idx st) N) = R).
  { rewrite HR. unfold np_arange, slots. rewrite map_map. apply map_ext. intros k.
    unfold np_mod. destruct (Z.eqb_spec (size st) 0); [lia | reflexivity]. }
  pose proof (slots_in_range (_next_idx st) N (size st) Hsz) as Hin. rewrite <- HR in Hin.
  assert (HlenR : length R = length (rows_of e))
    by (rewrite HR; unfold slots; rewrite length_map, length_seq; reflexivity).
  unfold add in Hadd. rewrite HN, Nat2Z.id, HR' in Hadd.
  inv_bind Hadd. injection Hadd as <-.
  intros p Hp. unfold stored. simpl.
  rewrite (put_idx_lookup _ _ _ _ Hx), (put_idx_lookup _ _ _ _ Hx0),
    (put_idx_lookup _ _ _ _ Hx1), (put_idx_lookup _ _ _ _ Hx2),
    (put_idx_lookup _ _ _ _ Hx3);
    rewrite ?length_map; try lia;
    try (eapply Forall_impl; [exact Hin|]; unfold in_range; simpl; lia).
  rewrite !last_write_fmap.
  destruct (last_write R (rows_of e) p) as [[s a r s1 d]|]; reflexivity.
Qed.

Lemma mod_eq_gap (c a b : Z) : 0 < c -> a mod c = b mod c -> b < a -> b + c <= a.
Proof.
  intros Hc Heq Hlt.
  pose proof (Z.div_mod a c ltac:(lia)) as Ha.
  pose proof (Z.div_mod b c ltac:(lia)) as Hb.
  rewrite Heq in Ha.
  set (qa := a / c) in *. set (qb := b / c) in *. set (r := b mod c) in *.
  assert (Hq : qb < qa) by nia. nia.
Qed.

Lemma slots_lookup (w : Z) (N : nat) (c : Z) (j : nat) :
  (j < N)%nat -> slots w N c !! j = Some ((w + Z.of_nat j) mod c).
Proof.
  intros Hj. unfold slots. rewrite list_lookup_fmap, lookup_seq_lt by exact Hj. reflexivity.
Qed.

Lemma slots_lookup_inv (w : Z) (N : nat) (c : Z) (j : nat) (i : Z) :
  slots w N c !! j = Some i -> (j < N)%nat /\ i = (w + Z.of_nat j) mod c.
Proof.
  intros Hl. assert (Hj : (j < N)%nat).
  { apply lookup_lt_Some in Hl. unfold slots in Hl.
    rewrite length_map, length_seq in Hl. exact Hl. }
  rewrite slots_lookup in Hl by exact Hj. split; [exact Hj | congruence].
Qed.

Lemma add_holds (st st' : ReplayBufferStorage) (e : experience) (R : list Z)
    (H : list transition) :
  storage_inv st -> holds st H ->
  add st e = Ok (st', R) ->
  holds st' (H ++ rows_of e).
Proof.
  intros Hinv [Hnext Hfilled Hrows] Hadd.
  destruct (add_ok st e Hinv) as (st'' & Hadd' & Hinv' & Hsz' & Hn' & Hf').
  assert (st'' = st') by congruence. subst st''.
  destruct (add_stored st st' e R Hinv Hadd) as [HR Hst].
  pose proof (si_size st Hinv) as Hsz.
  set (c := size st) in *. set (n := length H) in *.
  unfold pushed in *. set (N := length (rows_of e)) in *.
  assert (HRmod : forall j : nat, (j < N)%nat ->
            R !! j = Some ((Z.of_nat n + Z.of_nat j) mod c)).
  { intros j Hj. rewrite HR, slots_lookup by exact Hj. f_equal.
    rewrite Hnext. rewrite Zplus_mod_idemp_l. reflexivity. }
  constructor; rewrite ?length_app, ?Hsz'; fold n N c.
  - rewrite Hn', Hnext, Zplus_mod_idemp_l. f_equal. lia.
  - rewrite Hf', Hfilled. lia.
  - intros k t Hk Hlast.
    pose proof (Z.mod_pos_bound (Z.of_nat k) c Hsz) as Hmod.
    rewrite Hst by lia.
    destruct (Nat.lt_ge_cases k n) as [Hkn|Hkn].
    + rewrite lookup_app_l in Hk by exact Hkn.
      rewrite last_write_None; [simpl; apply Hrows; [exact Hk | lia]|].
      intros i Hi Heq. apply list_elem_of_lookup in Hi as [j Hj].
      rewrite HR in Hj. apply slots_lookup_inv in Hj as [Hj Hi].
      pose proof (Z.mod_pos_bound (_next_idx st + Z.of_nat j) c Hsz) as Hmod'.
      assert (Hcong : (Z.of_nat n + Z.of_nat j) mod c = Z.of_nat k mod c).
      { rewrite <- (Zplus_mod_idemp_l (Z.of_nat n)), <- Hnext. lia. }
      pose proof (mod_eq_gap c _ _ Hsz Hcong). lia.
    + rewrite lookup_app_r in Hk by exact Hkn.
      assert (HkN : (k - n < N)%nat) by (apply lookup_lt_Some in Hk; exact Hk).
      replace (Z.of_nat k mod c) with ((Z.of_nat n + Z.of_nat (k - n)) mod c)
        by (f_equal; lia).
      rewrite (last_write_last R (rows_of e) (k - n)%nat _ t).
      * reflexivity.
      * rewrite HR. apply Forall_forall. intros i Hi.
        pose proof (proj1 (Forall_forall _ _) (slots_in_range (_next_idx st) N c Hsz) i Hi).
        simpl in *. lia.
      * apply HRmod. exact HkN.
      * exact Hk.
      * intros k' Hk' Hl. rewrite HR in Hl. apply slots_lookup_inv in Hl as [Hj Hi].
        assert (Hcong : (Z.of_nat n + Z.of_nat k') mod c
                        = (Z.of_nat n + Z.of_nat (k - n)) mod c).
        { rewrite <- (Zplus_mod_idemp_l (Z.of_nat n) (Z.of_nat k')), <- Hnext. lia. }
        pose proof (mod_eq_gap c _ _ Hsz Hcong). lia.
Qed.

Lemma init_holds (st : ReplayBufferStorage) :
  storage_inv st -> _next_idx st = 0 -> _max_filled st = 0 -> holds st [].
Proof.
  intros Hinv Hn Hf. pose proof (si_size st Hinv).
  constructor; simpl.
  - rewrite Hn. symmetry. apply Z.mod_0_l. lia.
  - rewrite Hf. lia.
  - intros k t Hk. discriminate.
Qed.

Lemma storage_push_holds (st : option ReplayBufferStorage) (maxsize : Z) (e : experience)
    (st' : ReplayBufferStorage) (R : list Z) (H : list transition) :
  0 < maxsize ->
  opt_storage_inv st maxsize -> opt_holds st H ->
  storage_push st maxsize e = Ok (st', R) ->
  holds st' (H ++ rows_of e).
Proof.
  intros Hm Hinv Hh Hpush. unfold storage_push in Hpush.
  set (o := match rows_of e with [] => O | t :: _ => length (t_state t) end) in *.
  set (a := match rows_of e with [] => O | t :: _ => length (t_action t) end) in *.
  destruct (ReplayBufferStorage_init_inv maxsize o a Hm)
    as (st0 & Hinit & Hinv0 & Hsz0 & Hn0 & Hf0).
  assert (Hfresh : H = [] -> (st1 <- Ok st0 ;; add st1 e) = Ok (st', R) ->
                   holds st' (H ++ rows_of e)).
  { intros -> Hadd. simpl in Hadd.
    apply (add_holds st0 st' e R [] Hinv0); [|exact Hadd].
    apply init_holds; assumption. }
  destruct st as [st|]; simpl in *.
  - destruct Hinv as [Hinv Hsz]. unfold ReplayBufferStorage_len in Hpush.
    destruct (Z.eqb_spec (_max_filled st) 0) as [Hz|Hnz].
    + rewrite Hinit in Hpush. apply Hfresh; [|exact Hpush].
      pose proof (ho_filled st H Hh). pose proof (si_size st Hinv).
      destruct H; [reflexivity | simpl in *; lia].
    + simpl in Hpush. exact (add_holds st st' e R H Hinv Hh Hpush).
  - rewrite Hinit in Hpush. apply Hfresh; assumption.
Qed.

Lemma push_all_holds (es : list experience) : forall (b b' : ReplayBuffer) Rs H,
  0 < rb_maxsize b ->
  opt_storage_inv (rb_storage b) (rb_maxsize b) ->
  opt_holds (rb_storage b) H ->
  push_all b es = Ok (b', Rs) ->
  opt_holds (rb_storage b') (H ++ pushed_rows es).
Proof.
  induction es as [|e es IH]; intros b b' Rs H Hm Hinv Hh Hrun; simpl in Hrun.
  - injection Hrun as <- <-. unfold pushed_rows. simpl. rewrite app_nil_r. exact Hh.
  - destruct (ReplayBuffer_push_ok b e Hm Hinv) as (b1 & Hpush & Hm1 & Hinv1 & _).
    rewrite Hpush in Hrun. simpl in Hrun.
    inv_bind Hrun. destruct x as [b2 Rs2]. simpl in Hrun. injection Hrun as <- <-.
    unfold pushed_rows. simpl. rewrite app_assoc.
    apply (IH b1 b2 Rs2); [lia | exact Hinv1 | | exact Hx].
    unfold ReplayBuffer_push in Hpush. inv_bind Hpush. injection Hpush as <- _.
    destruct x as [st1 R1]. simpl.
    exact (storage_push_holds _ _ _ _ _ _ Hm Hinv Hh Hx0).
Qed.

Lemma push_all_init_holds (capacity : Z) (es : list experience) (b : ReplayBuffer) Rs :
  0 < capacity ->
  push_all (ReplayBuffer_init capacity) es = Ok (b, Rs) ->
  rb_maxsize b = capacity /\
  opt_storage_inv (rb_storage b) capacity /\
  opt_holds (rb_storage b) (pushed_rows es).
Proof.
  intros Hc Hrun.
  destruct (push_all_inv es (ReplayBuffer_init capacity) b Rs) as [Hm Hinv];
    [exact Hc | exact I | exact Hrun |].
  simpl in Hm. rewrite Hm in Hinv. split; [exact Hm|]. split; [exact Hinv|].
  apply (push_all_holds es (ReplayBuffer_init capacity) b Rs []);
    [exact Hc | exact I | reflexivity | exact Hrun].
Qed.






(** X15: [get_all_transitions] of the storage returns the records at the
    slots [0, ..., len() - 1], in slot order (what [__getitem__] returns for
    these indices), and their number is the number of rows pushed, capped
    at the capacity. *)
Theorem get_all_transitions_reads_filled_slots (capacity : Z) (es : list experience)
    (b : ReplayBuffer) (Rs : list (list Z)) (st : ReplayBufferStorage) :
  0 < capacity ->
  push_all (ReplayBuffer_init capacity) es = Ok (b, Rs) ->
  rb_storage b = Some st ->
  ReplayBufferStorage_getitem st (np_arange 0 (Z.to_nat (ReplayBufferStorage_len st)))
  = Ok (ReplayBufferStorage_get_all_transitions st) /\
  Z.of_nat (length (ReplayBufferStorage_get_all_transitions st))
  = Z.min (Z.of_nat (length (pushed_rows es))) capacity.
Proof.
  intros Hc Hrun Hst.
  destruct (push_all_init_holds capacity es b Rs Hc Hrun) as (Hm & Hinv & Hh).
  rewrite Hst in Hinv, Hh. simpl in Hinv, Hh. destruct Hinv as [Hinv Hsz].
  pose proof (si_filled st Hinv) as Hfill.
  rewrite get_all_transitions_stored by exact Hinv. split.
  - rewrite getitem_stored; [|exact Hinv|].
    + f_equal. unfold np_arange, ReplayBufferStorage_len. rewrite map_map.
      apply map_ext. intros k. f_equal. lia.
    + unfold np_arange, ReplayBufferStorage_len. apply Forall_map, Forall_forall.
      intros k Hk. apply list_elem_of_In, in_seq in Hk. simpl. lia.
  - rewrite length_map, length_seq, (ho_filled st _ Hh), Hsz. lia.
Qed.

(** ** The prioritized buffer: what is stored *)

Section Stored.
Variable fpow : Q -> Q -> Q.

Lemma apply_operation_holds (b b' : PrioritizedReplayBuffer) (o : operation)
    (H : list transition) :
  prb_inv b -> opt_holds (_storage b) H ->
  apply_operation fpow b o = Ok b' ->
  opt_holds (_storage b') (H ++ pushed_by [o]).
Proof.
  intros Hinv Hh Hop. unfold pushed_by. simpl. rewrite app_nil_r.
  destruct o as [e p|idxes ps]; simpl in Hop.
  - inv_bind Hop. injection Hop as <-.
    unfold PrioritizedReplayBuffer_push in Hx. inv_bind Hx. injection Hx as <-.
    simpl. destruct x0 as [st1 R1]. simpl.
    exact (storage_push_holds _ _ _ _ _ _ (pi_size b Hinv) (pi_storage b Hinv) Hh Hx0).
  - destruct (update_priorities_checked fpow b idxes ps b' Hop)
      as (st & Hst & Hlen & Hne & Hpos & Hrange).
    destruct (update_priorities_ok fpow b st idxes ps Hinv Hst Hlen Hne Hpos Hrange)
      as (b1 & mx & Hup & _ & _ & Hst1 & _).
    rewrite Hup in Hop. injection Hop as <-. rewrite Hst1, app_nil_r. exact Hh.
Qed.

Lemma run_holds (ops : list operation) : forall (b b' : PrioritizedReplayBuffer) H,
  prb_inv b -> opt_holds (_storage b) H ->
  run fpow b ops = Ok b' ->
  opt_holds (_storage b') (H ++ pushed_by ops).
Proof.
  induction ops as [|o ops IH]; intros b b' H Hinv Hh Hrun; simpl in Hrun.
  - injection Hrun as <-. unfold pushed_by. simpl. rewrite app_nil_r. exact Hh.
  - inv_bind Hrun.
    replace (H ++ pushed_by (o :: ops)) with ((H ++ pushed_by [o]) ++ pushed_by ops).
    + apply (IH x b'); [eapply apply_operation_inv; eassumption | | exact Hrun].
      eapply apply_operation_holds; eassumption.
    + unfold pushed_by. simpl. rewrite app_nil_r, app_assoc. reflexivity.
Qed.
End Stored.

Lemma run_maxsize (fpow : Q -> Q -> Q) (ops : list operation) :
  forall b b' : PrioritizedReplayBuffer,
    run fpow b ops = Ok b' -> _maxsize b' = _maxsize b.
Proof.
  induction ops as [|o ops IH]; intros b b' Hrun; simpl in Hrun.
  - injection Hrun as <-. reflexivity.
  - inv_bind Hrun. rewrite (IH x b' Hrun).
    destruct o as [e p|idxes ps]; simpl in Hx.
    + inv_bind Hx. injection Hx as <-.
      unfold PrioritizedReplayBuffer_push in Hx0. inv_bind Hx0. injection Hx0 as <-.
      reflexivity.
    + unfold update_priorities in Hx. inv_bind Hx. injection Hx as <-. reflexivity.
Qed.

(** X19: after any sequence of operations on a prioritized buffer, [len()]
    is the number of rows pushed so far capped at the size; it raises
    [TypeError] as long as nothing was pushed, and [update_priorities] never
    changes it. *)
Theorem PrioritizedReplayBuffer_len_counts_rows (fpow : Q -> Q -> Q) (n : Z) (a be : Q)
    (ops : list operation) (b0 b : PrioritizedReplayBuffer) :
  0 < n ->
  PrioritizedReplayBuffer_init n a be = Ok b0 ->
  run fpow b0 ops = Ok b ->
  (pushed_by ops = [] -> PrioritizedReplayBuffer_len b = Err TypeError) /\
  (pushed_by ops <> [] ->
   PrioritizedReplayBuffer_len b = Ok (Z.min (Z.of_nat (length (pushed_by ops))) n)).
Proof.
  intros Hn Hinit Hrun.
  destruct (PrioritizedReplayBuffer_init_inv n a be b0 Hn Hinit)
    as (Hinv0 & Hst0 & Hm0 & _).
  pose proof (run_inv fpow ops b0 b Hinv0 Hrun) as Hinv.
  assert (Hh : opt_holds (_storage b) (pushed_by ops)).
  { apply (run_holds fpow ops b0 b []); [exact Hinv0 | rewrite Hst0; reflexivity | exact Hrun]. }
  assert (Hsize : forall st, _storage b = Some st -> size st = n).
  { intros st Hst. pose proof (pi_storage b Hinv) as Hs. rewrite Hst in Hs.
    destruct Hs as [_ Hs]. rewrite Hs, (run_maxsize fpow ops b0 b Hrun). exact Hm0. }
  unfold PrioritizedReplayBuffer_len.
  destruct (_storage b) as [st|] eqn:Hst; simpl in *.
  - pose proof (pi_nonempty b Hinv st Hst) as H1.
    unfold ReplayBufferStorage_len.
    rewrite (ho_filled st _ Hh), (Hsize st eq_refl) in *.
    split; [|reflexivity].
    intros Hnil. rewrite Hnil in H1. simpl in H1. lia.
  - split; [reflexivity | contradiction].
Qed.

(** ** Construction of the prioritized buffer *)

Lemma grow_capacity_least (fuel : nat) : forall (k : nat) (size : Z),
  exists h : nat,
    grow_capacity fuel (2 ^ Z.of_nat k) size = 2 ^ Z.of_nat h /\
    (k <= h)%nat /\ (h = k \/ 2 ^ (Z.of_nat h - 1) < size).
Proof.
  induction fuel as [|fuel IH]; intros k n; simpl; [exists k; auto|].
  destruct (Z.ltb_spec (2 ^ Z.of_nat k) n) as [Hlt|]; [|exists k; auto].
  replace (2 ^ Z.of_nat k * 2) with (2 ^ Z.of_nat (S k))
    by (rewrite Nat2Z.inj_succ, Z.pow_succ_r by lia; lia).
  destruct (IH (S k) n) as (h & Hh & Hkh & Hmin).
  exists h. split; [exact Hh|]. split; [lia|]. right.
  destruct Hmin as [->|Hmin]; [|exact Hmin].
  replace (Z.of_nat (S k) - 1) with (Z.of_nat k) by lia. exact Hlt.
Qed.

(** X17: [PrioritizedReplayBuffer.__init__] fails its assertion when
    [alpha < 0]; otherwise it builds both trees with the smallest power of two
    that is at least [size] as capacity, all priorities 0 in the sum tree and
    [inf] in the min tree, no storage yet and [max_priority = 1]. *)
Theorem PrioritizedReplayBuffer_init_capacity (size : Z) (a be : Q) :
  ((a < 0)%Q ->
   PrioritizedReplayBuffer_init size a be = Err (AssertionError alpha_nonneg)) /\
  ((0 <= a)%Q ->
   exists (b : PrioritizedReplayBuffer) (h : nat),
     PrioritizedReplayBuffer_init size a be = Ok b /\
     _capacity (_it_sum b) = 2 ^ Z.of_nat h /\
     _capacity (_it_min b) = 2 ^ Z.of_nat h /\
     size <= 2 ^ Z.of_nat h /\
     (h = 0%nat \/ 2 ^ (Z.of_nat h - 1) < size) /\
     _storage b = None /\ _maxsize b = size /\ _max_priority b = 1%Q /\
     forall i, 0 <= i < 2 ^ Z.of_nat h ->
       leaf (_it_sum b) i = 0%Q /\ leaf (_it_min b) i = Inf).
Proof.
  unfold PrioritizedReplayBuffer_init. split.
  - intros Hneg. replace (Qle_bool 0 a) with false; [reflexivity|].
    symmetry. destruct (Qle_bool 0 a) eqn:E; [|reflexivity].
    apply Qle_bool_iff in E. lra.
  - intros Hnn. replace (Qle_bool 0 a) with true by (symmetry; apply Qle_bool_iff, Hnn).
    simpl.
    destruct (grow_capacity_least (Z.to_nat size) 0 size) as (h & Hh & _ & Hmin).
    change (2 ^ Z.of_nat 0) with 1 in Hh.
    pose proof (grow_capacity_ge (Z.to_nat size) 1 size) as Hge.
    rewrite Hh in Hge |- *.
    unfold SumSegmentTree_init, MinSegmentTree_init.
    rewrite !SegmentTree_init_pow2. simpl.
    destruct (replicate_tree_inv h Qplus 0%Q) as (_ & _ & Hleaf1); [reflexivity|].
    destruct (replicate_tree_inv h np_minimum Inf) as (_ & _ & Hleaf2); [reflexivity|].
    eexists. exists h. split; [reflexivity|]. simpl.
    repeat split; auto; lia.
Qed.

(** ** Priorities sit on the filled slots *)


Section Unfilled.
Variable fpow : Q -> Q -> Q.


End Unfilled.





(** X21: after any sequence of operations without negative push
    priorities, every filled slot has a positive priority in the sum tree
    and the min tree holds the same value at that slot.  The power function
    is assumed positive on positive bases. *)
Theorem trees_agree_on_filled_slots (fpow : Q -> Q -> Q) (n : Z) (a be : Q)
    (ops : list operation) (b0 b : PrioritizedReplayBuffer) :
  (forall x e : Q, (0 < x)%Q -> (0 < fpow x e)%Q) ->
  0 < n ->
  PrioritizedReplayBuffer_init n a be = Ok b0 ->
  push_priorities_nonneg ops ->
  run fpow b0 ops = Ok b ->
  forall j, 0 <= j < filled_count (_storage b) ->
    (0 < leaf (_it_sum b) j)%Q /\ leaf (_it_min b) j = Fin (leaf (_it_sum b) j).
Proof.
  intros Hpos Hn Hinit Hnonneg Hrun j Hj.
  destruct (PrioritizedReplayBuffer_init_inv n a be b0 Hn Hinit)
    as (Hinv0 & Hst0 & Hm0 & _ & _ & Hmp0 & Hleaf0).
  pose proof (run_inv fpow ops b0 b Hinv0 Hrun) as Hinv.
  assert (Hmp : (0 < _max_priority b0)%Q) by (rewrite Hmp0; reflexivity).
  assert (Hsync : leaf_sync b).
  { apply (run_sync fpow Hpos ops b0 b); auto.
    intros i Hi. left. apply Hleaf0, Hi. }
  assert (Hfp : filled_positive b).
  { apply (run_filled_positive fpow Hpos ops b0 b); auto.
    intros st Hst. rewrite Hst0 in Hst. discriminate. }
  pose proof (filled_count_bounds _ _ (pi_size b Hinv) (pi_storage b Hinv)) as Hfb.
  pose proof (pi_size_cap b Hinv) as Hsc.
  destruct (_storage b) as [st|] eqn:Hst; simpl in Hj; [|lia].
  pose proof (Hfp st Hst j Hj) as Hlt. simpl in Hfb.
  destruct (Hsync j ltac:(lia)) as [[H0 _]|[_ Hfin]]; [|auto].
  rewrite H0 in Hlt. exfalso. exact (Qlt_irrefl _ Hlt).
Qed.


(** ** What [sample] returns *)



Section Sampled.
Variable fpow : Q -> Q -> Q.
Hypothesis fpow_pos : forall x e : Q, (0 < x)%Q -> (0 < fpow x e)%Q.

End Sampled.



(** ** The theorems at concrete inputs *)

(** Comparison of two concrete rationals. *)
Ltac qcompare :=
  vm_compute; first [reflexivity | discriminate | (let H := fresh in intros H; discriminate H)].




Lemma C7_witness :
  exists (b b' : PrioritizedReplayBuffer) (st : ReplayBufferStorage),
    reachable pow_int b /\
    _storage b = Some st /\
    length [2; 0] = length [3; 1 # 2]%Q /\
    update_priorities pow_int b [2; 0] [3; 1 # 2]%Q = Ok b' /\
    _storage b' = _storage b.
Proof.
  assert (Hreach : exists b, run pow_int
                      (mkPRB None 3 1 1
                         (mkSegmentTree 4 (replicate 8 0%Q) Qplus 0%Q)
                         (mkSegmentTree 4 (replicate 8 Inf) np_minimum Inf) 1)
                      example_operations = Ok b).
  { eexists. vm_compute. reflexivity. }
  destruct Hreach as [b Hb].
  assert (Hr : reachable pow_int b).
  { exists 3, 1%Q, 1%Q, example_operations. eexists.
    split; [lia|]. split; [vm_compute; reflexivity | exact Hb]. }
  vm_compute in Hb. injection Hb as <-.
  eexists. eexists. eexists.
  split; [exact Hr|]. split; [reflexivity|]. split; [reflexivity|].
  edestruct (C7_update_priorities pow_int _ _ [2; 0] [3; 1 # 2]%Q Hr eq_refl)
    as (_ & _ & Hok).
  destruct Hok as (b' & Hup & Hst & _).
  - reflexivity.
  - discriminate.
  - intros p Hp. apply elem_of_cons in Hp as [->|Hp]; [qcompare|].
    apply list_elem_of_singleton in Hp as ->. qcompare.
  - intros i Hi. apply elem_of_cons in Hi as [->|Hi]; [simpl; lia|].
    apply list_elem_of_singleton in Hi as ->. simpl. lia.
  - vm_compute in Hup. injection Hup as <-. split; reflexivity.
Defined.



Lemma C10_witness :
  tree_wf example_tree /\
  NoDup [2; 0] /\
  exists t',
    SegmentTree_setitem example_tree [2; 0] (Array [5; 7]%Q) = Ok t' /\
    SegmentTree_getitem t' [0] = Ok [7%Q] /\
    SegmentTree_getitem t' [1] = SegmentTree_getitem example_tree [1].
Proof.
  assert (Hnd : NoDup [2; 0]).
  { apply NoDup_cons. split; [|apply NoDup_singleton].
    intros Hin. apply list_elem_of_singleton in Hin. discriminate. }
  split; [exact example_tree_wf|]. split; [exact Hnd|].
  destruct (C10_setitem_getitem_roundtrip example_tree [2; 0] [5; 7]%Q)
    as [(t' & Hset & Hread & Hother) _].
  - exact example_tree_wf.
  - discriminate.
  - exact Hnd.
  - repeat constructor; simpl; lia.
  - reflexivity.
  - exists t'. split; [exact Hset|]. split.
    + apply (Hread 1%nat 0 7%Q); reflexivity.
    + apply Hother; [simpl; lia|].
      intros Hin. apply elem_of_cons in Hin as [Hin|Hin]; [discriminate|].
      apply list_elem_of_singleton in Hin. discriminate.
Defined.

(** ** The further properties at concrete inputs *)

Lemma example_min_tree_wf : tree_wf example_min_tree.
Proof. exists 2%nat. split; reflexivity. Qed.

Lemma example_min_tree_inv : tree_inv example_min_tree.
Proof.
  intros n Hn. simpl in Hn.
  assert (Hc : n = 1 \/ n = 2 \/ n = 3) by lia.
  destruct Hc as [->|[->| ->]]; reflexivity.
Qed.


Lemma unique_sorted_witness :
  exists u, unique [1; 1; 2; 3; 3] = Ok u /\ NoDup u /\
            forall x, x ∈ u <-> x ∈ [1; 1; 2; 3; 3].
Proof.
  destruct (unique_sorted [1; 1; 2; 3; 3]) as (u & Hu & _ & Hnd & Hel).
  - discriminate.
  - repeat apply Sorted_cons; try apply Sorted_nil;
      try apply HdRel_nil; apply HdRel_cons; lia.
  - exists u. auto.
Defined.


Lemma min_range_witness :
  exists m, min example_min_tree 1 (Some 3) = Ok m /\
            efle m (leaf example_min_tree 2).
Proof.
  destruct (min_range example_min_tree 1 3 example_min_tree_wf eq_refl example_min_tree_inv)
    as (m & Hm & Hlb & _); [lia | simpl; lia |].
  exists m. split; [exact Hm|]. apply Hlb. lia.
Defined.

Lemma reduce_empty_range_witness :
  reduce example_tree 2 (Some 2) = Err RecursionError /\
  reduce example_tree 3 (Some (-2)) = Err RecursionError.
Proof.
  split.
  - apply (reduce_empty_range example_tree 2 2). simpl. lia.
  - apply (reduce_empty_range example_tree 3 (-2)). simpl. lia.
Defined.

Lemma reduce_beyond_capacity_witness :
  reduce example_tree 0 (Some 5) = Err IndexError.
Proof.
  apply (reduce_beyond_capacity example_tree 0 5 example_tree_wf); simpl; lia.
Defined.

Lemma SegmentTree_getitem_checks_witness :
  SegmentTree_getitem example_tree [0; 5]
  = Err (AssertionError getitem_max_lt_capacity) /\
  SegmentTree_getitem example_tree [2; 0] = Ok [3; 1]%Q.
Proof.
  destruct (SegmentTree_getitem_checks example_tree [0; 5] example_tree_wf)
    as (Hbig & _).
  destruct (SegmentTree_getitem_checks example_tree [2; 0] example_tree_wf)
    as (_ & _ & Hok & _).
  split.
  - apply Hbig. exists 5. split; [right; left | simpl; lia].
  - apply Hok; [discriminate|].
    intros i Hi. apply elem_of_cons in Hi as [->|Hi]; [simpl; lia|].
    apply list_elem_of_singleton in Hi as ->. simpl. lia.
Defined.


Lemma find_prefixsum_idx_in_bounds_witness :
  length [0; 1] = length [0; 29 # 10]%Q /\
  2 <= _capacity example_tree /\
  forall i, i ∈ [0; 1] -> 0 <= i < _capacity example_tree.
Proof.
  apply (find_prefixsum_idx_in_bounds example_tree [0; 29 # 10]%Q [0; 1] example_tree_wf).
  vm_compute. reflexivity.
Defined.

Lemma setitem_negative_index_witness :
  exists t',
    SegmentTree_setitem example_tree [-1] (Scalar 9%Q) = Ok t' /\
    nodeval (_value t') 3 = 9%Q /\
    leaf t' 3 = 4%Q.
Proof.
  destruct (setitem_negative_index example_tree (-1) 9%Q example_tree_wf)
    as (t' & Hset & _ & Hnode & Hleaf); [simpl; lia|].
  exists t'. split; [exact Hset|]. split; [exact Hnode|].
  rewrite Hleaf by (simpl; lia). reflexivity.
Defined.

Lemma setitem_index_beyond_capacity_witness :
  SegmentTree_setitem example_tree [0; 4] (Scalar 9%Q) = Err IndexError.
Proof.
  apply (setitem_index_beyond_capacity example_tree [0; 4] 9%Q example_tree_wf).
  exists 4. split; [right; left | simpl; lia].
Defined.

Lemma setitem_keeps_invariant_witness :
  exists t',
    SegmentTree_setitem example_tree [1; 3; 1] (Array [5; 6; 7]%Q) = Ok t' /\
    tree_inv t' /\ leaf t' 1 = 7%Q.
Proof.
  destruct (setitem_keeps_invariant example_tree [1; 3; 1] [5; 6; 7]%Q
              example_tree_wf example_tree_inv)
    as (t' & Hset & _ & _ & Hinv & Hlast & _).
  - discriminate.
  - reflexivity.
  - intros i Hi. repeat (apply elem_of_cons in Hi as [->|Hi]; [simpl; lia|]).
    inversion Hi.
  - exists t'. split; [exact Hset|]. split; [exact Hinv|].
    apply (Hlast 2%nat 1 7%Q); [reflexivity | reflexivity |].
    intros k' Hk'. destruct k' as [|[|[|k']]]; try lia. discriminate.
Defined.




Lemma get_all_transitions_reads_filled_slots_witness :
  exists b Rs st,
    push_all (ReplayBuffer_init 3) [One example_transition; One other_transition]
    = Ok (b, Rs) /\
    rb_storage b = Some st /\
    ReplayBufferStorage_getitem st (np_arange 0 (Z.to_nat (ReplayBufferStorage_len st)))
    = Ok (ReplayBufferStorage_get_all_transitions st).
Proof.
  do 3 eexists. split; [vm_compute; reflexivity|]. split; [reflexivity|].
  eapply (get_all_transitions_reads_filled_slots 3
            [One example_transition; One other_transition]);
    [lia | vm_compute; reflexivity | reflexivity].
Defined.


Lemma PrioritizedReplayBuffer_len_counts_rows_witness :
  exists b0 b,
    PrioritizedReplayBuffer_init 3 1 1 = Ok b0 /\
    run pow_int b0 example_operations = Ok b /\
    PrioritizedReplayBuffer_len b
    = Ok (Z.min (Z.of_nat (length (pushed_by example_operations))) 3).
Proof.
  do 2 eexists. split; [vm_compute; reflexivity|]. split; [vm_compute; reflexivity|].
  eapply (proj2 (PrioritizedReplayBuffer_len_counts_rows pow_int 3 1 1 example_operations
                   _ _ ltac:(lia) ltac:(vm_compute; reflexivity)
                   ltac:(vm_compute; reflexivity))).
  discriminate.
Defined.

Lemma trees_agree_on_filled_slots_witness :
  exists b0 b,
    PrioritizedReplayBuffer_init 3 1 1 = Ok b0 /\
    run pow_int b0 example_operations = Ok b /\
    leaf (_it_min b) 2 = Fin (leaf (_it_sum b) 2).
Proof.
  do 2 eexists. split; [vm_compute; reflexivity|]. split; [vm_compute; reflexivity|].
  eapply (trees_agree_on_filled_slots pow_int 3 1 1 example_operations).
  - exact pow_int_pos.
  - lia.
  - vm_compute. reflexivity.
  - repeat constructor; qcompare.
  - vm_compute. reflexivity.
  - simpl. lia.
Defined.




Lemma max_priority_tracks_updates_witness :
  exists b0 b : PrioritizedReplayBuffer,
    0 < 3 /\
    PrioritizedReplayBuffer_init 3 1 1 = Ok b0 /\
    run pow_int b0 example_operations = Ok b /\
    (1 <= _max_priority b)%Q /\
    (forall p, p ∈ supplied_priorities example_operations -> (p <= _max_priority b)%Q) /\
    (_max_priority b = 1%Q \/ _max_priority b ∈ supplied_priorities example_operations).
Proof.
  do 2 eexists. split; [lia|].
  split; [vm_compute; reflexivity|].
  split; [vm_compute; reflexivity|].
  eapply (max_priority_tracks_updates pow_int 3 1 1 example_operations);
    [lia | vm_compute; reflexivity | vm_compute; reflexivity].
Defined.
